(** * Union-Find with path compression and union by rank, and its graph clients

    A shallow embedding of [union_find_example.go]: the [UnionFind] struct and
    its methods [Find], [Union], [Connected], [Count], [GetComponents], and the
    clients [DetectCycle] and [KruskalMST].

    Go's [int] is modelled as [Z] with the 64-bit wrap-around written out where
    the code does arithmetic; slices are lists indexed by [Z], and an index
    outside the slice panics.  [Find] is recursive in the source with no
    structural measure, so the embedding carries a recursion budget: running
    out of it is a third outcome, distinct from a return and from a panic.
    [sort.Slice], which [KruskalMST] calls, is Go's library and not part of the
    file: it is a parameter, constrained by what Go documents of it.

    The development goes on to the rest of the file: [WeightedUnionFind] with
    its methods, [FriendCircles], [NumberOfIslands] and [AccountsMerge].  Go
    strings are strings of 8-bit characters, compared as Go compares them; the
    maps of [AccountsMerge] are finite maps, and the order in which a [range]
    walks through a map, which Go leaves open, is a parameter like
    [sort.Strings]. *)

From stdpp Require Import base option list list_numbers sorting gmap strings.
From Stdlib Require Import ZArith Lia.

Local Open Scope Z_scope.
#[local] Set Warnings "-clear-no-such-hyp".

(** ** Outcomes of a call *)

Inductive outcome (A : Type) : Type :=
| Ok (a : A)
| Panic
| OutOfFuel.
Arguments Ok {A} a.
Arguments Panic {A}.
Arguments OutOfFuel {A}.

#[global] Instance outcome_ret : MRet outcome := fun _ a => Ok a.
#[global] Instance outcome_bind : MBind outcome := fun _ _ k m =>
  match m with
  | Ok a => k a
  | Panic => Panic
  | OutOfFuel => OutOfFuel
  end.

(** A call has settled when its outcome no longer depends on the budget. *)
Definition settled {A} (o : outcome A) : Prop := o ≠ OutOfFuel.

(** ** Machine integers and slices *)

Definition max_int : Z := 2 ^ 63 - 1.
Definition wrap64 (z : Z) : Z := (z + 2 ^ 63) `mod` 2 ^ 64 - 2 ^ 63.

(** Reading position [i] of a slice, where there is one. *)
Definition lookupZ {A} (s : list A) (i : Z) : option A :=
  if decide (0 ≤ i) then s !! Z.to_nat i else None.

(** [s[i]] as an expression: the element, or the index-out-of-range panic. *)
Definition index {A} (s : list A) (i : Z) : outcome A :=
  match lookupZ s i with
  | Some a => Ok a
  | None => Panic
  end.

(** [s[i] = v] as a statement. *)
Definition assign {A} (s : list A) (i : Z) (v : A) : outcome (list A) :=
  if decide (0 ≤ i ∧ i < Z.of_nat (length s)) then Ok (<[Z.to_nat i := v]> s)
  else Panic.

(** ** The structure *)

Record UnionFind : Type := mkUF {
  parent : list Z;
  rank : list Z;
  count : Z
}.

Definition with_parent (uf : UnionFind) (p : list Z) : UnionFind :=
  {| parent := p; rank := rank uf; count := count uf |}.
Definition with_rank (uf : UnionFind) (r : list Z) : UnionFind :=
  {| parent := parent uf; rank := r; count := count uf |}.
Definition with_count (uf : UnionFind) (c : Z) : UnionFind :=
  {| parent := parent uf; rank := rank uf; count := c |}.

(** [make([]int, n)] panics on a negative length and on one beyond what can
    be allocated; the model takes the largest [int] as that limit. *)
Definition make (n : Z) : outcome (list Z) :=
  if decide (0 ≤ n ≤ max_int) then Ok (replicate (Z.to_nat n) 0) else Panic.

(** The initialisation loop [for i := 0; i < n; i++], from [i] with [k]
    iterations left; [i] stays below [n], so [i++] does not overflow. *)
Fixpoint init_loop (k : nat) (i : Z) (parent rank : list Z)
  : outcome (list Z * list Z) :=
  match k with
  | O => Ok (parent, rank)
  | S k' =>
      parent' ← assign parent i i;
      rank' ← assign rank i 0;
      init_loop k' (i + 1) parent' rank'
  end.

Definition NewUnionFind (n : Z) : outcome UnionFind :=
  parent ← make n;
  rank ← make n;
  '(parent, rank) ← init_loop (Z.to_nat n) 0 parent rank;
  Ok {| parent := parent; rank := rank; count := n |}.

(** [Find]: the test [uf.parent[x] != x], then in the branch the argument
    [uf.parent[x]] of the recursive call, the call, and the store into
    [uf.parent[x]]; after the branch the [return uf.parent[x]].  The slice is
    never reallocated, so the store goes into the state the recursive call
    left. *)
Fixpoint Find (fuel : nat) (uf : UnionFind) (x : Z) : outcome (Z * UnionFind) :=
  match fuel with
  | O => OutOfFuel
  | S fuel' =>
      p ← index (parent uf) x;
      uf ← (if decide (p ≠ x) then
              p ← index (parent uf) x;
              '(r, uf) ← Find fuel' uf p;
              parent' ← assign (parent uf) x r;
              Ok (with_parent uf parent')
            else Ok uf);
      r ← index (parent uf) x;
      Ok (r, uf)
  end.

(** The rank comparison and linking of two distinct roots (the [if]/[else if]/
    [else] of [Union]). *)
Definition link (uf : UnionFind) (rootX rootY : Z) : outcome UnionFind :=
  rx ← index (rank uf) rootX;
  ry ← index (rank uf) rootY;
  if decide (rx < ry) then
    parent' ← assign (parent uf) rootX rootY;
    Ok (with_parent uf parent')
  else
    rx ← index (rank uf) rootX;
    ry ← index (rank uf) rootY;
    if decide (rx > ry) then
      parent' ← assign (parent uf) rootY rootX;
      Ok (with_parent uf parent')
    else
      parent' ← assign (parent uf) rootY rootX;
      let uf := with_parent uf parent' in
      rx ← index (rank uf) rootX;
      rank' ← assign (rank uf) rootX (wrap64 (rx + 1));
      Ok (with_rank uf rank').

Definition Union (fuel : nat) (uf : UnionFind) (x y : Z)
  : outcome (bool * UnionFind) :=
  '(rootX, uf) ← Find fuel uf x;
  '(rootY, uf) ← Find fuel uf y;
  if decide (rootX = rootY) then Ok (false, uf)
  else
    uf ← link uf rootX rootY;
    Ok (true, with_count uf (wrap64 (count uf - 1))).

Definition Connected (fuel : nat) (uf : UnionFind) (x y : Z)
  : outcome (bool * UnionFind) :=
  '(rootX, uf) ← Find fuel uf x;
  '(rootY, uf) ← Find fuel uf y;
  Ok (bool_decide (rootX = rootY), uf).

Definition Count (uf : UnionFind) : Z := count uf.

(** [GetComponents]: the loop [for i := 0; i < len(uf.parent); i++], from [i]
    with [k] iterations left, filling the map from roots to members. *)
Fixpoint GetComponents_loop (fuel k : nat) (i : Z) (uf : UnionFind)
    (components : gmap Z (list Z)) : outcome (gmap Z (list Z) * UnionFind) :=
  match k with
  | O => Ok (components, uf)
  | S k' =>
      '(root, uf) ← Find fuel uf i;
      let components := <[root := default [] (components !! root) ++ [i]]> components in
      GetComponents_loop fuel k' (i + 1) uf components
  end.

Definition GetComponents (fuel : nat) (uf : UnionFind)
  : outcome (gmap Z (list Z) * UnionFind) :=
  GetComponents_loop fuel (length (parent uf)) 0 uf ∅.

(** ** Graph clients *)

Record Edge : Type := mkEdge {
  From : Z;
  To : Z;
  Weight : Z
}.

(** The body of [for _, edge := range edges] in [DetectCycle]. *)
Fixpoint DetectCycle_loop (fuel : nat) (uf : UnionFind) (edges : list Edge)
  : outcome bool :=
  match edges with
  | [] => Ok false
  | edge :: rest =>
      '(c, uf) ← Connected fuel uf (From edge) (To edge);
      if c : bool then Ok true
      else
        '(_, uf) ← Union fuel uf (From edge) (To edge);
        DetectCycle_loop fuel uf rest
  end.

Definition DetectCycle (fuel : nat) (n : Z) (edges : list Edge) : outcome bool :=
  uf ← NewUnionFind n;
  DetectCycle_loop fuel uf edges.

(** The comparison closure handed to [sort.Slice] by [KruskalMST]. *)
Definition less_weight (a b : Edge) : bool := bool_decide (Weight a < Weight b).

(** The body of [for _, edge := range edges] in [KruskalMST], with its
    [break]. *)
Fixpoint KruskalMST_loop (fuel : nat) (n : Z) (uf : UnionFind)
    (edges mst : list Edge) (totalWeight : Z) : outcome (list Edge * Z) :=
  match edges with
  | [] => Ok (mst, totalWeight)
  | edge :: rest =>
      '(merged, uf) ← Union fuel uf (From edge) (To edge);
      if merged : bool then
        let mst := mst ++ [edge] in
        let totalWeight := wrap64 (totalWeight + Weight edge) in
        if decide (Z.of_nat (length mst) = wrap64 (n - 1)) then Ok (mst, totalWeight)
        else KruskalMST_loop fuel n uf rest mst totalWeight
      else KruskalMST_loop fuel n uf rest mst totalWeight
  end.

(** [sort.Slice] belongs to Go's library, so [KruskalMST] takes it as a
    parameter.  It rearranges the caller's slice in place: the first component
    of the result is what the caller's [edges] holds once the call is over, the
    second is what the call returns. *)
Definition KruskalMST (sort_Slice : list Edge → (Edge → Edge → bool) → list Edge)
    (fuel : nat) (n : Z) (edges : list Edge)
  : list Edge * outcome (list Edge * Z) :=
  let edges := sort_Slice edges less_weight in
  (edges,
   uf ← NewUnionFind n;
   KruskalMST_loop fuel n uf edges [] 0).

(** ** Calls, traces and reachable states *)

Inductive call : Type :=
| CallFind (x : Z)
| CallUnion (x y : Z)
| CallConnected (x y : Z).

Inductive result : Type :=
| RetInt (r : Z)
| RetBool (b : bool).

Definition exec (fuel : nat) (uf : UnionFind) (c : call) : outcome (result * UnionFind) :=
  match c with
  | CallFind x => '(r, uf) ← Find fuel uf x; Ok (RetInt r, uf)
  | CallUnion x y => '(b, uf) ← Union fuel uf x y; Ok (RetBool b, uf)
  | CallConnected x y => '(b, uf) ← Connected fuel uf x y; Ok (RetBool b, uf)
  end.

Definition valid (n x : Z) : Prop := 0 ≤ x < n.

Definition valid_call (n : Z) (c : call) : Prop :=
  match c with
  | CallFind x => valid n x
  | CallUnion x y | CallConnected x y => valid n x ∧ valid n y
  end.

(** [trace n t uf]: starting from [NewUnionFind(n)], the calls of [t] (oldest
    first, each on valid indices, each with the result it returned) lead to
    the state [uf]. *)
Inductive trace (n : Z) : list (call * result) → UnionFind → Prop :=
| trace_new uf :
    NewUnionFind n = Ok uf → trace n [] uf
| trace_call t uf c fuel r uf' :
    trace n t uf → valid_call n c → exec fuel uf c = Ok (r, uf') →
    trace n (t ++ [(c, r)]) uf'.

Definition reachable (n : Z) (uf : UnionFind) : Prop := ∃ t, trace n t uf.

Definition successful_union (e : call * result) : bool :=
  match e with
  | (CallUnion _ _, RetBool true) => true
  | _ => false
  end.

(** How many [Union] calls of a trace returned true. *)
Definition successful_unions (t : list (call * result)) : Z :=
  Z.of_nat (length (filter (λ e, Is_true (successful_union e)) t)).

(** ** Specification vocabulary *)

(** [reaches l x r]: following the parent pointers of [l] from [x] arrives at
    the self-loop [r]. *)
Inductive reaches (l : list Z) : Z → Z → Prop :=
| reaches_root r :
    lookupZ l r = Some r → reaches l r r
| reaches_step x p r :
    lookupZ l x = Some p → p ≠ x → reaches l p r → reaches l x r.

(** The same, counting the pointers followed. *)
Fixpoint follow (l : list Z) (k : nat) (x : Z) : option Z :=
  match k with
  | O => Some x
  | S k' => p ← lookupZ l x; follow l k' p
  end.

(** Two elements are in one set when they arrive at the same self-loop. *)
Definition conn (l : list Z) (x y : Z) : Prop :=
  ∃ r, reaches l x r ∧ reaches l y r.

Definition same_reps (l l' : list Z) : Prop :=
  length l = length l' ∧ ∀ x r, reaches l x r ↔ reaches l' x r.

(** The self-loops of a parent slice. *)
Definition roots (l : list Z) : gset Z :=
  list_to_set (filter (λ i, lookupZ l i = Some i) (seqZ 0 (Z.of_nat (length l)))).

(** The least equivalence on [0..n-1] that contains the pairs of [ps]. *)
Inductive joined (n : Z) (ps : list (Z * Z)) : Z → Z → Prop :=
| joined_refl x : valid n x → joined n ps x x
| joined_pair x y : (x, y) ∈ ps → joined n ps x y
| joined_sym x y : joined n ps x y → joined n ps y x
| joined_trans x y z : joined n ps x y → joined n ps y z → joined n ps x z.

(** What holds of every reachable state. *)
Record wf (n : Z) (uf : UnionFind) : Prop := mkWf {
  wf_n : 0 ≤ n ≤ max_int;
  wf_parent : Z.of_nat (length (parent uf)) = n;
  wf_rank : Z.of_nat (length (rank uf)) = n;
  wf_total : ∀ x, valid n x → ∃ r, reaches (parent uf) x r;
  wf_count : count uf = Z.of_nat (size (roots (parent uf)))
}.

(** A budgeted computation returns [a] when every large enough budget gives
    [Ok a]. *)
Definition returns {A} (m : nat → outcome A) (a : A) : Prop :=
  ∃ f0, ∀ f, (f0 ≤ f)%nat → m f = Ok a.

Definition panics {A} (m : nat → outcome A) : Prop :=
  ∃ f0, ∀ f, (f0 ≤ f)%nat → m f = Panic.

Definition monotone {A} (m : nat → outcome A) : Prop :=
  ∀ f f' o, m f = o → settled o → (f ≤ f')%nat → m f' = o.

(** Every position of the slice leads to a self-loop. *)
Definition total (l : list Z) : Prop :=
  ∀ x, 0 ≤ x < Z.of_nat (length l) → ∃ r, reaches l x r.

(** The pairs handed to [Union] along a trace, oldest first. *)
Definition union_pair (e : call * result) : option (Z * Z) :=
  match e.1 with
  | CallUnion x y => Some (x, y)
  | _ => None
  end.
Definition union_pairs (t : list (call * result)) : list (Z * Z) :=
  omap union_pair t.

(** [applied n ps uf]: [uf] is what [NewUnionFind(n)] becomes after
    [Union(x, y)] for each pair of [ps], in order. *)
Definition applied (n : Z) (ps : list (Z * Z)) (uf : UnionFind) : Prop :=
  ∃ t, t.*1 = (λ p, CallUnion p.1 p.2) <$> ps ∧ trace n t uf.

Definition valid_pair (n : Z) (p : Z * Z) : Prop := valid n p.1 ∧ valid n p.2.

(** ** Vocabulary for the graph clients *)

Definition edge_pair (e : Edge) : Z * Z := (From e, To e).
Definition valid_edge (n : Z) (e : Edge) : Prop := valid n (From e) ∧ valid n (To e).

(** Some edge of the list has its endpoints already joined by the edges
    before it. *)
Definition closes_cycle (n : Z) (edges : list Edge) : Prop :=
  ∃ before e after, edges = before ++ e :: after ∧
                    joined n (edge_pair <$> before) (From e) (To e).

Definition cyclicEdges : list Edge :=
  [mkEdge 0 1 1; mkEdge 1 2 1; mkEdge 2 0 1].
Definition acyclicEdges : list Edge :=
  [mkEdge 0 1 1; mkEdge 1 2 1; mkEdge 2 3 1].

(** What Go documents of [sort.Slice]: given a [less] that is a transitive
    ordering, the slice ends up a rearrangement of itself in ascending order
    as determined by [less].  Nothing is promised about elements that [less]
    does not distinguish. *)
Definition transitive_ordering {A} (less : A → A → bool) : Prop :=
  (∀ a, less a a = false) ∧
  (∀ a b c, less a b = true → less b c = true → less a c = true) ∧
  (∀ a b c, less a b = false → less b c = false → less a c = false).

Definition ordered {A} (less : A → A → bool) (s : list A) : Prop :=
  StronglySorted (λ a b, less b a = false) s.

Definition sort_contract
    (sort_Slice : list Edge → (Edge → Edge → bool) → list Edge) : Prop :=
  ∀ s less, transitive_ordering less →
            sort_Slice s less ≡ₚ s ∧ ordered less (sort_Slice s less).

(** Ascending by weight. *)
Definition ascending (s : list Edge) : Prop :=
  StronglySorted (λ a b, Weight a ≤ Weight b) s.

Fixpoint ascendingb (s : list Edge) : bool :=
  match s with
  | a :: s' =>
      match s' with
      | b :: _ => bool_decide (Weight a ≤ Weight b) && ascendingb s'
      | [] => true
      end
  | [] => true
  end.

(** Edges of equal weight keep the order they had in the input. *)
Definition stable (edges sorted : list Edge) : Prop :=
  ∀ w, filter (λ e, Weight e = w) sorted = filter (λ e, Weight e = w) edges.

(** One sorting procedure that meets the contract: insertion from the right,
    each element placed behind the ones [less] does not put after it. *)
Fixpoint insert_behind {A} (less : A → A → bool) (x : A) (s : list A) : list A :=
  match s with
  | [] => [x]
  | y :: s' => if less x y then x :: s else y :: insert_behind less x s'
  end.

Definition insertion_sort (s : list Edge) (less : Edge → Edge → bool) : list Edge :=
  foldr (insert_behind less) [] s.

(** All the places where [x] can go into [s]. *)
Fixpoint inserts (x : Edge) (s : list Edge) : list (list Edge) :=
  (x :: s) :: match s with
              | [] => []
              | y :: s' => (y ::.) <$> inserts x s'
              end.

(** All the ascending rearrangements of [s]. *)
Fixpoint arrangements (s : list Edge) : list (list Edge) :=
  match s with
  | [] => [[]]
  | x :: s' => filter (λ l, ascendingb l = true) (arrangements s' ≫= inserts x)
  end.

(** The graph of the demonstration. *)
Definition demoEdges : list Edge :=
  [mkEdge 0 1 4; mkEdge 0 7 8; mkEdge 1 2 8; mkEdge 1 7 11;
   mkEdge 2 3 7; mkEdge 2 8 2; mkEdge 2 5 4; mkEdge 3 4 9;
   mkEdge 3 5 14; mkEdge 4 5 10; mkEdge 5 6 2; mkEdge 6 7 1;
   mkEdge 6 8 6; mkEdge 7 8 7].

(** The loop of [KruskalMST] on 9 vertices yields 8 edges of weight 37. *)
Definition demo_tree (sorted : list Edge) : bool :=
  match uf ← NewUnionFind 9; KruskalMST_loop 9 9 uf sorted [] 0 with
  | Ok (mst, totalWeight) => bool_decide (length mst = 8%nat ∧ totalWeight = 37)
  | _ => false
  end.

(** A sequence of calls run one after the other, with what each returned. *)
Fixpoint run (fuel : nat) (uf : UnionFind) (cs : list call)
  : outcome (list (call * result) * UnionFind) :=
  match cs with
  | [] => Ok ([], uf)
  | c :: cs' =>
      '(r, uf) ← exec fuel uf c;
      '(t, uf) ← run fuel uf cs';
      Ok ((c, r) :: t, uf)
  end.

(** ** Sample inputs *)

(** Three unions on four elements, which leave the chain 3, 2, 0. *)
Definition sample_calls : list (call * result) :=
  [(CallUnion 0 1, RetBool true); (CallUnion 2 3, RetBool true);
   (CallUnion 1 3, RetBool true)].
Definition sample_state : UnionFind :=
  {| parent := [0; 0; 0; 2]; rank := [2; 0; 1; 0]; count := 1 |}.

(** The same after [Find(3)] has compressed the chain. *)
Definition compressed_state : UnionFind :=
  {| parent := [0; 0; 0; 0]; rank := [2; 0; 1; 0]; count := 1 |}.

(** Two pairs on three elements, applied in one order and in the other. *)
Definition left_first_state : UnionFind :=
  {| parent := [0; 0; 0]; rank := [1; 0; 0]; count := 1 |}.
Definition right_first_state : UnionFind :=
  {| parent := [2; 2; 2]; rank := [0; 0; 1]; count := 1 |}.

(** An edge given twice, then an edge apart. *)
Definition doubledEdges : list Edge :=
  [mkEdge 0 1 7; mkEdge 1 0 7; mkEdge 2 3 7].

Definition triangleEdges : list Edge :=
  [mkEdge 0 1 5; mkEdge 1 2 3; mkEdge 0 2 4].

(** ** Vocabulary for what callers observe *)

(** [Find(x)] called in state [uf] returns [r]. *)
Definition finds (uf : UnionFind) (x r : Z) : Prop :=
  ∃ uf', returns (λ f, Find f uf x) (r, uf').

(** [Connected(x, y)] called in state [uf] returns [b]. *)
Definition answers (uf : UnionFind) (x y : Z) (b : bool) : Prop :=
  ∃ uf', returns (λ f, Connected f uf x y) (b, uf').

(** [z] lies on the pointer chain that starts at [x]. *)
Definition on_path (l : list Z) (x z : Z) : Prop := ∃ k, follow l k x = Some z.

(** The equivalence that [ps] generates on [0..n-1] has exactly [k] classes:
    there are [k] representatives, one in each class. *)
Definition classes (n : Z) (ps : list (Z * Z)) (k : Z) : Prop :=
  ∃ reps, NoDup reps ∧ Z.of_nat (length reps) = k ∧ Forall (valid n) reps ∧
          ∀ x, valid n x →
               ∃ r, r ∈ reps ∧ joined n ps x r ∧
                    ∀ r', r' ∈ reps → joined n ps x r' → r' = r.

(** Some pair of the list has its two elements already joined by the pairs
    before it. *)
Definition closes (n : Z) (ps : list (Z * Z)) : Prop :=
  ∃ before p after, ps = before ++ p :: after ∧ joined n before p.1 p.2.


(** The running sum of [totalWeight += edge.Weight] over [es]. *)
Definition total_weight (es : list Edge) : Z :=
  foldl (λ w e, wrap64 (w + Weight e)) 0 es.

(** A triangle with a tail, and the same edges in another order. *)
Definition tailedEdges : list Edge :=
  [mkEdge 0 1 3; mkEdge 1 2 1; mkEdge 2 0 2; mkEdge 2 3 5].
Definition tailedEdges' : list Edge := reverse tailedEdges.

(** Edges that span three vertices, and an edge on indices out of range. *)
Definition spanningEdges : list Edge := [mkEdge 0 1 1; mkEdge 1 2 2].
Definition strayEdges : list Edge := [mkEdge 7 9 5].

(** ** [FriendCircles] *)

(** The inner loop [for j := i + 1; j < n; j++], from [j] with [k] iterations
    left. *)
Fixpoint FriendCircles_row (fuel k : nat) (friends : list (list Z)) (i j : Z)
    (uf : UnionFind) : outcome UnionFind :=
  match k with
  | O => Ok uf
  | S k' =>
      row ← index friends i;
      v ← index row j;
      uf ← (if decide (v = 1) then '(_, uf) ← Union fuel uf i j; Ok uf else Ok uf);
      FriendCircles_row fuel k' friends i (j + 1) uf
  end.

(** The outer loop [for i := 0; i < n; i++], from [i] with [k] iterations
    left. *)
Fixpoint FriendCircles_rows (fuel k : nat) (friends : list (list Z)) (n i : Z)
    (uf : UnionFind) : outcome UnionFind :=
  match k with
  | O => Ok uf
  | S k' =>
      uf ← FriendCircles_row fuel (Z.to_nat (n - (i + 1))) friends i (i + 1) uf;
      FriendCircles_rows fuel k' friends n (i + 1) uf
  end.

Definition FriendCircles (fuel : nat) (friends : list (list Z)) : outcome Z :=
  let n := Z.of_nat (length friends) in
  uf ← NewUnionFind n;
  uf ← FriendCircles_rows fuel (length friends) friends n 0 uf;
  Ok (Count uf).

(** [friends[i][j]], where the matrix has it. *)
Definition entry (friends : list (list Z)) (i j : Z) : option Z :=
  row ← lookupZ friends i; lookupZ row j.

(** The pairs [(i, j)] with [j] among the [k] columns from [j0] and
    [friends[i][j] == 1]. *)
Definition row_pairs (friends : list (list Z)) (i j0 : Z) (k : nat) : list (Z * Z) :=
  j ← seqZ j0 (Z.of_nat k); if decide (entry friends i j = Some 1) then [(i, j)] else [].

(** The same over the [k] rows from [i0], each from the column after the
    diagonal to column [n - 1]. *)
Definition rows_pairs (friends : list (list Z)) (n i0 : Z) (k : nat) : list (Z * Z) :=
  i ← seqZ i0 (Z.of_nat k); row_pairs friends i (i + 1) (Z.to_nat (n - (i + 1))).

(** The friendships that [FriendCircles] reads: above the diagonal. *)
Definition friend_pairs (friends : list (list Z)) : list (Z * Z) :=
  rows_pairs friends (Z.of_nat (length friends)) 0 (length friends).

(** Every entry above the diagonal is there. *)
Definition upper_complete (friends : list (list Z)) : Prop :=
  ∀ i j, 0 ≤ i → i < j → j < Z.of_nat (length friends) → is_Some (entry friends i j).

(** The friendship matrix of the demonstration. *)
Definition demoFriends : list (list Z) := [[1; 1; 0]; [1; 1; 0]; [0; 0; 1]].

(** A matrix whose first row is too short. *)
Definition raggedFriends : list (list Z) := [[1; 1]; [1; 1; 0]; [0; 0; 1]].

(** ** [WeightedUnionFind]: union by size *)

Module Weighted.

Record WeightedUnionFind : Type := mkWUF {
  parent : list Z;
  size : list Z;
  count : Z
}.

Definition with_parent (wuf : WeightedUnionFind) (p : list Z) : WeightedUnionFind :=
  {| parent := p; size := size wuf; count := count wuf |}.
Definition with_size (wuf : WeightedUnionFind) (s : list Z) : WeightedUnionFind :=
  {| parent := parent wuf; size := s; count := count wuf |}.
Definition with_count (wuf : WeightedUnionFind) (c : Z) : WeightedUnionFind :=
  {| parent := parent wuf; size := size wuf; count := c |}.

(** The initialisation loop [for i := 0; i < n; i++], from [i] with [k]
    iterations left. *)
Fixpoint init_loop (k : nat) (i : Z) (parent size : list Z)
  : outcome (list Z * list Z) :=
  match k with
  | O => Ok (parent, size)
  | S k' =>
      parent' ← assign parent i i;
      size' ← assign size i 1;
      init_loop k' (i + 1) parent' size'
  end.

Definition NewWeightedUnionFind (n : Z) : outcome WeightedUnionFind :=
  parent ← make n;
  size ← make n;
  '(parent, size) ← init_loop (Z.to_nat n) 0 parent size;
  Ok {| parent := parent; size := size; count := n |}.

Fixpoint Find (fuel : nat) (wuf : WeightedUnionFind) (x : Z)
  : outcome (Z * WeightedUnionFind) :=
  match fuel with
  | O => OutOfFuel
  | S fuel' =>
      p ← index (parent wuf) x;
      wuf ← (if decide (p ≠ x) then
               p ← index (parent wuf) x;
               '(r, wuf) ← Find fuel' wuf p;
               parent' ← assign (parent wuf) x r;
               Ok (with_parent wuf parent')
             else Ok wuf);
      r ← index (parent wuf) x;
      Ok (r, wuf)
  end.

(** [parent[a] = b] followed by [size[b] += size[a]]. *)
Definition attach (wuf : WeightedUnionFind) (a b : Z) : outcome WeightedUnionFind :=
  parent' ← assign (parent wuf) a b;
  let wuf := with_parent wuf parent' in
  sb ← index (size wuf) b;
  sa ← index (size wuf) a;
  size' ← assign (size wuf) b (wrap64 (sb + sa));
  Ok (with_size wuf size').

Definition Union (fuel : nat) (wuf : WeightedUnionFind) (x y : Z)
  : outcome (bool * WeightedUnionFind) :=
  '(rootX, wuf) ← Find fuel wuf x;
  '(rootY, wuf) ← Find fuel wuf y;
  if decide (rootX = rootY) then Ok (false, wuf)
  else
    sx ← index (size wuf) rootX;
    sy ← index (size wuf) rootY;
    wuf ← (if decide (sx < sy) then attach wuf rootX rootY
           else attach wuf rootY rootX);
    Ok (true, with_count wuf (wrap64 (count wuf - 1))).

Definition Connected (fuel : nat) (wuf : WeightedUnionFind) (x y : Z)
  : outcome (bool * WeightedUnionFind) :=
  '(rootX, wuf) ← Find fuel wuf x;
  '(rootY, wuf) ← Find fuel wuf y;
  Ok (bool_decide (rootX = rootY), wuf).

Definition GetSize (fuel : nat) (wuf : WeightedUnionFind) (x : Z)
  : outcome (Z * WeightedUnionFind) :=
  '(root, wuf) ← Find fuel wuf x;
  s ← index (size wuf) root;
  Ok (s, wuf).

(** The calls of a caller, as for the structure with ranks. *)
Definition exec (fuel : nat) (wuf : WeightedUnionFind) (c : call)
  : outcome (result * WeightedUnionFind) :=
  match c with
  | CallFind x => '(r, wuf) ← Find fuel wuf x; Ok (RetInt r, wuf)
  | CallUnion x y => '(b, wuf) ← Union fuel wuf x y; Ok (RetBool b, wuf)
  | CallConnected x y => '(b, wuf) ← Connected fuel wuf x y; Ok (RetBool b, wuf)
  end.

Inductive trace (n : Z) : list (call * result) → WeightedUnionFind → Prop :=
| trace_new wuf :
    NewWeightedUnionFind n = Ok wuf → trace n [] wuf
| trace_call t wuf c fuel r wuf' :
    trace n t wuf → valid_call n c → exec fuel wuf c = Ok (r, wuf') →
    trace n (t ++ [(c, r)]) wuf'.

(** [Connected(x, y)] called in state [wuf] returns [b]. *)
Definition answers (wuf : WeightedUnionFind) (x y : Z) (b : bool) : Prop :=
  ∃ wuf', returns (λ f, Connected f wuf x y) (b, wuf').

End Weighted.

(** The structure seen as one with ranks, the sizes in the place of the
    ranks. *)
Definition erase (wuf : Weighted.WeightedUnionFind) : UnionFind :=
  {| parent := Weighted.parent wuf; rank := Weighted.size wuf;
     count := Weighted.count wuf |}.
Definition lift (uf : UnionFind) : Weighted.WeightedUnionFind :=
  {| Weighted.parent := parent uf; Weighted.size := rank uf;
     Weighted.count := count uf |}.

(** Every root records how many elements lead to it. *)
Definition sizes_ok (l s : list Z) : Prop :=
  ∀ r, lookupZ l r = Some r →
       ∃ members, NoDup members ∧ (∀ x, x ∈ members ↔ reaches l x r) ∧
                  lookupZ s r = Some (Z.of_nat (length members)).

(** What holds of every reachable state of the structure with sizes. *)
Definition weighted_wf (n : Z) (wuf : Weighted.WeightedUnionFind) : Prop :=
  wf n (erase wuf) ∧ sizes_ok (Weighted.parent wuf) (Weighted.size wuf).

(** Four unions on six elements by size. *)
Definition weighted_calls : list (call * result) :=
  [(CallUnion 0 1, RetBool true); (CallUnion 2 3, RetBool true);
   (CallUnion 4 2, RetBool true); (CallUnion 1 3, RetBool true)].
Definition weighted_state : Weighted.WeightedUnionFind :=
  {| Weighted.parent := [2; 0; 2; 2; 2; 5]; Weighted.size := [2; 1; 5; 1; 1; 1];
     Weighted.count := 2 |}.

Definition weighted_state' : Weighted.WeightedUnionFind :=
  {| Weighted.parent := [2; 0; 2; 2; 2; 2]; Weighted.size := [2; 1; 6; 1; 1; 1];
     Weighted.count := 1 |}.

(** ** [NumberOfIslands] *)

(** The byte ['1']. *)
Definition land_byte : Z := 49.

(** [grid[i][j] == '1'] as an expression. *)
Definition cell_is_land (grid : list (list Z)) (i j : Z) : outcome bool :=
  row ← index grid i;
  c ← index row j;
  Ok (bool_decide (c = land_byte)).

(** The counting loops: the inner one from column [j], the outer one from
    row [i], each with [k] iterations left. *)
Fixpoint NumberOfIslands_count_row (k : nat) (grid : list (list Z)) (i j islands : Z)
  : outcome Z :=
  match k with
  | O => Ok islands
  | S k' =>
      b ← cell_is_land grid i j;
      let islands := if b : bool then wrap64 (islands + 1) else islands in
      NumberOfIslands_count_row k' grid i (j + 1) islands
  end.

Fixpoint NumberOfIslands_count (k : nat) (grid : list (list Z)) (cols i islands : Z)
  : outcome Z :=
  match k with
  | O => Ok islands
  | S k' =>
      islands ← NumberOfIslands_count_row (Z.to_nat cols) grid i 0 islands;
      NumberOfIslands_count k' grid cols (i + 1) islands
  end.

Definition directions : list (list Z) := [[-1; 0]; [1; 0]; [0; -1]; [0; 1]].

(** [for _, dir := range directions] at the cell [(i, j)]. *)
Fixpoint NumberOfIslands_dirs (fuel : nat) (dirs : list (list Z))
    (grid : list (list Z)) (rows cols i j : Z) (uf : UnionFind) (islands : Z)
  : outcome (UnionFind * Z) :=
  match dirs with
  | [] => Ok (uf, islands)
  | dir :: rest =>
      d0 ← index dir 0;
      d1 ← index dir 1;
      let ni := wrap64 (i + d0) in
      let nj := wrap64 (j + d1) in
      '(uf, islands) ←
        (if decide (0 ≤ ni ∧ ni < rows ∧ 0 ≤ nj ∧ nj < cols) then
           b ← cell_is_land grid ni nj;
           if b : bool then
             let id1 := wrap64 (wrap64 (i * cols) + j) in
             let id2 := wrap64 (wrap64 (ni * cols) + nj) in
             '(merged, uf) ← Union fuel uf id1 id2;
             Ok (uf, if merged : bool then wrap64 (islands - 1) else islands)
           else Ok (uf, islands)
         else Ok (uf, islands));
      NumberOfIslands_dirs fuel rest grid rows cols i j uf islands
  end.

(** The merging loops: the inner one from column [j], the outer one from row
    [i], each with [k] iterations left. *)
Fixpoint NumberOfIslands_merge_row (fuel k : nat) (grid : list (list Z))
    (rows cols i j : Z) (uf : UnionFind) (islands : Z) : outcome (UnionFind * Z) :=
  match k with
  | O => Ok (uf, islands)
  | S k' =>
      b ← cell_is_land grid i j;
      '(uf, islands) ←
        (if b : bool then NumberOfIslands_dirs fuel directions grid rows cols i j uf islands
         else Ok (uf, islands));
      NumberOfIslands_merge_row fuel k' grid rows cols i (j + 1) uf islands
  end.

Fixpoint NumberOfIslands_merge (fuel k : nat) (grid : list (list Z))
    (rows cols i : Z) (uf : UnionFind) (islands : Z) : outcome (UnionFind * Z) :=
  match k with
  | O => Ok (uf, islands)
  | S k' =>
      '(uf, islands) ←
        NumberOfIslands_merge_row fuel (Z.to_nat cols) grid rows cols i 0 uf islands;
      NumberOfIslands_merge fuel k' grid rows cols (i + 1) uf islands
  end.

Definition NumberOfIslands (fuel : nat) (grid : list (list Z)) : outcome Z :=
  if decide (Z.of_nat (length grid) = 0) then Ok 0
  else
    row0 ← index grid 0;
    if decide (Z.of_nat (length row0) = 0) then Ok 0
    else
      let rows := Z.of_nat (length grid) in
      let cols := Z.of_nat (length row0) in
      uf ← NewUnionFind (wrap64 (rows * cols));
      islands ← NumberOfIslands_count (length grid) grid cols 0 0;
      '(_, islands) ← NumberOfIslands_merge fuel (length grid) grid rows cols 0 uf islands;
      Ok islands.

(** *** What an island is *)

Definition in_grid (rows cols : Z) (c : Z * Z) : Prop :=
  0 ≤ c.1 < rows ∧ 0 ≤ c.2 < cols.

Definition is_land (grid : list (list Z)) (c : Z * Z) : Prop :=
  entry grid c.1 c.2 = Some land_byte.

#[global] Instance in_grid_dec rows cols c : Decision (in_grid rows cols c) :=
  ltac:(unfold in_grid; apply _).

#[global] Instance is_land_dec grid c : Decision (is_land grid c) :=
  ltac:(unfold is_land; apply _).

(** Neighbours up, down, left or right. *)
Definition adjacent (c d : Z * Z) : Prop :=
  (d.1 = c.1 - 1 ∧ d.2 = c.2) ∨ (d.1 = c.1 + 1 ∧ d.2 = c.2) ∨
  (d.1 = c.1 ∧ d.2 = c.2 - 1) ∨ (d.1 = c.1 ∧ d.2 = c.2 + 1).

(** Two land cells of the grid are on one island. *)
Inductive linked (grid : list (list Z)) (rows cols : Z) : Z * Z → Z * Z → Prop :=
| linked_refl c :
    in_grid rows cols c → is_land grid c → linked grid rows cols c c
| linked_step c d :
    in_grid rows cols c → in_grid rows cols d → is_land grid c → is_land grid d →
    adjacent c d → linked grid rows cols c d
| linked_sym c d :
    linked grid rows cols c d → linked grid rows cols d c
| linked_trans c d e :
    linked grid rows cols c d → linked grid rows cols d e → linked grid rows cols c e.

(** The grid has exactly [k] islands: there are [k] land cells, one on each
    island. *)
Definition islands (grid : list (list Z)) (rows cols k : Z) : Prop :=
  ∃ reps, NoDup reps ∧ Z.of_nat (length reps) = k ∧
          Forall (λ c, in_grid rows cols c ∧ is_land grid c) reps ∧
          ∀ c, in_grid rows cols c → is_land grid c →
               ∃ r, r ∈ reps ∧ linked grid rows cols c r ∧
                    ∀ r', r' ∈ reps → linked grid rows cols c r' → r' = r.

(** Every cell of the [rows] by [cols] rectangle is there. *)
Definition grid_complete (grid : list (list Z)) (rows cols : Z) : Prop :=
  ∀ c, in_grid rows cols c → is_Some (entry grid c.1 c.2).

(** The index [i*cols + j] of a cell, and the cells in the order of the
    loops. *)
Definition cell_id (cols : Z) (c : Z * Z) : Z := c.1 * cols + c.2.

Definition row_cells (i j0 : Z) (k : nat) : list (Z * Z) :=
  (λ j, (i, j)) <$> seqZ j0 (Z.of_nat k).

Definition grid_cells (cols i0 : Z) (k : nat) : list (Z * Z) :=
  i ← seqZ i0 (Z.of_nat k); row_cells i 0 (Z.to_nat cols).

(** The pairs that the loops hand to [Union]. *)
Definition dirs_pairs (grid : list (list Z)) (rows cols : Z) (c : Z * Z)
    (dirs : list (list Z)) : list (Z * Z) :=
  dir ← dirs;
  match dir with
  | [d0; d1] =>
      let d := (c.1 + d0, c.2 + d1) in
      if decide (in_grid rows cols d ∧ is_land grid d)
      then [(cell_id cols c, cell_id cols d)] else []
  | _ => []
  end.

Definition cells_pairs (grid : list (list Z)) (rows cols : Z) (cells : list (Z * Z))
  : list (Z * Z) :=
  c ← cells;
  if decide (is_land grid c) then dirs_pairs grid rows cols c directions else [].

(** The grid of the demonstration. *)
Definition demoGrid : list (list Z) :=
  [[49; 49; 48; 48; 48]; [49; 49; 48; 48; 48]; [48; 48; 49; 48; 48]; [48; 48; 48; 49; 49]].

(** What the merging loops keep: the structure is well formed, it joins what
    the pairs [ps] handed to [Union] so far join, and [islands] has gone down
    with [count]. *)
Definition islands_inv (n lands : Z) (ps : list (Z * Z)) (st : UnionFind * Z) : Prop :=
  wf n st.1 ∧
  (∀ u v, conn (parent st.1) u v ↔ joined n ps u v) ∧
  st.2 - count st.1 = lands - n ∧
  st.2 ≤ lands.

(** [len(grid)] and [len(grid[0])], the latter read as 0 when there is no
    first row. *)
Definition grid_rows (grid : list (list Z)) : Z := Z.of_nat (length grid).
Definition grid_cols (grid : list (list Z)) : Z :=
  Z.of_nat (length (default [] (head grid))).

(** A grid whose second row is too short. *)
Definition raggedGrid : list (list Z) := [[49; 49]; [49]].

(** ** [AccountsMerge] *)

(** The two maps and the counter [index] of the first loop. *)
Record numbering : Type := mkNumbering {
  emailToIndex : gmap string Z;
  emailToName : gmap string string;
  nextIndex : Z
}.

(** [for i := ...; i < len(account); i++] of the first loop, with [k]
    iterations left. *)
Fixpoint AccountsMerge_assign (k : nat) (account : list string) (name : string)
    (i : Z) (st : numbering) : outcome numbering :=
  match k with
  | O => Ok st
  | S k' =>
      email ← index account i;
      let st :=
        if decide (is_Some (emailToIndex st !! email)) then st
        else {| emailToIndex := <[email := nextIndex st]> (emailToIndex st);
                emailToName := <[email := name]> (emailToName st);
                nextIndex := wrap64 (nextIndex st + 1) |} in
      AccountsMerge_assign k' account name (i + 1) st
  end.

Fixpoint AccountsMerge_number (accounts : list (list string)) (st : numbering)
  : outcome numbering :=
  match accounts with
  | [] => Ok st
  | account :: rest =>
      name ← index account 0;
      st ← AccountsMerge_assign (length account - 1) account name 1 st;
      AccountsMerge_number rest st
  end.

(** Reading a map of integers: the value, or 0 for a key that is not there. *)
Definition index_of (m : gmap string Z) (email : string) : Z := default 0 (m !! email).

(** [for i := 2; i < len(account); i++] of the second loop, with [k]
    iterations left. *)
Fixpoint AccountsMerge_unions (fuel k : nat) (account : list string)
    (m : gmap string Z) (firstEmailIndex i : Z) (uf : UnionFind) : outcome UnionFind :=
  match k with
  | O => Ok uf
  | S k' =>
      email ← index account i;
      '(_, uf) ← Union fuel uf firstEmailIndex (index_of m email);
      AccountsMerge_unions fuel k' account m firstEmailIndex (i + 1) uf
  end.

Fixpoint AccountsMerge_link (fuel : nat) (accounts : list (list string))
    (m : gmap string Z) (uf : UnionFind) : outcome UnionFind :=
  match accounts with
  | [] => Ok uf
  | account :: rest =>
      uf ← (if decide (1 < Z.of_nat (length account)) then
              first ← index account 1;
              let firstEmailIndex := index_of m first in
              AccountsMerge_unions fuel (length account - 2) account m firstEmailIndex 2 uf
            else Ok uf);
      AccountsMerge_link fuel rest m uf
  end.

(** [for email, idx := range emailToIndex], over the entries in the order in
    which the map hands them out. *)
Fixpoint AccountsMerge_group (fuel : nat) (entries : list (string * Z))
    (uf : UnionFind) (indexToEmails : gmap Z (list string))
  : outcome (UnionFind * gmap Z (list string)) :=
  match entries with
  | [] => Ok (uf, indexToEmails)
  | (email, idx) :: rest =>
      '(root, uf) ← Find fuel uf idx;
      let indexToEmails :=
        <[root := default [] (indexToEmails !! root) ++ [email]]> indexToEmails in
      AccountsMerge_group fuel rest uf indexToEmails
  end.

(** [for _, emails := range indexToEmails], likewise. *)
Fixpoint AccountsMerge_build (sort_Strings : list string → list string)
    (groups : list (Z * list string)) (names : gmap string string)
    (result : list (list string)) : outcome (list (list string)) :=
  match groups with
  | [] => Ok result
  | (_, emails) :: rest =>
      let emails := sort_Strings emails in
      first ← index emails 0;
      let name := default EmptyString (names !! first) in
      let account := [name] ++ emails in
      AccountsMerge_build sort_Strings rest names (result ++ [account])
  end.

(** [sort.Strings] and the order of the two [range]s over maps are left to
    the caller of the model. *)
Definition AccountsMerge (sort_Strings : list string → list string)
    (range_emailToIndex : gmap string Z → list (string * Z))
    (range_indexToEmails : gmap Z (list string) → list (Z * list string))
    (fuel : nat) (accounts : list (list string)) : outcome (list (list string)) :=
  st ← AccountsMerge_number accounts
         {| emailToIndex := ∅; emailToName := ∅; nextIndex := 0 |};
  uf ← NewUnionFind (nextIndex st);
  uf ← AccountsMerge_link fuel accounts (emailToIndex st) uf;
  '(uf, indexToEmails) ←
    AccountsMerge_group fuel (range_emailToIndex (emailToIndex st)) uf ∅;
  AccountsMerge_build sort_Strings (range_indexToEmails indexToEmails)
    (emailToName st) [].

(** What [sort.Strings] promises: the same strings, ascending. *)
Definition sort_Strings_contract (sort_Strings : list string → list string) : Prop :=
  ∀ l, sort_Strings l ≡ₚ l ∧ Sorted String.le (sort_Strings l).

(** What a [range] over a map promises: every entry once, in some order. *)
Definition range_contract {K} `{Countable K} {V} (range : gmap K V → list (K * V)) : Prop :=
  ∀ m, range m ≡ₚ map_to_list m.

(** *** What merging accounts means *)

(** The e-mail addresses of an account: everything after the name. *)
Definition emails_of (account : list string) : list string := tail account.

Definition listed (accounts : list (list string)) (e : string) : Prop :=
  ∃ account, account ∈ accounts ∧ e ∈ emails_of account.

(** Two addresses belong to one person: the least equivalence on the listed
    addresses that contains the pairs sharing an account. *)
Inductive same_person (accounts : list (list string)) : string → string → Prop :=
| same_person_refl e : listed accounts e → same_person accounts e e
| same_person_shared account e e' :
    account ∈ accounts → e ∈ emails_of account → e' ∈ emails_of account →
    same_person accounts e e'
| same_person_sym e e' : same_person accounts e e' → same_person accounts e' e
| same_person_trans e e' e'' :
    same_person accounts e e' → same_person accounts e' e'' →
    same_person accounts e e''.

(** The name of the first account that lists [e]. *)
Fixpoint owner (accounts : list (list string)) (e : string) : option string :=
  match accounts with
  | [] => None
  | account :: rest =>
      if decide (e ∈ emails_of account) then head account else owner rest e
  end.

(** [result] is the merge of [accounts]: every account of the result is a
    name followed by at least one address, the addresses ascending without
    repetition, the name that of the first account listing the smallest of
    them; every listed address is in the result, and nothing else; and two
    addresses are in the same account of the result exactly when they belong
    to one person. *)
Definition merged (accounts result : list (list string)) : Prop :=
  Forall (λ account, ∃ name first rest,
            account = name :: first :: rest ∧
            Sorted String.le (first :: rest) ∧ NoDup (first :: rest) ∧
            owner accounts first = Some name) result ∧
  (∀ e, listed accounts e ↔ ∃ account, account ∈ result ∧ e ∈ emails_of account) ∧
  ∀ i j account account' e e',
    result !! i = Some account → result !! j = Some account' →
    e ∈ emails_of account → e' ∈ emails_of account' →
    (same_person accounts e e' ↔ i = j).

(** The pairs that the second loop hands to [Union]. *)
Definition link_pairs (m : gmap string Z) (accounts : list (list string))
  : list (Z * Z) :=
  account ← accounts;
  match emails_of account with
  | [] => []
  | first :: more => (λ e, (index_of m first, index_of m e)) <$> more
  end.

(** The accounts of the demonstration, and a list with an empty account. *)
Definition demoAccounts : list (list string) :=
  [["John"; "johnsmith@mail.com"; "john_newyork@mail.com"];
   ["John"; "johnsmith@mail.com"; "john00@mail.com"];
   ["Mary"; "mary@mail.com"];
   ["John"; "johnnybravo@mail.com"]]%string.

Definition emptyAccounts : list (list string) :=
  [["Mary"; "mary@mail.com"]; []]%string.

(** The first loop numbers the addresses in the order of their first
    occurrence: [es] lists them in that order. *)
Definition numbered (es : list string) (st : numbering) : Prop :=
  NoDup es ∧
  nextIndex st = Z.of_nat (length es) ∧
  (∀ e i, emailToIndex st !! e = Some i ↔ lookupZ es i = Some e) ∧
  (∀ e, is_Some (emailToName st !! e) ↔ e ∈ es).

(** The third loop has gone through the entries [P]: the map holds, under
    each root, the addresses whose index leads to that root in [l0]. *)
Definition grouped (l0 : list Z) (P : list (string * Z)) (g : gmap Z (list string)) : Prop :=
  (∀ r l, g !! r = Some l →
          l ≠ [] ∧ NoDup l ∧ ∀ e, e ∈ l → ∃ i, (e, i) ∈ P ∧ reaches l0 i r) ∧
  (∀ e i r, (e, i) ∈ P → reaches l0 i r → ∃ l, g !! r = Some l ∧ e ∈ l).

(** The account that the last loop makes of a group of addresses. *)
Definition merged_account (sort_Strings : list string → list string)
    (names : gmap string string) (emails : list string) : list string :=
  let emails := sort_Strings emails in
  default EmptyString (names !! default EmptyString (head emails)) :: emails.

(** A second sorting procedure within the contract: the same insertion,
    started from the other end of the slice. *)
Definition insertion_sort_backwards (s : list Edge) (less : Edge → Edge → bool)
  : list Edge :=
  insertion_sort (reverse s) less.

(** ** Slices *)

Section slices.
Context {A : Type}.
Implicit Types (s : list A) (i j : Z).

Lemma lookupZ_Some_range s i a :
  lookupZ s i = Some a → 0 ≤ i < Z.of_nat (length s).
Proof.
  unfold lookupZ. case_decide; [|done].
  intros Hl%lookup_lt_Some. lia.
Qed.

Lemma lookupZ_in_range s i :
  0 ≤ i < Z.of_nat (length s) → is_Some (lookupZ s i).
Proof.
  intros Hi. unfold lookupZ. rewrite decide_True by lia.
  apply lookup_lt_is_Some. lia.
Qed.

Lemma lookupZ_None s i :
  ¬ (0 ≤ i < Z.of_nat (length s)) → lookupZ s i = None.
Proof.
  intros Hi. destruct (lookupZ s i) eqn:E; [|done].
  apply lookupZ_Some_range in E. lia.
Qed.

Lemma lookupZ_insert_eq s i a :
  0 ≤ i < Z.of_nat (length s) → lookupZ (<[Z.to_nat i := a]> s) i = Some a.
Proof.
  intros Hi. unfold lookupZ. rewrite decide_True by lia.
  apply list_lookup_insert_eq. lia.
Qed.

Lemma lookupZ_insert_ne s i j a :
  0 ≤ i → i ≠ j → lookupZ (<[Z.to_nat i := a]> s) j = lookupZ s j.
Proof.
  intros Hi Hne. unfold lookupZ. case_decide; [|done].
  apply list_lookup_insert_ne. lia.
Qed.

Lemma index_Ok s i a : index s i = Ok a ↔ lookupZ s i = Some a.
Proof. unfold index. destruct (lookupZ s i); naive_solver. Qed.

Lemma index_Some s i a : lookupZ s i = Some a → index s i = Ok a.
Proof. apply index_Ok. Qed.

Lemma index_Panic s i : index s i = Panic ↔ ¬ (0 ≤ i < Z.of_nat (length s)).
Proof.
  unfold index. split.
  - destruct (lookupZ s i) eqn:E; [done|]. intros _ Hi.
    destruct (lookupZ_in_range s i Hi) as [a Ha]. congruence.
  - intros Hi. by rewrite lookupZ_None.
Qed.

Lemma assign_Ok s i a :
  0 ≤ i < Z.of_nat (length s) → assign s i a = Ok (<[Z.to_nat i := a]> s).
Proof. intros Hi. unfold assign. by rewrite decide_True. Qed.

Lemma assign_Panic s i a :
  ¬ (0 ≤ i < Z.of_nat (length s)) → assign s i a = Panic.
Proof. intros Hi. unfold assign. by rewrite decide_False. Qed.
End slices.

(** ** Budgets *)

Section budgets.
Context {A B : Type}.

Lemma monotone_const (o : outcome A) : monotone (λ _, o).
Proof. by intros f f' o' <- _ _. Qed.

Lemma monotone_bind (m : nat → outcome A) (k : A → nat → outcome B) :
  monotone m → (∀ a, monotone (k a)) →
  monotone (λ f, m f ≫= λ a, k a f).
Proof.
  intros Hm Hk f f' o Ho Hs Hle. simpl in *.
  destruct (m f) as [a| |] eqn:E.
  - rewrite (Hm f f' (Ok a)); [|done..]. simpl in *. by apply (Hk a f f').
  - rewrite (Hm f f' Panic); done.
  - simpl in Ho. by subst o.
Qed.

Lemma returns_of_monotone (m : nat → outcome A) f a :
  monotone m → m f = Ok a → returns m a.
Proof. intros Hm Hf. exists f. intros f' Hle. by apply (Hm f f'). Qed.

Lemma returns_inj (m : nat → outcome A) a a' :
  returns m a → returns m a' → a = a'.
Proof.
  intros [f0 H0] [f1 H1].
  specialize (H0 (f0 `max` f1)%nat). specialize (H1 (f0 `max` f1)%nat).
  rewrite H0 in H1 by lia. injection H1; [done|lia].
Qed.

Lemma returns_not_panics (m : nat → outcome A) a :
  returns m a → ¬ panics m.
Proof.
  intros [f0 H0] [f1 H1].
  specialize (H0 (f0 `max` f1)%nat). specialize (H1 (f0 `max` f1)%nat).
  rewrite H0 in H1 by lia. discriminate H1. lia.
Qed.

Lemma returns_bind (m : nat → outcome A) (k : A → nat → outcome B) a b :
  returns m a → returns (k a) b → returns (λ f, m f ≫= λ a, k a f) b.
Proof.
  intros [f0 H0] [f1 H1]. exists (f0 `max` f1)%nat. intros f Hf.
  rewrite H0 by lia. simpl. apply H1. lia.
Qed.
End budgets.

(** ** Parent pointers *)

Section pointers.
Implicit Types (l : list Z) (x y r : Z).

Lemma reaches_end l x r : reaches l x r → lookupZ l r = Some r.
Proof. induction 1; auto. Qed.

Lemma reaches_range l x r : reaches l x r → 0 ≤ x < Z.of_nat (length l).
Proof. destruct 1; eauto using lookupZ_Some_range. Qed.

Lemma reaches_det l x r r' : reaches l x r → reaches l x r' → r = r'.
Proof.
  intros H. revert r'. induction H as [r Hr|x p r Hx Hne _ IH]; intros r' H'.
  - destruct H' as [|x p r' Hx Hne _]; [done|congruence].
  - destruct H' as [r' Hr|x' p' r' Hx' _ H']; [congruence|].
    apply IH. congruence.
Qed.

Lemma reaches_self l x : reaches l x x ↔ lookupZ l x = Some x.
Proof.
  split; [|by constructor].
  intros H. by apply reaches_end in H.
Qed.

Lemma reaches_from_root l x r : lookupZ l x = Some x → reaches l x r → r = x.
Proof. intros Hx H. eapply reaches_det; [done|]. by constructor. Qed.

Lemma reaches_follow l x r :
  reaches l x r ↔ ∃ k, follow l k x = Some r ∧ lookupZ l r = Some r ∧
                       ∀ j y, (j < k)%nat → follow l j x = Some y → lookupZ l y ≠ Some y.
Proof.
  split.
  - induction 1 as [r Hr|x p r Hx Hne _ (k & Hk & Hr & Hlt)].
    + exists O. repeat split; [done|]. intros; lia.
    + exists (S k). simpl. rewrite Hx. simpl. repeat split; [done..|].
      intros [|j] y Hj; simpl.
      * intros [= <-]. congruence.
      * rewrite Hx. simpl. apply Hlt. lia.
  - intros (k & Hk & Hr & Hlt). revert x Hk Hlt.
    induction k as [|k IH]; simpl; intros x Hk Hlt.
    + injection Hk as ->. by constructor.
    + destruct (lookupZ l x) as [p|] eqn:Hx; [simpl in Hk|done].
      apply reaches_step with p; [done| |].
      * intros ->. by apply (Hlt O x); [lia|..].
      * apply IH; [done|]. intros j y Hj Hy.
        apply (Hlt (S j) y); [lia|]. simpl. by rewrite Hx.
Qed.

(** Path compression: pointing a node at its own root changes no
    representative. *)
Lemma relink_same_reps l x r :
  reaches l x r → r ≠ x → same_reps l (<[Z.to_nat x := r]> l).
Proof.
  intros Hx Hne. pose proof (reaches_range _ _ _ Hx) as Hrange.
  pose proof (reaches_end _ _ _ Hx) as Hr.
  split; [by rewrite length_insert|]. intros y r'. split.
  - induction 1 as [y Hy|y p r' Hy Hp Hpr IH].
    + constructor. rewrite lookupZ_insert_ne; [done|lia|].
      intros <-. apply Hne. by eapply reaches_from_root.
    + destruct (decide (y = x)) as [->|Hyx].
      * assert (r' = r) as ->.
        { eapply reaches_det; [|exact Hx]. by eapply reaches_step. }
        eapply reaches_step; [by apply lookupZ_insert_eq|done|].
        constructor. rewrite lookupZ_insert_ne; [done|lia|done].
      * eapply reaches_step; [|done|done].
        rewrite lookupZ_insert_ne; [done|lia|done].
  - induction 1 as [y Hy|y p r' Hy Hp Hpr IH].
    + destruct (decide (y = x)) as [->|Hyx].
      * rewrite lookupZ_insert_eq in Hy by done. congruence.
      * rewrite lookupZ_insert_ne in Hy; [|lia|done]. by constructor.
    + destruct (decide (y = x)) as [->|Hyx].
      * rewrite lookupZ_insert_eq in Hy by done. injection Hy as <-.
        by rewrite (reaches_from_root _ _ _ Hr IH).
      * rewrite lookupZ_insert_ne in Hy; [|lia|done].
        by eapply reaches_step.
Qed.

(** Linking: hanging the self-loop [a] under another self-loop [b] sends
    the elements of [a]'s set to [b] and leaves the others where they were. *)
Lemma attach_reaches l a b y r :
  lookupZ l a = Some a → lookupZ l b = Some b → a ≠ b →
  reaches l y r →
  reaches (<[Z.to_nat a := b]> l) y (if decide (r = a) then b else r).
Proof.
  intros Ha Hb Hab. pose proof (lookupZ_Some_range _ _ _ Ha) as Hrange.
  assert (reaches (<[Z.to_nat a := b]> l) b b) as Hbb.
  { constructor. rewrite lookupZ_insert_ne; [done|lia|done]. }
  induction 1 as [r Hr|y p r Hy Hp _ IH].
  - case_decide as Hra.
    + subst r. eapply reaches_step; [by apply lookupZ_insert_eq|done|done].
    + constructor. rewrite lookupZ_insert_ne; [done|lia|done].
  - eapply reaches_step; [|done|exact IH].
    rewrite lookupZ_insert_ne; [done|lia|congruence].
Qed.

Lemma same_reps_refl l : same_reps l l.
Proof. by split. Qed.

Lemma same_reps_trans l1 l2 l3 :
  same_reps l1 l2 → same_reps l2 l3 → same_reps l1 l3.
Proof.
  intros [Hl12 H12] [Hl23 H23]. split; [congruence|].
  intros x r. by rewrite H12, H23.
Qed.

Lemma same_reps_conn l l' x y : same_reps l l' → conn l x y ↔ conn l' x y.
Proof. intros [_ H]. unfold conn. by setoid_rewrite H. Qed.

Lemma conn_refl l x r : reaches l x r → conn l x x.
Proof. intros H. by exists r. Qed.

Lemma conn_sym l x y : conn l x y → conn l y x.
Proof. intros (r & Hx & Hy). by exists r. Qed.

Lemma conn_trans l x y z : conn l x y → conn l y z → conn l x z.
Proof.
  intros (r & Hx & Hy) (r' & Hy' & Hz).
  rewrite (reaches_det _ _ _ _ Hy Hy') in Hx. by exists r'.
Qed.

Lemma conn_reaches l x y r : reaches l x r → conn l x y ↔ reaches l y r.
Proof.
  intros Hx. split.
  - intros (r' & Hx' & Hy). by rewrite (reaches_det _ _ _ _ Hx Hx').
  - intros Hy. by exists r.
Qed.
End pointers.

(** ** Self-loops *)

Section self_loops.
Implicit Types (l : list Z) (x a b : Z).

Lemma elem_of_roots l x : x ∈ roots l ↔ lookupZ l x = Some x.
Proof.
  unfold roots. rewrite elem_of_list_to_set, list_elem_of_filter, elem_of_seqZ.
  split; [tauto|]. intros Hx. split; [done|].
  apply lookupZ_Some_range in Hx. lia.
Qed.

Lemma roots_same_reps l l' : same_reps l l' → roots l = roots l'.
Proof.
  intros [_ H]. apply set_eq. intros x.
  by rewrite !elem_of_roots, <- !reaches_self, H.
Qed.

Lemma roots_attach l a b :
  lookupZ l a = Some a → a ≠ b → roots (<[Z.to_nat a := b]> l) = roots l ∖ {[a]}.
Proof.
  intros Ha Hab. pose proof (lookupZ_Some_range _ _ _ Ha) as Hrange.
  apply set_eq. intros x.
  rewrite elem_of_difference, !elem_of_roots, elem_of_singleton.
  destruct (decide (x = a)) as [->|Hxa].
  - rewrite lookupZ_insert_eq by done.
    split; [by intros [= ->]|by intros [_ ?]].
  - rewrite lookupZ_insert_ne by (done || lia). tauto.
Qed.

Lemma size_roots_le l : (size (roots l) ≤ length l)%nat.
Proof.
  unfold roots. rewrite size_list_to_set.
  - etrans; [apply length_filter|]. rewrite length_seqZ. lia.
  - apply NoDup_filter, NoDup_seqZ.
Qed.

Lemma size_roots_remove l a :
  a ∈ roots l → Z.of_nat (size (roots l ∖ {[a]})) = Z.of_nat (size (roots l)) - 1.
Proof.
  intros Ha. rewrite size_difference by set_solver.
  rewrite size_singleton.
  assert (size (roots l) ≠ 0%nat); [|lia].
  intros H0%size_empty_inv. set_solver.
Qed.
End self_loops.

(** ** [Find] *)

Lemma Find_monotone uf x : monotone (λ f, Find f uf x).
Proof.
  intros f. revert x. induction f as [|f IH]; intros x f' o Ho Hs Hle.
  { simpl in Ho. by subst o. }
  destruct f' as [|f']; [lia|]. simpl in *.
  destruct (index (parent uf) x) as [p| |]; simpl in *; [|done..].
  case_decide; [|done].
  destruct (Find f uf p) as [[r uf1]| |] eqn:E.
  - by rewrite (IH p f' (Ok (r, uf1))); [|done..|lia].
  - by rewrite (IH p f' Panic); [|done..|lia].
  - simpl in Ho. by subst o.
Qed.

(** From an element with a representative, [Find] returns that
    representative; the compressed state has the same representatives, ranks
    and count. *)
Lemma Find_spec uf x r :
  reaches (parent uf) x r →
  ∃ uf', returns (λ f, Find f uf x) (r, uf') ∧
         same_reps (parent uf) (parent uf') ∧
         rank uf' = rank uf ∧ count uf' = count uf.
Proof.
  intros H.
  cut (∃ f uf', Find f uf x = Ok (r, uf') ∧ same_reps (parent uf) (parent uf') ∧
                rank uf' = rank uf ∧ count uf' = count uf).
  { intros (f & uf' & Hf & Hpost). exists uf'. split; [|done].
    eapply returns_of_monotone; [apply Find_monotone|done]. }
  induction H as [r Hr|x p r Hx Hne Hp (f & uf1 & Hf & Hsame & Hrank & Hcount)].
  - exists 1%nat, uf. simpl. rewrite (index_Some _ _ _ Hr). simpl.
    rewrite decide_False by (by intros []). simpl.
    rewrite (index_Some _ _ _ Hr). simpl. eauto using same_reps_refl.
  - assert (reaches (parent uf1) x r) as Hx1.
    { apply Hsame. by eapply reaches_step. }
    assert (r ≠ x) as Hrx.
    { intros ->. apply reaches_end in Hp. congruence. }
    pose proof (reaches_range _ _ _ Hx1) as Hrange.
    exists (S f), (with_parent uf1 (<[Z.to_nat x := r]> (parent uf1))). simpl.
    rewrite (index_Some _ _ _ Hx). simpl. rewrite decide_True by done.
    rewrite Hf. simpl. rewrite assign_Ok by done. simpl.
    rewrite (index_Some _ _ r) by (by apply lookupZ_insert_eq). simpl.
    split; [done|]. split; [|done].
    eapply same_reps_trans; [done|]. by apply relink_same_reps.
Qed.

Lemma Find_out_of_range uf x f :
  ¬ (0 ≤ x < Z.of_nat (length (parent uf))) → Find (S f) uf x = Panic.
Proof.
  intros Hx. simpl. apply index_Panic in Hx. by rewrite Hx.
Qed.

(** ** Linking two roots *)

Lemma attach_total l a b :
  lookupZ l a = Some a → lookupZ l b = Some b → a ≠ b →
  total l → total (<[Z.to_nat a := b]> l).
Proof.
  intros Ha Hb Hab Htot x Hx. rewrite length_insert in Hx.
  destruct (Htot x Hx) as [r Hr]. eauto using attach_reaches.
Qed.

Lemma attach_conn l a b u v :
  lookupZ l a = Some a → lookupZ l b = Some b → a ≠ b → total l →
  conn (<[Z.to_nat a := b]> l) u v ↔
  conn l u v ∨ (conn l u a ∧ conn l b v) ∨ (conn l u b ∧ conn l a v).
Proof.
  intros Ha Hb Hab Htot.
  assert (reaches l a a) as Haa by by constructor.
  assert (reaches l b b) as Hbb by by constructor.
  assert (∀ z r, reaches l z r → conn l z r) as Hrep.
  { intros z r Hz. exists r. split; [done|]. constructor. by eapply reaches_end. }
  split.
  - intros (r' & Hu' & Hv').
    pose proof (reaches_range _ _ _ Hu') as Hu. pose proof (reaches_range _ _ _ Hv') as Hv.
    rewrite length_insert in Hu, Hv.
    destruct (Htot u Hu) as [ru Hru]. destruct (Htot v Hv) as [rv Hrv].
    pose proof (attach_reaches l a b u ru Ha Hb Hab Hru) as Hu2.
    pose proof (attach_reaches l a b v rv Ha Hb Hab Hrv) as Hv2.
    pose proof (reaches_det _ _ _ _ Hu' Hu2) as E1.
    pose proof (reaches_det _ _ _ _ Hv' Hv2) as E2.
    destruct (decide (ru = a)) as [->|Hua], (decide (rv = a)) as [->|Hva].
    + left. by exists a.
    + right; left. split; [by apply Hrep|].
      apply conn_sym. replace b with rv by congruence. by apply Hrep.
    + right; right. split; [|by apply conn_sym, Hrep].
      replace b with ru by congruence. by apply Hrep.
    + left. exists ru. split; [done|]. by replace ru with rv by congruence.
  - assert (∀ z, conn l z a → reaches (<[Z.to_nat a := b]> l) z b) as Hza.
    { intros z Hz%conn_sym. apply (conn_reaches _ _ _ _ Haa) in Hz.
      pose proof (attach_reaches l a b z a Ha Hb Hab Hz) as H.
      by rewrite decide_True in H. }
    assert (∀ z, conn l z b → reaches (<[Z.to_nat a := b]> l) z b) as Hzb.
    { intros z Hz%conn_sym. apply (conn_reaches _ _ _ _ Hbb) in Hz.
      pose proof (attach_reaches l a b z b Ha Hb Hab Hz) as H.
      by rewrite decide_False in H. }
    intros [(r & Hu & Hv)|[[Hu Hv]|[Hu Hv]]].
    + eexists. eauto using attach_reaches.
    + exists b. split; [by apply Hza|]. by apply Hzb, conn_sym.
    + exists b. split; [by apply Hzb|]. by apply Hza, conn_sym.
Qed.

Lemma link_spec uf a b :
  0 ≤ a < Z.of_nat (length (rank uf)) → 0 ≤ b < Z.of_nat (length (rank uf)) →
  length (rank uf) = length (parent uf) →
  ∃ uf', link uf a b = Ok uf' ∧ count uf' = count uf ∧
         length (rank uf') = length (rank uf) ∧
         (parent uf' = <[Z.to_nat a := b]> (parent uf) ∨
          parent uf' = <[Z.to_nat b := a]> (parent uf)).
Proof.
  intros Ha Hb Hlen. unfold link.
  destruct (lookupZ_in_range (rank uf) a Ha) as [ra Hra].
  destruct (lookupZ_in_range (rank uf) b Hb) as [rb Hrb].
  rewrite ?(index_Some _ _ _ Hra), ?(index_Some _ _ _ Hrb). simpl.
  case_decide.
  { rewrite assign_Ok by lia. simpl. eexists. split; [done|]. simpl. auto. }
  rewrite ?(index_Some _ _ _ Hra), ?(index_Some _ _ _ Hrb). simpl.
  case_decide.
  { rewrite assign_Ok by lia. simpl. eexists. split; [done|]. simpl. auto. }
  rewrite assign_Ok by lia. simpl.
  rewrite ?(index_Some _ _ _ Hra). simpl.
  rewrite assign_Ok by lia. simpl. eexists. split; [done|]. simpl.
  rewrite length_insert. auto.
Qed.

(** ** Well-formed states *)

Lemma wf_total' n uf : wf n uf → total (parent uf).
Proof. intros Hwf x Hx. apply (wf_total n uf Hwf). rewrite <- (wf_parent n uf Hwf). done. Qed.

Lemma wf_same_reps n uf uf' :
  wf n uf → same_reps (parent uf) (parent uf') →
  rank uf' = rank uf → count uf' = count uf → wf n uf'.
Proof.
  intros [Hn Hp Hr Htot Hc] Hsame Hrank Hcount.
  pose proof Hsame as [Hlen Hreps]. split.
  - done.
  - by rewrite <- Hlen.
  - by rewrite Hrank.
  - intros x Hx. destruct (Htot x Hx) as [r Hxr]. exists r. by apply Hreps.
  - by rewrite Hcount, <- (roots_same_reps _ _ Hsame).
Qed.

Lemma wrap64_small z : - 2 ^ 63 ≤ z ≤ max_int → wrap64 z = z.
Proof.
  unfold wrap64, max_int. intros Hz.
  rewrite Z.mod_small by lia. lia.
Qed.

(** ** [NewUnionFind] *)

Lemma init_loop_spec k i (p r : list Z) :
  0 ≤ i → length p = (Z.to_nat i + k)%nat → length r = (Z.to_nat i + k)%nat →
  init_loop k i p r =
  Ok (take (Z.to_nat i) p ++ seqZ i (Z.of_nat k), take (Z.to_nat i) r ++ replicate k 0).
Proof.
  revert i p r. induction k as [|k IH]; intros i p r Hi Hp Hr; simpl.
  - rewrite seqZ_nil by lia. rewrite !app_nil_r, !firstn_all2 by lia. done.
  - rewrite !assign_Ok by lia. simpl.
    rewrite IH by (rewrite ?length_insert; lia).
    replace (Z.to_nat (i + 1)) with (S (Z.to_nat i)) by lia.
    rewrite (take_S_r _ _ i), (take_S_r _ _ 0) by (apply list_lookup_insert_eq; lia).
    rewrite !take_insert_ge by lia.
    rewrite (seqZ_cons i) by lia.
    replace (Z.succ i) with (i + 1) by lia.
    replace (Z.pred (Z.of_nat (S k))) with (Z.of_nat k) by lia.
    by rewrite <- !app_assoc.
Qed.

Lemma NewUnionFind_Ok n :
  0 ≤ n ≤ max_int →
  NewUnionFind n =
  Ok {| parent := seqZ 0 n; rank := replicate (Z.to_nat n) 0; count := n |}.
Proof.
  intros Hn. unfold NewUnionFind, make. rewrite decide_True by done. simpl.
  rewrite init_loop_spec by (rewrite ?length_replicate; simpl; lia). simpl.
  by rewrite Z2Nat.id by lia.
Qed.

Lemma NewUnionFind_Panic n : ¬ (0 ≤ n ≤ max_int) → NewUnionFind n = Panic.
Proof. intros Hn. unfold NewUnionFind, make. by rewrite decide_False. Qed.

Lemma NewUnionFind_inv n uf :
  NewUnionFind n = Ok uf →
  0 ≤ n ≤ max_int ∧
  uf = {| parent := seqZ 0 n; rank := replicate (Z.to_nat n) 0; count := n |}.
Proof.
  intros H. destruct (decide (0 ≤ n ≤ max_int)) as [Hn|Hn].
  - rewrite NewUnionFind_Ok in H by done. by injection H.
  - by rewrite NewUnionFind_Panic in H.
Qed.

Lemma lookupZ_seqZ n x : valid n x → lookupZ (seqZ 0 n) x = Some x.
Proof.
  intros Hx. unfold lookupZ. rewrite decide_True by (unfold valid in Hx; lia).
  unfold valid in Hx. rewrite lookup_seqZ_lt by lia. f_equal. lia.
Qed.

Lemma reaches_seqZ n x r : reaches (seqZ 0 n) x r ↔ valid n x ∧ r = x.
Proof.
  split.
  - intros H. pose proof (reaches_range _ _ _ H) as Hx.
    rewrite length_seqZ in Hx.
    assert (valid n x) as Hv by (unfold valid; lia).
    split; [done|]. eapply reaches_from_root; [|done]. by apply lookupZ_seqZ.
  - intros [Hx ->]. constructor. by apply lookupZ_seqZ.
Qed.

Lemma conn_seqZ n x y : conn (seqZ 0 n) x y ↔ valid n x ∧ x = y.
Proof.
  unfold conn. setoid_rewrite reaches_seqZ. split.
  - by intros (r & [Hx ->] & [Hy ->]).
  - intros [Hx <-]. by exists x.
Qed.

Lemma roots_seqZ n : 0 ≤ n → Z.of_nat (size (roots (seqZ 0 n))) = n.
Proof.
  intros Hn.
  assert (roots (seqZ 0 n) = list_to_set (seqZ 0 n)) as ->.
  { apply set_eq. intros x.
    rewrite elem_of_roots, elem_of_list_to_set, elem_of_seqZ, <- reaches_self, reaches_seqZ.
    unfold valid. intuition lia. }
  rewrite size_list_to_set by apply NoDup_seqZ. rewrite length_seqZ. lia.
Qed.

Lemma NewUnionFind_wf n uf : NewUnionFind n = Ok uf → wf n uf.
Proof.
  intros [Hn ->]%NewUnionFind_inv. split; simpl.
  - done.
  - rewrite length_seqZ. lia.
  - rewrite length_replicate. lia.
  - intros x Hx. exists x. by apply reaches_seqZ.
  - by rewrite roots_seqZ by lia.
Qed.

(** ** [Connected] and [Union] *)

Lemma Connected_monotone uf x y : monotone (λ f, Connected f uf x y).
Proof.
  unfold Connected.
  apply (monotone_bind (λ f, Find f uf x)); [apply Find_monotone|]. intros [rx uf1].
  apply (monotone_bind (λ f, Find f uf1 y)); [apply Find_monotone|]. intros [ry uf2].
  apply monotone_const.
Qed.

Lemma Union_monotone uf x y : monotone (λ f, Union f uf x y).
Proof.
  unfold Union.
  apply (monotone_bind (λ f, Find f uf x)); [apply Find_monotone|]. intros [rx uf1].
  apply (monotone_bind (λ f, Find f uf1 y)); [apply Find_monotone|]. intros [ry uf2].
  apply monotone_const.
Qed.

Lemma exec_monotone uf c : monotone (λ f, exec f uf c).
Proof.
  destruct c as [x|x y|x y]; simpl.
  - apply (monotone_bind (λ f, Find f uf x)); [apply Find_monotone|]. intros [r uf1].
    apply monotone_const.
  - apply (monotone_bind (λ f, Union f uf x y)); [apply Union_monotone|]. intros [r uf1].
    apply monotone_const.
  - apply (monotone_bind (λ f, Connected f uf x y)); [apply Connected_monotone|].
    intros [r uf1]. apply monotone_const.
Qed.

(** Two [Find]s in a row, as [Union] and [Connected] start. *)
Lemma Find_twice n uf x y :
  wf n uf → valid n x → valid n y →
  ∃ rx ry uf1 uf2,
    returns (λ f, Find f uf x) (rx, uf1) ∧ returns (λ f, Find f uf1 y) (ry, uf2) ∧
    reaches (parent uf) x rx ∧ reaches (parent uf) y ry ∧
    same_reps (parent uf) (parent uf2) ∧ rank uf2 = rank uf ∧ count uf2 = count uf.
Proof.
  intros Hwf Hx Hy.
  destruct (wf_total n uf Hwf x Hx) as [rx Hrx].
  destruct (wf_total n uf Hwf y Hy) as [ry Hry].
  destruct (Find_spec uf x rx Hrx) as (uf1 & Hf1 & Hsame1 & Hrank1 & Hcount1).
  assert (reaches (parent uf1) y ry) as Hry1 by by apply Hsame1.
  destruct (Find_spec uf1 y ry Hry1) as (uf2 & Hf2 & Hsame2 & Hrank2 & Hcount2).
  exists rx, ry, uf1, uf2.
  split; [done|]. split; [done|]. split; [done|]. split; [done|].
  split; [apply (same_reps_trans _ _ _ Hsame1 Hsame2)|]. split; congruence.
Qed.

Lemma Connected_spec n uf x y :
  wf n uf → valid n x → valid n y →
  ∃ b uf', returns (λ f, Connected f uf x y) (b, uf') ∧
           (b = true ↔ conn (parent uf) x y) ∧
           wf n uf' ∧ same_reps (parent uf) (parent uf') ∧ count uf' = count uf.
Proof.
  intros Hwf Hx Hy.
  destruct (Find_twice n uf x y Hwf Hx Hy)
    as (rx & ry & uf1 & uf2 & Hf1 & Hf2 & Hrx & Hry & Hsame & Hrank & Hcount).
  exists (bool_decide (rx = ry)), uf2. split; [|split; [|split; [|done]]].
  - unfold Connected.
    apply (returns_bind (λ f, Find f uf x) _ _ _ Hf1).
    apply (returns_bind (λ f, Find f uf1 y) _ _ _ Hf2).
    by exists O.
  - rewrite bool_decide_eq_true, (conn_reaches _ _ _ _ Hrx). split.
    + by intros ->.
    + intros Hry'. by eapply reaches_det.
  - by eapply wf_same_reps.
Qed.

Lemma Union_spec n uf x y :
  wf n uf → valid n x → valid n y →
  ∃ b uf', returns (λ f, Union f uf x y) (b, uf') ∧
           (b = false ↔ conn (parent uf) x y) ∧
           wf n uf' ∧
           count uf' = count uf - (if b then 1 else 0) ∧
           (b = false → same_reps (parent uf) (parent uf')) ∧
           ∀ u v, conn (parent uf') u v ↔
                  conn (parent uf) u v ∨
                  (conn (parent uf) u x ∧ conn (parent uf) y v) ∨
                  (conn (parent uf) u y ∧ conn (parent uf) x v).
Proof.
  intros Hwf Hx Hy.
  destruct (Find_twice n uf x y Hwf Hx Hy)
    as (rx & ry & uf1 & uf2 & Hf1 & Hf2 & Hrx & Hry & Hsame & Hrank & Hcount).
  pose proof (wf_same_reps n uf uf2 Hwf Hsame Hrank Hcount) as Hwf2.
  assert (conn (parent uf) x y ↔ rx = ry) as Hconn.
  { rewrite (conn_reaches _ _ _ _ Hrx). split.
    - intros Hry'. by eapply reaches_det.
    - by intros ->. }
  destruct (decide (rx = ry)) as [Heq|Hne].
  { exists false, uf2. split; [|split; [|split; [|split; [|split]]]]; try done.
    - unfold Union.
      apply (returns_bind (λ f, Find f uf x) _ _ _ Hf1).
      apply (returns_bind (λ f, Find f uf1 y) _ _ _ Hf2).
      exists O. intros _ _. by rewrite decide_True.
    - by rewrite Hconn.
    - lia.
    - intros u v. rewrite <- (same_reps_conn _ _ u v Hsame).
      apply Hconn in Heq. split; [by left|].
      intros [H|[[Hu Hv]|[Hu Hv]]]; [done|..].
      + eauto using conn_trans.
      + eauto using conn_trans, conn_sym. }
  assert (reaches (parent uf2) x rx) as Hrx2 by by apply Hsame.
  assert (reaches (parent uf2) y ry) as Hry2 by by apply Hsame.
  pose proof (reaches_end _ _ _ Hrx2) as Hrootx.
  pose proof (reaches_end _ _ _ Hry2) as Hrooty.
  pose proof (lookupZ_Some_range _ _ _ Hrootx) as Hrangex.
  pose proof (lookupZ_Some_range _ _ _ Hrooty) as Hrangey.
  pose proof (wf_parent _ _ Hwf2) as Hplen. pose proof (wf_rank _ _ Hwf2) as Hrlen.
  destruct (link_spec uf2 rx ry) as (uf3 & Hlink & Hcount3 & Hrank3 & Hparent3);
    [lia..|].
  set (uf4 := with_count uf3 (wrap64 (count uf3 - 1))).
  assert (∃ a b, {[a; b]} = ({[rx; ry]} : gset Z) ∧ a ≠ b ∧
                 lookupZ (parent uf2) a = Some a ∧ lookupZ (parent uf2) b = Some b ∧
                 parent uf3 = <[Z.to_nat a := b]> (parent uf2)) as (a & b & Hab & Hneab & Ha & Hb & Hp3).
  { destruct Hparent3 as [->| ->].
    - by exists rx, ry.
    - exists ry, rx. repeat split; [set_solver|done..]. }
  assert (∀ u v, conn (parent uf4) u v ↔
                 conn (parent uf) u v ∨
                 (conn (parent uf) u x ∧ conn (parent uf) y v) ∨
                 (conn (parent uf) u y ∧ conn (parent uf) x v)) as Hchar.
  { intros u v. simpl. rewrite Hp3.
    rewrite (attach_conn _ a b u v Ha Hb Hneab (wf_total' _ _ Hwf2)).
    rewrite <- !(same_reps_conn _ _ _ _ Hsame).
    assert (∀ z, conn (parent uf) z rx ↔ conn (parent uf) z x) as Ex.
    { intros z. split; intros Hz; (eapply conn_trans; [exact Hz|]).
      - exists rx. split; [constructor; by eapply reaches_end|done].
      - exists rx. split; [done|constructor; by eapply reaches_end]. }
    assert (∀ z, conn (parent uf) z ry ↔ conn (parent uf) z y) as Ey.
    { intros z. split; intros Hz; (eapply conn_trans; [exact Hz|]).
      - exists ry. split; [constructor; by eapply reaches_end|done].
      - exists ry. split; [done|constructor; by eapply reaches_end]. }
    assert (∀ z w, conn (parent uf) z w ↔ conn (parent uf) w z) as Es.
    { intros z w. split; apply conn_sym. }
    assert ((a = rx ∧ b = ry) ∨ (a = ry ∧ b = rx)) as [[-> ->]|[-> ->]].
    { assert (a ∈ ({[rx; ry]} : gset Z)) as Ha' by (rewrite <- Hab; set_solver).
      assert (b ∈ ({[rx; ry]} : gset Z)) as Hb' by (rewrite <- Hab; set_solver).
      apply elem_of_union in Ha', Hb'. rewrite !elem_of_singleton in Ha', Hb'.
      destruct Ha', Hb'; subst; tauto. }
    - rewrite (Es ry v), (Es rx v), !Ex, !Ey, (Es v y), (Es v x). tauto.
    - rewrite (Es ry v), (Es rx v), !Ex, !Ey, (Es v y), (Es v x). tauto. }
  exists true, uf4. split; [|split; [|split; [|split; [|split]]]]; try done.
  - unfold Union.
    apply (returns_bind (λ f, Find f uf x) _ _ _ Hf1).
    apply (returns_bind (λ f, Find f uf1 y) _ _ _ Hf2).
    exists O. intros _ _. rewrite decide_False by done. by rewrite Hlink.
  - rewrite Hconn. done.
  - assert (Z.of_nat (size (roots (parent uf3))) = count uf2 - 1) as Hsize.
    { rewrite Hp3, roots_attach, size_roots_remove, (wf_count _ _ Hwf2); try done.
      by apply elem_of_roots. }
    assert (wrap64 (count uf3 - 1) = count uf2 - 1) as Hwrap.
    { rewrite Hcount3. apply wrap64_small.
      pose proof (wf_n _ _ Hwf2). pose proof (size_roots_le (parent uf2)).
      rewrite (wf_count _ _ Hwf2). unfold max_int in *.
      assert (size (roots (parent uf3)) ≥ 0)%nat by lia. lia. }
    split; simpl.
    + apply (wf_n _ _ Hwf).
    + rewrite Hp3, length_insert. done.
    + rewrite Hrank3. done.
    + intros z Hz. rewrite Hp3.
      apply attach_total; [done..|apply (wf_total' _ _ Hwf2)|].
      rewrite length_insert, Hplen. done.
    + by rewrite Hwrap, Hsize.
  - simpl. rewrite Hcount3, Hcount. apply wrap64_small.
    pose proof (wf_n _ _ Hwf2). pose proof (size_roots_le (parent uf2)).
    rewrite <- Hcount, (wf_count _ _ Hwf2). unfold max_int in *.
    assert (rx ∈ roots (parent uf2)) as Hin by by apply elem_of_roots.
    assert (size (roots (parent uf2)) ≠ 0%nat).
    { intros Hemp%size_empty_inv. set_solver. }
    lia.
Qed.

(** The same facts read off one successful run. *)

Lemma Find_inv n uf x f r uf' :
  wf n uf → valid n x → Find f uf x = Ok (r, uf') →
  reaches (parent uf) x r ∧ wf n uf' ∧
  same_reps (parent uf) (parent uf') ∧ count uf' = count uf.
Proof.
  intros Hwf Hx Hrun.
  destruct (wf_total n uf Hwf x Hx) as [r0 Hr0].
  destruct (Find_spec uf x r0 Hr0) as (uf0 & Hret & Hsame & Hrank & Hcount).
  pose proof (returns_of_monotone _ _ _ (Find_monotone uf x) Hrun) as Hret'.
  pose proof (returns_inj _ _ _ Hret Hret') as [= -> ->].
  eauto using wf_same_reps.
Qed.

Lemma Connected_inv n uf x y f b uf' :
  wf n uf → valid n x → valid n y → Connected f uf x y = Ok (b, uf') →
  (b = true ↔ conn (parent uf) x y) ∧ wf n uf' ∧
  same_reps (parent uf) (parent uf') ∧ count uf' = count uf.
Proof.
  intros Hwf Hx Hy Hrun.
  destruct (Connected_spec n uf x y Hwf Hx Hy) as (b0 & uf0 & Hret & Hpost).
  pose proof (returns_of_monotone _ _ _ (Connected_monotone uf x y) Hrun) as Hret'.
  by pose proof (returns_inj _ _ _ Hret Hret') as [= -> ->].
Qed.

Lemma Union_inv n uf x y f b uf' :
  wf n uf → valid n x → valid n y → Union f uf x y = Ok (b, uf') →
  (b = false ↔ conn (parent uf) x y) ∧ wf n uf' ∧
  count uf' = count uf - (if b then 1 else 0) ∧
  (b = false → same_reps (parent uf) (parent uf')) ∧
  ∀ u v, conn (parent uf') u v ↔
         conn (parent uf) u v ∨
         (conn (parent uf) u x ∧ conn (parent uf) y v) ∨
         (conn (parent uf) u y ∧ conn (parent uf) x v).
Proof.
  intros Hwf Hx Hy Hrun.
  destruct (Union_spec n uf x y Hwf Hx Hy) as (b0 & uf0 & Hret & Hpost).
  pose proof (returns_of_monotone _ _ _ (Union_monotone uf x y) Hrun) as Hret'.
  by pose proof (returns_inj _ _ _ Hret Hret') as [= -> ->].
Qed.

(** ** The equivalence generated by a list of pairs *)

Section joined.
Variable n : Z.
Implicit Types (ps : list (Z * Z)) (x y u v : Z).

Lemma joined_mono ps ps' x y :
  (∀ p, p ∈ ps → p ∈ ps') → joined n ps x y → joined n ps' x y.
Proof.
  intros Hsub. induction 1;
    eauto using joined_refl, joined_pair, joined_sym, joined_trans.
Qed.

Lemma joined_perm ps ps' x y : ps ≡ₚ ps' → joined n ps x y ↔ joined n ps' x y.
Proof.
  intros Hp. split; apply joined_mono; intros p; by rewrite Hp.
Qed.

Lemma joined_nil x y : joined n [] x y ↔ valid n x ∧ x = y.
Proof.
  split.
  - induction 1 as [x Hx|x y Hin|x y _ [IHx ->]|x y z _ [IHx ->] _ [_ ->]];
      [done| |done..].
    by apply elem_of_nil in Hin.
  - intros [Hx <-]. by constructor.
Qed.

(** A union of [x] and [y] turns the equivalence generated by [ps] into
    the one generated by [ps] and the pair. *)
Lemma joined_extend ps x y (R R' : Z → Z → Prop) :
  valid n x → valid n y →
  (∀ u v, R u v ↔ joined n ps u v) →
  (∀ u v, R' u v ↔ R u v ∨ (R u x ∧ R y v) ∨ (R u y ∧ R x v)) →
  ∀ u v, R' u v ↔ joined n (ps ++ [(x, y)]) u v.
Proof.
  intros Hx Hy HR HR'.
  assert (∀ u v, joined n ps u v → joined n (ps ++ [(x, y)]) u v) as Hinc.
  { intros u v. apply joined_mono. set_solver. }
  assert (joined n (ps ++ [(x, y)]) x y) as Hxy.
  { apply joined_pair. set_solver. }
  assert (∀ u v, R u v → R v u) as Rsym.
  { intros u v. rewrite !HR. apply joined_sym. }
  assert (∀ u v w, R u v → R v w → R u w) as Rtrans.
  { intros u v w. rewrite !HR. apply joined_trans. }
  intros u v. split.
  - rewrite HR'. rewrite !HR. intros [H|[[Hu Hv]|[Hu Hv]]].
    + by apply Hinc.
    + eapply joined_trans; [apply Hinc, Hu|].
      eapply joined_trans; [apply Hxy|]. apply Hinc, Hv.
    + eapply joined_trans; [apply Hinc, Hu|].
      eapply joined_trans; [apply joined_sym, Hxy|]. apply Hinc, Hv.
  - induction 1 as [u Hu|u v Hin|u v _ IH|u v w _ IHuv _ IHvw].
    + apply HR'. left. apply HR. by constructor.
    + apply HR'. apply elem_of_app in Hin as [Hin|Hin].
      * left. apply HR. by constructor.
      * apply list_elem_of_singleton in Hin as [= -> ->].
        right; left. split; apply HR; by constructor.
    + apply HR'. apply HR' in IH as [H|[[Hu Hv]|[Hu Hv]]]; eauto 6.
    + apply HR'. apply HR' in IHuv as [H1|[[Hu1 Hv1]|[Hu1 Hv1]]];
        apply HR' in IHvw as [H2|[[Hu2 Hv2]|[Hu2 Hv2]]]; eauto 7.
Qed.
End joined.

(** ** Traces *)

Lemma union_pairs_snoc t c r :
  union_pairs (t ++ [(c, r)]) =
  union_pairs t ++ match c with CallUnion x y => [(x, y)] | _ => [] end.
Proof.
  unfold union_pairs. rewrite omap_app. f_equal. by destruct c.
Qed.

Lemma successful_unions_snoc t c r :
  successful_unions (t ++ [(c, r)]) =
  successful_unions t + (if successful_union (c, r) then 1 else 0).
Proof.
  unfold successful_unions. rewrite filter_app, length_app, Nat2Z.inj_add.
  f_equal. rewrite filter_cons, filter_nil.
  destruct (successful_union (c, r)); by simpl.
Qed.

(** One call from a well-formed state: what it returns and what it leaves. *)
Lemma exec_inv n uf c f r uf' :
  wf n uf → valid_call n c → exec f uf c = Ok (r, uf') →
  wf n uf' ∧
  count uf' = count uf - (if successful_union (c, r) then 1 else 0) ∧
  ∀ ps, (∀ u v, conn (parent uf) u v ↔ joined n ps u v) →
        ∀ u v, conn (parent uf') u v ↔
               joined n (ps ++ match c with CallUnion x y => [(x, y)] | _ => [] end) u v.
Proof.
  intros Hwf Hc Hrun. destruct c as [x|x y|x y]; simpl in *.
  - destruct (Find f uf x) as [[rx uf1]| |] eqn:E; [|done..].
    injection Hrun as <- <-.
    destruct (Find_inv _ _ _ _ _ _ Hwf Hc E) as (_ & Hwf' & Hsame & Hcount).
    split; [done|]. split; [lia|]. intros ps Hps u v.
    by rewrite app_nil_r, <- (same_reps_conn _ _ u v Hsame).
  - destruct Hc as [Hx Hy].
    destruct (Union f uf x y) as [[b uf1]| |] eqn:E; [|done..].
    injection Hrun as <- <-.
    destruct (Union_inv _ _ _ _ _ _ _ Hwf Hx Hy E) as (_ & Hwf' & Hcount & _ & Hchar).
    split; [done|]. split; [by destruct b|]. intros ps Hps.
    by apply (joined_extend n ps x y (conn (parent uf))).
  - destruct Hc as [Hx Hy].
    destruct (Connected f uf x y) as [[b uf1]| |] eqn:E; [|done..].
    injection Hrun as <- <-.
    destruct (Connected_inv _ _ _ _ _ _ _ Hwf Hx Hy E) as (_ & Hwf' & Hsame & Hcount).
    split; [done|]. split; [lia|]. intros ps Hps u v.
    by rewrite app_nil_r, <- (same_reps_conn _ _ u v Hsame).
Qed.

Lemma trace_inv n t uf :
  trace n t uf →
  wf n uf ∧ count uf = n - successful_unions t ∧
  ∀ u v, conn (parent uf) u v ↔ joined n (union_pairs t) u v.
Proof.
  induction 1 as [uf Hnew|t uf c f r uf' _ (Hwf & Hcount & Hconn) Hc Hrun].
  - split; [by apply NewUnionFind_wf|].
    apply NewUnionFind_inv in Hnew as [Hn ->]. simpl.
    split; [unfold successful_unions; simpl; lia|].
    intros u v. by rewrite conn_seqZ, joined_nil.
  - destruct (exec_inv _ _ _ _ _ _ Hwf Hc Hrun) as (Hwf' & Hcount' & Hconn').
    split; [done|]. split.
    + rewrite successful_unions_snoc. lia.
    + rewrite union_pairs_snoc. by apply Hconn'.
Qed.

Lemma reachable_wf n uf : reachable n uf → wf n uf.
Proof. intros [t Ht]. by destruct (trace_inv _ _ _ Ht). Qed.

(** A valid call on a well-formed state returns. *)
Lemma exec_returns n uf c :
  wf n uf → valid_call n c → ∃ r uf', returns (λ f, exec f uf c) (r, uf').
Proof.
  intros Hwf Hc. destruct c as [x|x y|x y]; simpl in *.
  - destruct (wf_total n uf Hwf x Hc) as [r Hr].
    destruct (Find_spec uf x r Hr) as (uf' & Hret & _).
    exists (RetInt r), uf'.
    apply (returns_bind (λ f, Find f uf x) _ _ _ Hret). by exists O.
  - destruct Hc as [Hx Hy].
    destruct (Union_spec n uf x y Hwf Hx Hy) as (b & uf' & Hret & _).
    exists (RetBool b), uf'.
    apply (returns_bind (λ f, Union f uf x y) _ _ _ Hret). by exists O.
  - destruct Hc as [Hx Hy].
    destruct (Connected_spec n uf x y Hwf Hx Hy) as (b & uf' & Hret & _).
    exists (RetBool b), uf'.
    apply (returns_bind (λ f, Connected f uf x y) _ _ _ Hret). by exists O.
Qed.

Lemma applied_exists n ps :
  0 ≤ n ≤ max_int → Forall (valid_pair n) ps → ∃ uf, applied n ps uf.
Proof.
  intros Hn. induction ps as [|[x y] ps IH] using rev_ind; intros Hps.
  - eexists. exists []. split; [done|]. constructor. by apply NewUnionFind_Ok.
  - apply Forall_app in Hps as [Hps Hxy]. rewrite Forall_singleton in Hxy.
    destruct (IH Hps) as (uf & t & Ht & Htrace).
    destruct (exec_returns n uf (CallUnion x y)) as (r & uf' & [f Hf]);
      [by destruct (trace_inv _ _ _ Htrace)|exact Hxy|].
    exists uf', (t ++ [(CallUnion x y, r)]). split.
    + by rewrite !fmap_app, Ht.
    + eapply trace_call; [done|exact Hxy|]. by apply (Hf f).
Qed.

Lemma applied_union_pairs t ps :
  t.*1 = (λ p, CallUnion p.1 p.2) <$> ps → union_pairs t = ps.
Proof.
  revert ps. induction t as [|[c r] t IH]; intros [|[x y] ps]; simpl; try done.
  intros [= -> Ht]. unfold union_pairs. simpl. f_equal. by apply IH.
Qed.

(** ** [GetComponents] *)

Lemma GetComponents_loop_spec n k i uf (m : gmap Z (list Z)) :
  wf n uf → 0 ≤ i → i + Z.of_nat k = n →
  ∃ m' uf', returns (λ f, GetComponents_loop f k i uf m) (m', uf') ∧
            wf n uf' ∧ same_reps (parent uf) (parent uf') ∧ count uf' = count uf ∧
            ∀ r, r ∈ dom m' ↔ r ∈ dom m ∨ ∃ j, i ≤ j < n ∧ reaches (parent uf) j r.
Proof.
  revert i uf m. induction k as [|k IH]; intros i uf m Hwf Hi Hn.
  - exists m, uf. split; [by exists O|]. split; [done|].
    split; [apply same_reps_refl|]. split; [done|].
    intros r. split; [by left|]. intros [H|(j & Hj & _)]; [done|lia].
  - assert (valid n i) as Hv by (unfold valid; lia).
    destruct (wf_total n uf Hwf i Hv) as [r0 Hr0].
    destruct (Find_spec uf i r0 Hr0) as (uf1 & Hret & Hsame & Hrank & Hcount).
    pose proof (wf_same_reps n uf uf1 Hwf Hsame Hrank Hcount) as Hwf1.
    destruct (IH (i + 1) uf1 (<[r0 := default [] (m !! r0) ++ [i]]> m))
      as (m' & uf' & Hret' & Hwf' & Hsame' & Hcount' & Hdom); [done|lia|lia|].
    exists m', uf'. split; [|split; [done|split; [|split; [congruence|]]]].
    + simpl. by apply (returns_bind (λ f, Find f uf i) _ _ _ Hret).
    + by eapply same_reps_trans.
    + intros r. rewrite Hdom, dom_insert_L, elem_of_union, elem_of_singleton.
      destruct Hsame as [_ Hsame]. split.
      * intros [[->|H]|(j & Hj & Hjr)]; [right|by left|right].
        -- exists i. split; [lia|done].
        -- exists j. split; [lia|]. by apply Hsame.
      * intros [H|(j & Hj & Hjr)]; [by left; right|].
        destruct (decide (j = i)) as [->|Hne].
        -- left; left. by eapply reaches_det.
        -- right. exists j. split; [lia|]. by apply Hsame.
Qed.

(** [GetComponents] returns a map whose keys are exactly the self-loops. *)
Lemma GetComponents_spec n uf :
  wf n uf →
  ∃ m uf', returns (λ f, GetComponents f uf) (m, uf') ∧
           wf n uf' ∧ dom m = roots (parent uf).
Proof.
  intros Hwf. unfold GetComponents.
  destruct (GetComponents_loop_spec n (length (parent uf)) 0 uf ∅ Hwf)
    as (m & uf' & Hret & Hwf' & _ & _ & Hdom); [done|by rewrite (wf_parent _ _ Hwf)|].
  exists m, uf'. split; [done|]. split; [done|].
  apply set_eq. intros r. rewrite Hdom, dom_empty_L, elem_of_roots. split.
  - intros [H|(j & _ & Hj)]; [set_solver|]. by eapply reaches_end.
  - intros Hr. right. exists r. split; [|by constructor].
    apply lookupZ_Some_range in Hr. rewrite (wf_parent _ _ Hwf) in Hr. lia.
Qed.

(** ** [DetectCycle] *)

Lemma DetectCycle_loop_monotone uf edges : monotone (λ f, DetectCycle_loop f uf edges).
Proof.
  revert uf. induction edges as [|e rest IH]; intros uf; simpl.
  - apply monotone_const.
  - apply (monotone_bind (λ f, Connected f uf (From e) (To e)));
      [apply Connected_monotone|]. intros [[] uf1]; [apply monotone_const|].
    apply (monotone_bind (λ f, Union f uf1 (From e) (To e)));
      [apply Union_monotone|]. intros [b uf2]. apply IH.
Qed.

Lemma DetectCycle_monotone n edges : monotone (λ f, DetectCycle f n edges).
Proof.
  unfold DetectCycle. destruct (NewUnionFind n) as [uf| |]; simpl.
  - apply DetectCycle_loop_monotone.
  - apply monotone_const.
  - apply monotone_const.
Qed.

(** Once an edge has made the loop return true, what follows it in the
    slice is never looked at. *)
Lemma DetectCycle_loop_short_circuit f uf before e after :
  DetectCycle_loop f uf (before ++ [e]) = Ok true →
  DetectCycle_loop f uf (before ++ e :: after) = Ok true.
Proof.
  revert uf. induction before as [|a before IH]; intros uf; simpl.
  - destruct (Connected f uf (From e) (To e)) as [[[] uf1]| |]; simpl; [done| |done..].
    by destruct (Union f uf1 (From e) (To e)) as [[b uf2]| |].
  - destruct (Connected f uf (From a) (To a)) as [[[] uf1]| |]; simpl; [done| |done..].
    destruct (Union f uf1 (From a) (To a)) as [[b uf2]| |]; simpl; [|done..].
    apply IH.
Qed.

Lemma DetectCycle_loop_spec n uf done edges :
  wf n uf → (∀ u v, conn (parent uf) u v ↔ joined n done u v) →
  Forall (valid_edge n) edges →
  ∃ b, returns (λ f, DetectCycle_loop f uf edges) b ∧
       (b = true ↔ ∃ before e after, edges = before ++ e :: after ∧
                     joined n (done ++ (edge_pair <$> before)) (From e) (To e)).
Proof.
  intros Hwf Hconn Hedges. revert uf done Hwf Hconn.
  induction Hedges as [|e rest [Hx Hy] _ IH]; intros uf done Hwf Hconn.
  - exists false. split; [by exists O|]. split; [done|].
    intros (before & e & after & Heq & _). by destruct before.
  - destruct (Connected_spec n uf _ _ Hwf Hx Hy)
      as (c & uf1 & Hret1 & Hc & Hwf1 & Hsame1 & _).
    destruct c.
    + exists true. split.
      * simpl. apply (returns_bind (λ f, Connected f uf _ _) _ _ _ Hret1). by exists O.
      * split; [|done]. intros _. exists [], e, rest. split; [done|].
        simpl. rewrite app_nil_r. apply Hconn. by apply Hc.
    + destruct (Union_spec n uf1 _ _ Hwf1 Hx Hy)
        as (b2 & uf2 & Hret2 & _ & Hwf2 & _ & _ & Hchar).
      assert (∀ u v, conn (parent uf2) u v ↔ joined n (done ++ [edge_pair e]) u v) as Hconn2.
      { apply (joined_extend n done _ _ (conn (parent uf1))); [done..| |done].
        intros u v. by rewrite <- (same_reps_conn _ _ u v Hsame1). }
      destruct (IH uf2 _ Hwf2 Hconn2) as (b & Hret & Hb).
      exists b. split.
      * simpl. apply (returns_bind (λ f, Connected f uf _ _) _ _ _ Hret1).
        by apply (returns_bind (λ f, Union f uf1 _ _) _ _ _ Hret2).
      * rewrite Hb. split.
        -- intros (before & e' & after & -> & Hj). exists (e :: before), e', after.
           split; [done|]. by rewrite fmap_cons, cons_middle, app_assoc.
        -- intros (before & e' & after & Heq & Hj).
           destruct before as [|e0 before]; simpl in *.
           ++ injection Heq as <- <-. rewrite app_nil_r in Hj.
              apply Hconn, Hc in Hj. done.
           ++ injection Heq as <- ->. exists before, e', after.
              split; [done|]. by rewrite cons_middle, app_assoc in Hj.
Qed.

(** ** Sorting by weight *)

Lemma less_weight_ordering : transitive_ordering less_weight.
Proof.
  unfold less_weight. split; [|split].
  - intros a. apply bool_decide_eq_false. lia.
  - intros a b c. rewrite !bool_decide_eq_true. lia.
  - intros a b c. rewrite !bool_decide_eq_false. lia.
Qed.

Lemma ordered_less_weight s : ordered less_weight s ↔ ascending s.
Proof.
  unfold ordered, ascending.
  split; induction 1 as [|a s Hs IH Ha]; constructor; try done;
    (eapply Forall_impl; [exact Ha|]); intros b; simpl;
    unfold less_weight; rewrite bool_decide_eq_false; lia.
Qed.

Lemma ascendingb_true s : ascending s → ascendingb s = true.
Proof.
  induction 1 as [|a s Hs IH Ha]; [done|]. simpl.
  destruct s as [|b s]; [done|].
  apply Forall_cons in Ha as [Hab _].
  by rewrite bool_decide_true, IH.
Qed.

Section insertion.
Context {A : Type} (less : A → A → bool).
Hypothesis Hless : transitive_ordering less.

Lemma insert_behind_perm x s : insert_behind less x s ≡ₚ x :: s.
Proof.
  induction s as [|y s IH]; simpl; [done|].
  destruct (less x y); [done|]. by rewrite IH, Permutation_swap.
Qed.

Lemma insert_behind_ordered x s :
  ordered less s → ordered less (insert_behind less x s).
Proof.
  destruct Hless as (Hirr & Htrans & _). unfold ordered.
  induction 1 as [|y s Hs IH Hy]; simpl.
  - repeat constructor.
  - destruct (less x y) eqn:Hxy.
    + constructor; [by constructor|]. constructor.
      * destruct (less y x) eqn:Hyx; [|done].
        rewrite <- (Hirr x). symmetry. by eapply Htrans.
      * eapply Forall_impl; [exact Hy|]. intros b Hby. simpl in *.
        destruct (less b x) eqn:Hbx; [|done].
        rewrite <- Hby. symmetry. by eapply Htrans.
    + constructor; [done|].
      rewrite (insert_behind_perm x s). by constructor.
Qed.
End insertion.

Lemma insertion_sort_contract : sort_contract insertion_sort.
Proof.
  intros s less Hless. unfold insertion_sort. split.
  - induction s as [|x s IH]; simpl; [done|].
    by rewrite insert_behind_perm, IH.
  - induction s as [|x s IH]; simpl; [constructor|].
    by apply insert_behind_ordered.
Qed.

(** ** Ascending rearrangements *)

Lemma elem_of_inserts x s1 s2 : s1 ++ x :: s2 ∈ inserts x (s1 ++ s2).
Proof.
  induction s1 as [|y s1 IH]; simpl.
  - destruct s2; apply list_elem_of_here.
  - apply list_elem_of_further. by apply list_elem_of_fmap_2.
Qed.

Lemma elem_of_arrangements s s' : s' ≡ₚ s → ascending s' → s' ∈ arrangements s.
Proof.
  revert s'. induction s as [|x s IH]; intros s' Hperm Hasc; simpl.
  - apply Permutation_nil_r in Hperm as ->. apply list_elem_of_here.
  - symmetry in Hperm.
    apply Permutation_cons_inv_l in Hperm as (s1 & s2 & -> & Hperm).
    apply list_elem_of_filter. split; [by apply ascendingb_true|].
    apply list_elem_of_bind. exists (s1 ++ s2). split; [apply elem_of_inserts|].
    apply IH; [done|].
    apply StronglySorted_app in Hasc as (H12 & H1 & H2).
    apply StronglySorted_app_2; [|done|by apply StronglySorted_inv in H2 as [? _]].
    intros a b Ha Hb. apply H12; [done|]. by apply list_elem_of_further.
Qed.

(** ** [KruskalMST] *)

Lemma KruskalMST_loop_monotone n uf edges mst totalWeight :
  monotone (λ f, KruskalMST_loop f n uf edges mst totalWeight).
Proof.
  revert uf mst totalWeight.
  induction edges as [|e rest IH]; intros uf mst totalWeight; simpl.
  - apply monotone_const.
  - apply (monotone_bind (λ f, Union f uf (From e) (To e))); [apply Union_monotone|].
    intros [[] uf1]; [|apply IH].
    case_decide; [apply monotone_const|apply IH].
Qed.

Lemma KruskalMST_monotone sort_Slice n edges :
  monotone (λ f, (KruskalMST sort_Slice f n edges).2).
Proof.
  unfold KruskalMST. simpl. destruct (NewUnionFind n) as [uf| |]; simpl.
  - apply KruskalMST_loop_monotone.
  - apply monotone_const.
  - apply monotone_const.
Qed.

Lemma demo_arrangements : forallb demo_tree (arrangements demoEdges) = true.
Proof. vm_compute. reflexivity. Qed.

(** ** Following pointers, and running calls *)

Lemma follow_snoc l k x : follow l (S k) x = follow l k x ≫= lookupZ l.
Proof.
  revert x. induction k as [|k IH]; intros x.
  - simpl. by destruct (lookupZ l x).
  - change (follow l (S (S k)) x) with (lookupZ l x ≫= follow l (S k)).
    simpl. destruct (lookupZ l x) as [p|]; [|done]. simpl. apply IH.
Qed.

Lemma follow_root l k r : lookupZ l r = Some r → follow l k r = Some r.
Proof.
  intros Hr. induction k as [|k IH]; [done|].
  by rewrite follow_snoc, IH.
Qed.

(** The only way back to where one started is a self-loop. *)
Lemma reaches_no_cycle l x r k :
  reaches l x r → (0 < k)%nat → follow l k x = Some x → lookupZ l x = Some x.
Proof.
  intros H. revert k. induction H as [r Hr|x p r Hx Hne _ IH]; intros k Hk Hcyc; [done|].
  exfalso. destruct k as [|k]; [lia|]. simpl in Hcyc. rewrite Hx in Hcyc. simpl in Hcyc.
  assert (follow l (S k) p = Some p) as Hp.
  { by rewrite follow_snoc, Hcyc. }
  apply IH in Hp; [|lia]. rewrite (follow_root _ _ _ Hp) in Hcyc. congruence.
Qed.

Lemma run_trace n t0 uf0 fuel cs t uf :
  trace n t0 uf0 → Forall (valid_call n) cs → run fuel uf0 cs = Ok (t, uf) →
  trace n (t0 ++ t) uf.
Proof.
  intros Ht0 Hcs. revert t0 uf0 t Ht0.
  induction Hcs as [|c cs Hc _ IH]; intros t0 uf0 t Ht0 Hrun; simpl in Hrun.
  - injection Hrun as <- <-. by rewrite app_nil_r.
  - destruct (exec fuel uf0 c) as [[r uf1]| |] eqn:E; simpl in Hrun; [|done..].
    destruct (run fuel uf1 cs) as [[t1 uf2]| |] eqn:E1; simpl in Hrun; [|done..].
    injection Hrun as <- <-. rewrite cons_middle, app_assoc.
    apply (IH _ uf1); [|done]. by eapply trace_call.
Qed.

Lemma stable_of_distinct_weights edges sorted :
  NoDup (Weight <$> edges) → sorted ≡ₚ edges → stable edges sorted.
Proof.
  intros Hnd Hperm w.
  assert (filter (λ e, Weight e = w) sorted ≡ₚ filter (λ e, Weight e = w) edges) as Hf
    by by rewrite Hperm.
  assert (length (filter (λ e, Weight e = w) edges) ≤ 1)%nat as Hlen.
  { clear Hperm Hf. induction edges as [|x edges IH]; simpl; [lia|].
    apply NoDup_cons in Hnd as [Hx Hnd]. rewrite filter_cons.
    case_decide as Hw; [|by apply IH]. simpl.
    destruct (filter (λ e, Weight e = w) edges) as [|e rest] eqn:E; [simpl; lia|].
    exfalso. apply Hx.
    assert (e ∈ filter (λ e, Weight e = w) edges) as He by (rewrite E; apply list_elem_of_here).
    apply list_elem_of_filter in He as [Hew He].
    rewrite Hw, <- Hew. by apply list_elem_of_fmap_2. }
  destruct (filter (λ e, Weight e = w) edges) as [|e [|e' rest]]; simpl in Hlen.
  - by apply Permutation_nil_r in Hf.
  - by apply Permutation_singleton_r in Hf.
  - lia.
Qed.

Lemma bool_agree (b c : bool) (P Q : Prop) :
  (b = true ↔ P) → (c = true ↔ Q) → (P ↔ Q) → b = c.
Proof. destruct b, c; intuition congruence. Qed.

Lemma orders_differ_in_shape : parent left_first_state ≠ parent right_first_state.
Proof. discriminate. Qed.

Lemma sample_trace : trace 4 sample_calls sample_state.
Proof.
  apply (run_trace 4 [] {| parent := seqZ 0 4; rank := [0; 0; 0; 0]; count := 4 |}
           3 [CallUnion 0 1; CallUnion 2 3; CallUnion 1 3]).
  - by constructor.
  - repeat constructor; unfold valid; lia.
  - by vm_compute.
Qed.

(** * The claims *)

(** C1. Along any sequence of calls on valid indices that starts from
    [NewUnionFind(n)], [Count()] is [n] minus the number of [Union] calls that
    returned true; and it is the number of distinct roots that [Find] returns
    over all the elements, which is the number of keys of the map that
    [GetComponents] builds by calling [Find] on each of them. *)
Theorem Count_after_successful_unions n t uf :
  trace n t uf →
  Count uf = n - successful_unions t ∧
  ∃ components uf',
    returns (λ f, GetComponents f uf) (components, uf') ∧
    Count uf = Z.of_nat (size components).
Proof.
  intros Ht. destruct (trace_inv _ _ _ Ht) as (Hwf & Hcount & _).
  split; [done|].
  destruct (GetComponents_spec n uf Hwf) as (m & uf' & Hret & _ & Hdom).
  exists m, uf'. split; [done|].
  unfold Count. by rewrite (wf_count _ _ Hwf), <- Hdom, size_dom.
Qed.

Lemma Count_after_successful_unions_witness :
  trace 4 (sample_calls ++ [(CallUnion 3 0, RetBool false)]) compressed_state ∧
  Count compressed_state =
    4 - successful_unions (sample_calls ++ [(CallUnion 3 0, RetBool false)]) ∧
  ∃ components uf',
    returns (λ f, GetComponents f compressed_state) (components, uf') ∧
    Count compressed_state = Z.of_nat (size components).
Proof.
  assert (trace 4 (sample_calls ++ [(CallUnion 3 0, RetBool false)]) compressed_state) as Ht.
  { apply (trace_call 4 _ sample_state (CallUnion 3 0) 3); [apply sample_trace| |by vm_compute].
    unfold valid_call, valid. lia. }
  split; [exact Ht|]. exact (Count_after_successful_unions 4 _ _ Ht).
Defined.

(** C2. In every reachable state [Connected] answers as an equivalence on
    the valid indices: [Connected(x, x)] is true, [Connected(x, y)] and
    [Connected(y, x)] agree, and true for [(x, y)] and [(y, z)] gives true for
    [(x, z)].  The state a [Connected] call leaves is reachable again and
    answers every question as the state before did, so the three properties
    hold of calls made one after the other as well. *)
Theorem Connected_equivalence n t uf x y z :
  trace n t uf → valid n x → valid n y → valid n z →
  (∃ uf', returns (λ f, Connected f uf x x) (true, uf')) ∧
  (∃ b uf1 uf2, returns (λ f, Connected f uf x y) (b, uf1) ∧
                returns (λ f, Connected f uf y x) (b, uf2)) ∧
  (∀ uf1 uf2, returns (λ f, Connected f uf x y) (true, uf1) →
              returns (λ f, Connected f uf y z) (true, uf2) →
              ∃ uf3, returns (λ f, Connected f uf x z) (true, uf3)) ∧
  (∀ b uf1, returns (λ f, Connected f uf x y) (b, uf1) →
            trace n (t ++ [(CallConnected x y, RetBool b)]) uf1 ∧
            ∀ u v c uf2, valid n u → valid n v →
                         returns (λ f, Connected f uf u v) (c, uf2) →
                         ∃ uf3, returns (λ f, Connected f uf1 u v) (c, uf3)).
Proof.
  intros Ht Hx Hy Hz. destruct (trace_inv _ _ _ Ht) as (Hwf & _ & _).
  assert (∀ u v c uf1, valid n u → valid n v →
                       returns (λ f, Connected f uf u v) (c, uf1) →
                       (c = true ↔ conn (parent uf) u v) ∧
                       same_reps (parent uf) (parent uf1) ∧ wf n uf1) as Hinv.
  { intros u v c uf1 Hu Hv [f Hf].
    destruct (Connected_inv n uf u v f c uf1 Hwf Hu Hv) as (Hc & Hwf1 & Hsame & _);
      [by apply Hf|done]. }
  split; [|split; [|split]].
  - destruct (Connected_spec n uf x x Hwf Hx Hx) as (b & uf' & Hret & Hb & _).
    exists uf'. replace true with b; [done|]. apply Hb.
    destruct (wf_total _ _ Hwf x Hx) as [r Hr]. by eapply conn_refl.
  - destruct (Connected_spec n uf x y Hwf Hx Hy) as (b & uf1 & Hret1 & Hb1 & _).
    destruct (Connected_spec n uf y x Hwf Hy Hx) as (b' & uf2 & Hret2 & Hb2 & _).
    exists b, uf1, uf2. split; [done|]. replace b with b'; [done|].
    apply (bool_agree _ _ _ _ Hb2 Hb1). split; apply conn_sym.
  - intros uf1 uf2 Hxy Hyz.
    destruct (Hinv _ _ _ _ Hx Hy Hxy) as (Hc1 & _).
    destruct (Hinv _ _ _ _ Hy Hz Hyz) as (Hc2 & _).
    destruct (Connected_spec n uf x z Hwf Hx Hz) as (b & uf3 & Hret & Hb & _).
    exists uf3. replace true with b; [done|]. apply Hb.
    eapply conn_trans; [by apply Hc1|by apply Hc2].
  - intros b uf1 Hxy. destruct (Hinv _ _ _ _ Hx Hy Hxy) as (_ & Hsame & Hwf1). split.
    + destruct Hxy as [f Hf]. eapply (trace_call n t uf _ f); [done|done|].
      simpl. by rewrite (Hf f).
    + intros u v c uf2 Hu Hv Huv.
      destruct (Hinv _ _ _ _ Hu Hv Huv) as (Hc & _).
      destruct (Connected_spec n uf1 u v Hwf1 Hu Hv) as (c' & uf3 & Hret & Hc' & _).
      exists uf3. replace c with c'; [done|].
      apply (bool_agree _ _ _ _ Hc' Hc). symmetry. by apply same_reps_conn.
Qed.

Lemma Connected_equivalence_witness :
  (trace 4 sample_calls sample_state ∧ valid 4 1 ∧ valid 4 3 ∧ valid 4 2) ∧
  (∃ uf', returns (λ f, Connected f sample_state 1 1) (true, uf')) ∧
  (∃ b uf1 uf2, returns (λ f, Connected f sample_state 1 3) (b, uf1) ∧
                returns (λ f, Connected f sample_state 3 1) (b, uf2)) ∧
  (∀ uf1 uf2, returns (λ f, Connected f sample_state 1 3) (true, uf1) →
              returns (λ f, Connected f sample_state 3 2) (true, uf2) →
              ∃ uf3, returns (λ f, Connected f sample_state 1 2) (true, uf3)) ∧
  (∀ b uf1, returns (λ f, Connected f sample_state 1 3) (b, uf1) →
            trace 4 (sample_calls ++ [(CallConnected 1 3, RetBool b)]) uf1 ∧
            ∀ u v c uf2, valid 4 u → valid 4 v →
                         returns (λ f, Connected f sample_state u v) (c, uf2) →
                         ∃ uf3, returns (λ f, Connected f uf1 u v) (c, uf3)).
Proof.
  assert (valid 4 1 ∧ valid 4 3 ∧ valid 4 2) as (H1 & H3 & H2) by (unfold valid; lia).
  split; [by repeat split; try apply sample_trace|].
  exact (Connected_equivalence 4 sample_calls sample_state 1 3 2 sample_trace H1 H3 H2).
Defined.

(** C3. Applying the same pairs to a fresh [NewUnionFind(n)] in two different
    orders gives states in which [Connected] returns the same answer for
    every two valid indices, whatever the parent slices look like. *)
Theorem Union_order_independent n ps1 ps2 uf1 uf2 x y :
  ps1 ≡ₚ ps2 → applied n ps1 uf1 → applied n ps2 uf2 →
  valid n x → valid n y →
  ∃ b uf1' uf2', returns (λ f, Connected f uf1 x y) (b, uf1') ∧
                 returns (λ f, Connected f uf2 x y) (b, uf2').
Proof.
  intros Hperm (t1 & Hps1 & Ht1) (t2 & Hps2 & Ht2) Hx Hy.
  destruct (trace_inv _ _ _ Ht1) as (Hwf1 & _ & Hconn1).
  destruct (trace_inv _ _ _ Ht2) as (Hwf2 & _ & Hconn2).
  rewrite (applied_union_pairs _ _ Hps1) in Hconn1.
  rewrite (applied_union_pairs _ _ Hps2) in Hconn2.
  destruct (Connected_spec n uf1 x y Hwf1 Hx Hy) as (b1 & uf1' & Hret1 & Hb1 & _).
  destruct (Connected_spec n uf2 x y Hwf2 Hx Hy) as (b2 & uf2' & Hret2 & Hb2 & _).
  exists b1, uf1', uf2'. split; [done|]. replace b1 with b2; [done|].
  apply (bool_agree _ _ _ _ Hb2 Hb1).
  rewrite Hconn1, Hconn2. symmetry. by apply joined_perm.
Qed.

Lemma Union_order_independent_witness :
  ([(0, 1); (2, 1)] ≡ₚ [(2, 1); (0, 1)] ∧
   applied 3 [(0, 1); (2, 1)] left_first_state ∧
   applied 3 [(2, 1); (0, 1)] right_first_state ∧
   valid 3 0 ∧ valid 3 2) ∧
  ∃ b uf1' uf2', returns (λ f, Connected f left_first_state 0 2) (b, uf1') ∧
                 returns (λ f, Connected f right_first_state 0 2) (b, uf2').
Proof.
  assert (trace 3 [] {| parent := seqZ 0 3; rank := [0; 0; 0]; count := 3 |}) as Hnew
    by by constructor.
  assert (applied 3 [(0, 1); (2, 1)] left_first_state) as H1.
  { exists [(CallUnion 0 1, RetBool true); (CallUnion 2 1, RetBool true)].
    split; [done|].
    apply (run_trace 3 [] _ 3 [CallUnion 0 1; CallUnion 2 1] _ _ Hnew);
      [repeat constructor; unfold valid; lia|by vm_compute]. }
  assert (applied 3 [(2, 1); (0, 1)] right_first_state) as H2.
  { exists [(CallUnion 2 1, RetBool true); (CallUnion 0 1, RetBool true)].
    split; [done|].
    apply (run_trace 3 [] _ 3 [CallUnion 2 1; CallUnion 0 1] _ _ Hnew);
      [repeat constructor; unfold valid; lia|by vm_compute]. }
  assert (valid 3 0 ∧ valid 3 2) as [Hx Hy] by (unfold valid; lia).
  assert ([(0, 1); (2, 1)] ≡ₚ [(2, 1); (0, 1)]) as Hp by apply Permutation_swap.
  split; [done|].
  exact (Union_order_independent 3 _ _ _ _ 0 2 Hp H1 H2 Hx Hy).
Defined.

(** C4. In every reachable state, a valid [i] has [parent[i] == i] exactly
    when it is a root, that is when [Find(i)] returns [i]; following the
    parent pointers from [i] arrives at a self-loop after finitely many steps;
    no pointer chain leads back to where it started except a self-loop; and
    [Find(i)] returns. *)
Theorem parent_chains_end_at_roots n t uf i :
  trace n t uf → valid n i →
  (lookupZ (parent uf) i = Some i ↔ ∃ uf', returns (λ f, Find f uf i) (i, uf')) ∧
  (∃ k r, follow (parent uf) k i = Some r ∧ lookupZ (parent uf) r = Some r) ∧
  (∀ k, (0 < k)%nat → follow (parent uf) k i = Some i → lookupZ (parent uf) i = Some i) ∧
  (∃ r uf', returns (λ f, Find f uf i) (r, uf')).
Proof.
  intros Ht Hi. destruct (trace_inv _ _ _ Ht) as (Hwf & _ & _).
  destruct (wf_total _ _ Hwf i Hi) as [r Hr].
  destruct (Find_spec uf i r Hr) as (uf' & Hret & _).
  split; [|split; [|split]].
  - rewrite <- reaches_self. split.
    + intros Hii. destruct (reaches_det _ _ _ _ Hii Hr). by exists uf'.
    + intros [uf'' Hret']. by pose proof (returns_inj _ _ _ Hret Hret') as [= <- _].
  - apply reaches_follow in Hr as (k & Hk & Hroot & _). by exists k, r.
  - intros k. by apply reaches_no_cycle with r.
  - by exists r, uf'.
Qed.

Lemma parent_chains_end_at_roots_witness :
  (trace 4 sample_calls sample_state ∧ valid 4 3) ∧
  (lookupZ (parent sample_state) 3 = Some 3 ↔
   ∃ uf', returns (λ f, Find f sample_state 3) (3, uf')) ∧
  (∃ k r, follow (parent sample_state) k 3 = Some r ∧
          lookupZ (parent sample_state) r = Some r) ∧
  (∀ k, (0 < k)%nat → follow (parent sample_state) k 3 = Some 3 →
        lookupZ (parent sample_state) 3 = Some 3) ∧
  (∃ r uf', returns (λ f, Find f sample_state 3) (r, uf')).
Proof.
  assert (valid 4 3) as H3 by (unfold valid; lia).
  split; [split; [apply sample_trace|exact H3]|].
  exact (parent_chains_end_at_roots 4 sample_calls sample_state 3 sample_trace H3).
Defined.

(** C5. In every reachable state, when [Connected(x, y)] is true, [Union(x, y)]
    returns false, an ordinary boolean result and no panic, and leaves
    [Count()] as it was; so it does in the state the [Connected] call left. *)
Theorem Union_of_connected_returns_false n t uf x y uf1 :
  trace n t uf → valid n x → valid n y →
  returns (λ f, Connected f uf x y) (true, uf1) →
  (∃ uf2, returns (λ f, Union f uf x y) (false, uf2) ∧ Count uf2 = Count uf) ∧
  (∃ uf2, returns (λ f, Union f uf1 x y) (false, uf2) ∧ Count uf2 = Count uf1).
Proof.
  intros Ht Hx Hy [f Hf]. destruct (trace_inv _ _ _ Ht) as (Hwf & _ & _).
  destruct (Connected_inv n uf x y f true uf1 Hwf Hx Hy) as (Hc & Hwf1 & Hsame & _);
    [by apply Hf|].
  assert (conn (parent uf) x y) as Hconn by by apply Hc.
  split.
  - destruct (Union_spec n uf x y Hwf Hx Hy) as (b & uf2 & Hret & Hb & _ & Hcount & _).
    apply Hb in Hconn as ->. exists uf2. split; [done|]. unfold Count. lia.
  - destruct (Union_spec n uf1 x y Hwf1 Hx Hy) as (b & uf2 & Hret & Hb & _ & Hcount & _).
    apply (same_reps_conn _ _ x y Hsame), Hb in Hconn as ->.
    exists uf2. split; [done|]. unfold Count. lia.
Qed.

Lemma Union_of_connected_returns_false_witness :
  (trace 4 sample_calls sample_state ∧ valid 4 1 ∧ valid 4 3 ∧
   returns (λ f, Connected f sample_state 1 3) (true, compressed_state)) ∧
  (∃ uf2, returns (λ f, Union f sample_state 1 3) (false, uf2) ∧
          Count uf2 = Count sample_state) ∧
  (∃ uf2, returns (λ f, Union f compressed_state 1 3) (false, uf2) ∧
          Count uf2 = Count compressed_state).
Proof.
  assert (valid 4 1 ∧ valid 4 3) as [H1 H3] by (unfold valid; lia).
  assert (returns (λ f, Connected f sample_state 1 3) (true, compressed_state)) as Hc.
  { apply (returns_of_monotone _ 3%nat); [apply Connected_monotone|by vm_compute]. }
  split; [by repeat split; try apply sample_trace|].
  exact (Union_of_connected_returns_false 4 sample_calls sample_state 1 3
           compressed_state sample_trace H1 H3 Hc).
Defined.

(** C6. [DetectCycle(n, edges)] goes through the edges in input order and
    returns true exactly when some edge has its endpoints already joined by
    the edges before it, and false otherwise.  It returns at the first such
    edge: whatever follows that edge in the slice, even edges on indices out
    of range, leaves the answer true.  On the triangle of the demonstration it
    returns true and on the path it returns false. *)
Theorem DetectCycle_correct :
  (∀ n edges,
     0 ≤ n ≤ max_int → Forall (valid_edge n) edges →
     (∃ b, returns (λ f, DetectCycle f n edges) b ∧ (b = true ↔ closes_cycle n edges)) ∧
     (∀ before e after rest,
        edges = before ++ e :: after →
        joined n (edge_pair <$> before) (From e) (To e) →
        returns (λ f, DetectCycle f n (before ++ e :: rest)) true)) ∧
  returns (λ f, DetectCycle f 3 cyclicEdges) true ∧
  returns (λ f, DetectCycle f 4 acyclicEdges) false.
Proof.
  assert (∀ n edges, 0 ≤ n ≤ max_int → Forall (valid_edge n) edges →
                     ∃ b, returns (λ f, DetectCycle f n edges) b ∧
                          (b = true ↔ closes_cycle n edges)) as Hmain.
  { intros n edges Hn Hedges. unfold DetectCycle. rewrite NewUnionFind_Ok by done.
    pose proof (NewUnionFind_wf n _ (NewUnionFind_Ok n Hn)) as Hwf.
    destruct (DetectCycle_loop_spec n _ [] edges Hwf) as (b & Hret & Hb); [|done|].
    { intros u v. simpl. by rewrite conn_seqZ, joined_nil. }
    by exists b. }
  split; [|split].
  - intros n edges Hn Hedges. split; [by apply Hmain|].
    intros before e after rest -> Hj.
    apply Forall_app in Hedges as [Hbefore Hrest].
    apply Forall_cons in Hrest as [He _].
    destruct (Hmain n (before ++ [e]) Hn) as (b & [f0 Hret] & Hb).
    { apply Forall_app. split; [done|]. by apply Forall_singleton. }
    assert (b = true) as ->.
    { apply Hb. by exists before, e, []. }
    exists f0. intros f Hf. specialize (Hret f Hf). unfold DetectCycle in *.
    destruct (NewUnionFind n) as [uf| |]; simpl in *; [|done..].
    by apply DetectCycle_loop_short_circuit.
  - apply (returns_of_monotone _ 2%nat); [apply DetectCycle_monotone|by vm_compute].
  - apply (returns_of_monotone _ 2%nat); [apply DetectCycle_monotone|by vm_compute].
Qed.

Lemma DetectCycle_correct_witness :
  (0 ≤ 4 ≤ max_int ∧ Forall (valid_edge 4) doubledEdges) ∧
  (∃ b, returns (λ f, DetectCycle f 4 doubledEdges) b ∧
        (b = true ↔ closes_cycle 4 doubledEdges)) ∧
  (∀ before e after rest,
     doubledEdges = before ++ e :: after →
     joined 4 (edge_pair <$> before) (From e) (To e) →
     returns (λ f, DetectCycle f 4 (before ++ e :: rest)) true).
Proof.
  assert (0 ≤ 4 ≤ max_int) as Hn by (unfold max_int; lia).
  assert (Forall (valid_edge 4) doubledEdges) as Hedges
    by (repeat constructor; simpl; lia).
  split; [by split|].
  exact (proj1 DetectCycle_correct 4 doubledEdges Hn Hedges).
Defined.

(** C7. On 9 vertices and the 14 edges of the demonstration, whatever order
    [sort.Slice] leaves edges of equal weight in, [KruskalMST] returns a tree
    of exactly 8 edges and total weight 37. *)
Theorem KruskalMST_demo sort_Slice :
  sort_contract sort_Slice →
  ∃ mst, returns (λ f, (KruskalMST sort_Slice f 9 demoEdges).2) (mst, 37) ∧
         length mst = 8%nat.
Proof.
  intros Hsort.
  destruct (Hsort demoEdges less_weight less_weight_ordering) as [Hperm Hord].
  apply ordered_less_weight in Hord.
  pose proof (elem_of_arrangements _ _ Hperm Hord) as Hin.
  pose proof demo_arrangements as Hall.
  rewrite forallb_forall in Hall. apply list_elem_of_In, Hall in Hin.
  unfold demo_tree in Hin.
  destruct (NewUnionFind 9 ≫= _) as [[mst w]| |] eqn:E; [|done..].
  apply bool_decide_eq_true in Hin as [Hlen ->].
  exists mst. split; [|done].
  apply (returns_of_monotone _ 9%nat); [apply KruskalMST_monotone|exact E].
Qed.

Lemma KruskalMST_demo_witness :
  sort_contract insertion_sort ∧
  ∃ mst, returns (λ f, (KruskalMST insertion_sort f 9 demoEdges).2) (mst, 37) ∧
         length mst = 8%nat.
Proof.
  split; [exact insertion_sort_contract|].
  exact (KruskalMST_demo insertion_sort insertion_sort_contract).
Defined.

(** C9. In every reachable state, an index outside [0, n) makes [Find],
    [Union] and [Connected] panic: at once when it comes first, and in
    [Union] and [Connected] after the [Find] of a valid first argument when
    it comes second.  The panic is the call's outcome: nothing is clamped
    and under no budget does such a call return a value. *)
Theorem out_of_range_index_panics n t uf x y :
  trace n t uf → ¬ valid n x →
  (∀ f, Find (S f) uf x = Panic) ∧
  (∀ f, Union (S f) uf x y = Panic) ∧
  (∀ f, Connected (S f) uf x y = Panic) ∧
  (valid n y → panics (λ f, Union f uf y x) ∧ panics (λ f, Connected f uf y x)) ∧
  (∀ f v, Find f uf x ≠ Ok v) ∧
  (∀ f v, Union f uf x y ≠ Ok v ∧ Connected f uf x y ≠ Ok v) ∧
  (valid n y → ∀ f v, Union f uf y x ≠ Ok v ∧ Connected f uf y x ≠ Ok v).
Proof.
  intros Ht Hx. destruct (trace_inv _ _ _ Ht) as (Hwf & _ & _).
  assert (∀ uf' f, wf n uf' → Find (S f) uf' x = Panic) as Hfind.
  { intros uf' f Hwf'. apply Find_out_of_range.
    rewrite (wf_parent _ _ Hwf'). exact Hx. }
  assert (valid n y → panics (λ f, Union f uf y x) ∧ panics (λ f, Connected f uf y x))
    as Hsecond.
  { intros Hy. destruct (wf_total _ _ Hwf y Hy) as [r Hr].
    destruct (Find_spec uf y r Hr) as (uf1 & [f0 Hret] & Hsame & Hrank & Hcount).
    pose proof (wf_same_reps n uf uf1 Hwf Hsame Hrank Hcount) as Hwf1.
    split; exists (S f0); intros [|f] Hf; try lia.
    + unfold Union. rewrite Hret by lia. cbn -[Find]. by rewrite Hfind.
    + unfold Connected. rewrite Hret by lia. cbn -[Find]. by rewrite Hfind. }
  split; [|split; [|split; [|split; [|split; [|split]]]]].
  - intros f. by apply Hfind.
  - intros f. unfold Union. by rewrite Hfind.
  - intros f. unfold Connected. by rewrite Hfind.
  - exact Hsecond.
  - intros [|f] v; [done|]. by rewrite Hfind.
  - intros [|f] v; [done|]. unfold Union, Connected. by rewrite Hfind.
  - intros Hy f v. destruct (Hsecond Hy) as [HU HC]. split; intros Hok.
    + apply (returns_not_panics _ v) in HU; [done|].
      by apply (returns_of_monotone _ f); [apply Union_monotone|].
    + apply (returns_not_panics _ v) in HC; [done|].
      by apply (returns_of_monotone _ f); [apply Connected_monotone|].
Qed.

Lemma out_of_range_index_panics_witness :
  (trace 4 sample_calls sample_state ∧ ¬ valid 4 4) ∧
  (∀ f, Find (S f) sample_state 4 = Panic) ∧
  (∀ f, Union (S f) sample_state 4 1 = Panic) ∧
  (∀ f, Connected (S f) sample_state 4 1 = Panic) ∧
  (valid 4 1 → panics (λ f, Union f sample_state 1 4) ∧
               panics (λ f, Connected f sample_state 1 4)) ∧
  (∀ f v, Find f sample_state 4 ≠ Ok v) ∧
  (∀ f v, Union f sample_state 4 1 ≠ Ok v ∧ Connected f sample_state 4 1 ≠ Ok v) ∧
  (valid 4 1 → ∀ f v, Union f sample_state 1 4 ≠ Ok v ∧
                      Connected f sample_state 1 4 ≠ Ok v).
Proof.
  assert (¬ valid 4 4) as Hx by (unfold valid; lia).
  split; [split; [apply sample_trace|exact Hx]|].
  exact (out_of_range_index_panics 4 sample_calls sample_state 4 1 sample_trace Hx).
Defined.

(** C10. [KruskalMST] sorts the slice it is given in place: once the call is
    over, whatever it returned, the caller's slice holds its edges
    rearranged in ascending order of weight, which is not the order they
    were handed over in unless that was ascending already. *)
Theorem KruskalMST_sorts_in_place sort_Slice f n edges :
  sort_contract sort_Slice →
  let after := (KruskalMST sort_Slice f n edges).1 in
  after ≡ₚ edges ∧ ascending after ∧ (¬ ascending edges → after ≠ edges).
Proof.
  intros Hsort after.
  destruct (Hsort edges less_weight less_weight_ordering) as [Hperm Hord].
  apply ordered_less_weight in Hord.
  split; [done|]. split; [done|]. intros Hn Heq. apply Hn. by rewrite <- Heq.
Qed.

Lemma KruskalMST_sorts_in_place_witness :
  sort_contract insertion_sort ∧
  (KruskalMST insertion_sort 9 9 demoEdges).1 ≡ₚ demoEdges ∧
  ascending (KruskalMST insertion_sort 9 9 demoEdges).1 ∧
  (¬ ascending demoEdges → (KruskalMST insertion_sort 9 9 demoEdges).1 ≠ demoEdges).
Proof.
  split; [exact insertion_sort_contract|].
  exact (KruskalMST_sorts_in_place insertion_sort 9 9 demoEdges insertion_sort_contract).
Defined.

(** * Further properties of the structure *)

(** ** What callers observe of a well-formed state *)

Lemma wf_finds n uf x r :
  wf n uf → valid n x → finds uf x r ↔ reaches (parent uf) x r.
Proof.
  intros Hwf Hx. split.
  - intros (uf' & f & Hf).
    by destruct (Find_inv n uf x f r uf' Hwf Hx (Hf f (le_n f))) as (Hr & _).
  - intros Hr. destruct (Find_spec uf x r Hr) as (uf' & Hret & _). by exists uf'.
Qed.

Lemma wf_answers n uf x y b :
  wf n uf → valid n x → valid n y →
  answers uf x y b ↔ (b = true ↔ conn (parent uf) x y).
Proof.
  intros Hwf Hx Hy. split.
  - intros (uf' & f & Hf).
    by destruct (Connected_inv n uf x y f b uf' Hwf Hx Hy (Hf f (le_n f))) as (Hb & _).
  - intros Hb. destruct (Connected_spec n uf x y Hwf Hx Hy) as (c & uf' & Hret & Hc & _).
    exists uf'. replace b with c; [done|]. by apply (bool_agree _ _ _ _ Hc Hb).
Qed.

Lemma conn_root l x r : reaches l x r → conn l x r.
Proof. intros Hx. exists r. split; [done|]. constructor. by eapply reaches_end. Qed.

(** ** Path compression *)

Lemma on_path_start l x : on_path l x x.
Proof. by exists O. Qed.

Lemma on_path_step l x p z :
  lookupZ l x = Some p → on_path l x z ↔ z = x ∨ on_path l p z.
Proof.
  intros Hx. split.
  - intros [[|k] Hk]; simpl in Hk.
    + left. congruence.
    + right. rewrite Hx in Hk. by exists k.
  - intros [->|[k Hk]]; [apply on_path_start|].
    exists (S k). simpl. by rewrite Hx.
Qed.

Lemma on_path_root l r z : lookupZ l r = Some r → on_path l r z → z = r.
Proof. intros Hr [k Hk]. rewrite (follow_root _ _ _ Hr) in Hk. congruence. Qed.

Lemma on_path_end l x r : reaches l x r → on_path l x r.
Proof. intros (k & Hk & _)%reaches_follow. by exists k. Qed.

(** [Find] relinks exactly the chain it walks, and relinks it to the root. *)
Lemma Find_compress uf x r :
  reaches (parent uf) x r →
  ∃ uf', returns (λ f, Find f uf x) (r, uf') ∧
         rank uf' = rank uf ∧ count uf' = count uf ∧
         (∀ z, on_path (parent uf) x z → lookupZ (parent uf') z = Some r) ∧
         (∀ z, ¬ on_path (parent uf) x z →
               lookupZ (parent uf') z = lookupZ (parent uf) z).
Proof.
  intros H.
  cut (∃ f uf', Find f uf x = Ok (r, uf') ∧
                rank uf' = rank uf ∧ count uf' = count uf ∧
                length (parent uf') = length (parent uf) ∧
                (∀ z, on_path (parent uf) x z → lookupZ (parent uf') z = Some r) ∧
                (∀ z, ¬ on_path (parent uf) x z →
                      lookupZ (parent uf') z = lookupZ (parent uf) z)).
  { intros (f & uf' & Hf & Hrank & Hcount & _ & Hon & Hoff). exists uf'.
    split; [|done]. eapply returns_of_monotone; [apply Find_monotone|done]. }
  induction H as [r Hr|x p r Hx Hne Hp (f & uf1 & Hf & Hrank & Hcount & Hlen & Hon & Hoff)].
  - exists 1%nat, uf. simpl. rewrite (index_Some _ _ _ Hr). simpl.
    rewrite decide_False by (by intros []). simpl.
    rewrite (index_Some _ _ _ Hr). simpl.
    repeat split; try done.
    intros z Hz. by rewrite (on_path_root _ _ _ Hr Hz).
  - pose proof (lookupZ_Some_range _ _ _ Hx) as Hrange. rewrite <- Hlen in Hrange.
    exists (S f), (with_parent uf1 (<[Z.to_nat x := r]> (parent uf1))). simpl.
    rewrite (index_Some _ _ _ Hx). simpl. rewrite decide_True by done.
    rewrite Hf. simpl. rewrite assign_Ok by done. simpl.
    rewrite (index_Some _ _ r) by (by apply lookupZ_insert_eq). simpl.
    split; [done|]. split; [done|]. split; [done|].
    split; [by rewrite length_insert|]. split.
    + intros z [->|Hz]%(on_path_step _ _ _ _ Hx).
      * by apply lookupZ_insert_eq.
      * destruct (decide (x = z)) as [->|Hxz]; [by apply lookupZ_insert_eq|].
        rewrite lookupZ_insert_ne by (done || lia). by apply Hon.
    + intros z Hz.
      assert (x ≠ z) as Hxz by (intros ->; apply Hz, on_path_start).
      rewrite lookupZ_insert_ne by (done || lia). apply Hoff.
      intros Hpz. apply Hz. apply (on_path_step _ _ _ _ Hx). by right.
Qed.

(** On an element that points at a self-loop, [Find] changes nothing. *)
Lemma Find_flat uf x r f :
  lookupZ (parent uf) x = Some r → lookupZ (parent uf) r = Some r →
  Find (S (S f)) uf x = Ok (r, uf).
Proof.
  intros Hx Hr.
  assert (∀ g, Find (S g) uf r = Ok (r, uf)) as Hroot.
  { intros g. simpl. rewrite (index_Some _ _ _ Hr). simpl.
    rewrite decide_False by (by intros []). simpl.
    by rewrite (index_Some _ _ _ Hr). }
  destruct (decide (r = x)) as [->|Hne]; [apply Hroot|].
  pose proof (lookupZ_Some_range _ _ _ Hx) as Hrange.
  change (Find (S (S f)) uf x) with
    (p ← index (parent uf) x;
     uf' ← (if decide (p ≠ x) then
              p ← index (parent uf) x;
              '(r, uf) ← Find (S f) uf p;
              parent' ← assign (parent uf) x r;
              Ok (with_parent uf parent')
            else Ok uf);
     r ← index (parent uf') x;
     Ok (r, uf')).
  rewrite (index_Some _ _ _ Hx). simpl. rewrite decide_True by done.
  change (Find f uf r ≫= _) with (Find f uf r ≫= (λ x, Ok x)).
  assert (<[Z.to_nat x := r]> (parent uf) = parent uf) as Hid.
  { apply list_insert_id. unfold lookupZ in Hx. by rewrite decide_True in Hx by lia. }
  assert (with_parent uf (parent uf) = uf) as Heta by by destruct uf.
  rewrite (index_Some _ _ _ Hr). simpl.
  rewrite decide_False by (by intros []). simpl.
  rewrite (index_Some _ _ _ Hr). simpl.
  rewrite assign_Ok by done. simpl. rewrite Hid, Heta.
  by rewrite (index_Some _ _ _ Hx).
Qed.

Lemma on_path_dec l x r z :
  reaches l x r → on_path l x z ∨ ¬ on_path l x z.
Proof.
  induction 1 as [r Hr|x p r Hx Hne _ [IH|IH]].
  - destruct (decide (z = r)) as [->|Hz]; [left; apply on_path_start|].
    right. intros Hp. by apply Hz, (on_path_root l r).
  - left. apply (on_path_step _ _ _ _ Hx). by right.
  - destruct (decide (z = x)) as [->|Hz]; [left; apply on_path_start|].
    right. intros [?|?]%(on_path_step _ _ _ _ Hx); done.
Qed.

(** [Find] with everything it is known to do. *)
Lemma Find_full n uf x :
  wf n uf → valid n x →
  ∃ r uf', returns (λ f, Find f uf x) (r, uf') ∧ reaches (parent uf) x r ∧
           wf n uf' ∧ same_reps (parent uf) (parent uf') ∧
           rank uf' = rank uf ∧ count uf' = count uf ∧
           (∀ z, on_path (parent uf) x z → lookupZ (parent uf') z = Some r) ∧
           (∀ z, ¬ on_path (parent uf) x z →
                 lookupZ (parent uf') z = lookupZ (parent uf) z).
Proof.
  intros Hwf Hx. destruct (wf_total n uf Hwf x Hx) as [r Hr].
  destruct (Find_spec uf x r Hr) as (uf' & Hret & Hsame & Hrank & Hcount).
  destruct (Find_compress uf x r Hr) as (uf'' & Hret' & _ & _ & Hon & Hoff).
  pose proof (returns_inj _ _ _ Hret Hret') as [= <-].
  exists r, uf'. eauto 10 using wf_same_reps.
Qed.

(** An element that points at a self-loop still does after a [Find]. *)
Lemma Find_keeps_flat n uf x r uf' z rz :
  wf n uf → valid n x → returns (λ f, Find f uf x) (r, uf') →
  lookupZ (parent uf) z = Some rz → lookupZ (parent uf) rz = Some rz →
  lookupZ (parent uf') z = Some rz.
Proof.
  intros Hwf Hx Hret Hz Hrz.
  destruct (Find_full n uf x Hwf Hx) as (r0 & uf0 & Hret0 & Hr & _ & _ & _ & _ & Hon & Hoff).
  pose proof (returns_inj _ _ _ Hret Hret0) as [= <- <-].
  destruct (on_path_dec _ _ _ z Hr) as [Hp|Hp].
  - rewrite (Hon z Hp). f_equal.
    assert (reaches (parent uf) z rz) as Hzr.
    { destruct (decide (rz = z)) as [->|Hne]; [by constructor|].
      eapply reaches_step; [done..|by constructor]. }
    destruct Hp as [k Hk]. clear Hon Hoff Hret Hret0.
    revert x r Hx Hr Hk. induction k as [|k IH]; intros x r Hx Hr Hk; simpl in Hk.
    + injection Hk as ->. by eapply reaches_det.
    + destruct Hr as [r Hr|x p r Hxp Hne Hpr].
      * rewrite Hr in Hk. simpl in Hk. rewrite (follow_root _ _ _ Hr) in Hk.
        injection Hk as <-. by eapply reaches_det; [constructor|].
      * rewrite Hxp in Hk. simpl in Hk. apply (IH p); [|done..].
        pose proof (reaches_range _ _ _ Hpr) as Hrange.
        rewrite (wf_parent _ _ Hwf) in Hrange. done.
  - by rewrite (Hoff z Hp).
Qed.

(** ** [GetComponents], member by member *)

Lemma GetComponents_loop_members n k i uf (m : gmap Z (list Z)) :
  wf n uf → 0 ≤ i → i + Z.of_nat k = n →
  (∀ root, StronglySorted Z.lt (default [] (m !! root)) ∧
           (∀ j, j ∈ default [] (m !! root) ↔ 0 ≤ j < i ∧ reaches (parent uf) j root) ∧
           m !! root ≠ Some []) →
  (∀ j, 0 ≤ j < i → ∃ r, lookupZ (parent uf) j = Some r ∧ lookupZ (parent uf) r = Some r) →
  ∃ m' uf', returns (λ f, GetComponents_loop f k i uf m) (m', uf') ∧
            wf n uf' ∧ same_reps (parent uf) (parent uf') ∧
            rank uf' = rank uf ∧ count uf' = count uf ∧
            (∀ root, StronglySorted Z.lt (default [] (m' !! root)) ∧
                     (∀ j, j ∈ default [] (m' !! root) ↔
                           0 ≤ j < n ∧ reaches (parent uf) j root) ∧
                     m' !! root ≠ Some []) ∧
            (∀ j, 0 ≤ j < n →
                  ∃ r, lookupZ (parent uf') j = Some r ∧ lookupZ (parent uf') r = Some r).
Proof.
  revert i uf m. induction k as [|k IH]; intros i uf m Hwf Hi Hn Hm Hflat.
  - exists m, uf. split; [by exists O|]. split; [done|].
    split; [apply same_reps_refl|]. split; [done|]. split; [done|].
    replace n with i by lia. done.
  - assert (valid n i) as Hv by (unfold valid; lia).
    destruct (Find_full n uf i Hwf Hv)
      as (r0 & uf1 & Hret & Hr0 & Hwf1 & Hsame & Hrank & Hcount & Hon & Hoff).
    destruct (IH (i + 1) uf1 (<[r0 := default [] (m !! r0) ++ [i]]> m))
      as (m' & uf' & Hret' & Hwf' & Hsame' & Hrank' & Hcount' & Hm' & Hflat');
      [done|lia|lia| | |].
    + intros root. destruct Hsame as [_ Hsame].
      destruct (decide (root = r0)) as [->|Hne].
      * rewrite lookup_insert_eq. simpl. destruct (Hm r0) as (Hsort & Hmem & _).
        split; [|split; [|by destruct (default [] (m !! r0))]].
        -- apply StronglySorted_app_2; [|done|repeat constructor].
           intros j1 j2 Hj1%Hmem Hj2%list_elem_of_singleton. lia.
        -- intros j. rewrite elem_of_app, list_elem_of_singleton, Hmem, <- Hsame.
           split.
           ++ intros [[Hj Hjr]| ->]; (split; [lia|done]).
           ++ intros [Hj Hjr]. destruct (decide (j = i)) as [->|Hji]; [by right|].
              left. split; [lia|done].
      * rewrite lookup_insert_ne by done. destruct (Hm root) as (Hsort & Hmem & Hne').
        split; [done|]. split; [|done].
        intros j. rewrite Hmem, <- Hsame. split.
        -- intros [Hj Hjr]. split; [lia|done].
        -- intros [Hj Hjr]. split; [|done].
           assert (j ≠ i); [|lia]. intros ->. apply Hne. by eapply reaches_det.
    + intros j Hj. destruct (decide (j = i)) as [->|Hji].
      * exists r0. split; [apply Hon, on_path_start|apply Hon, on_path_end, Hr0].
      * destruct (Hflat j) as (r & Hjr & Hrr); [lia|]. exists r.
        split; by eapply (Find_keeps_flat n uf i).
    + exists m', uf'. split; [|split; [done|split; [|split; [congruence|split; [congruence|]]]]].
      * simpl. by apply (returns_bind (λ f, Find f uf i) _ _ _ Hret).
      * by eapply same_reps_trans.
      * split; [|done]. intros root. destruct (Hm' root) as (Hsort & Hmem & Hne).
        split; [done|]. split; [|done]. intros j. rewrite Hmem.
        destruct Hsame as [_ Hsame]. by rewrite <- Hsame.
Qed.

(** ** Counting classes *)

Lemma wf_classes n uf ps :
  wf n uf → (∀ u v, conn (parent uf) u v ↔ joined n ps u v) →
  classes n ps (count uf).
Proof.
  intros Hwf Hconn. exists (elements (roots (parent uf))).
  split; [apply NoDup_elements|]. split; [by rewrite (wf_count _ _ Hwf)|]. split.
  - apply Forall_forall. intros r Hr%elem_of_elements%elem_of_roots.
    apply lookupZ_Some_range in Hr. by rewrite (wf_parent _ _ Hwf) in Hr.
  - intros x Hx. destruct (wf_total _ _ Hwf x Hx) as [r Hr]. exists r.
    split; [|split].
    + apply elem_of_elements, elem_of_roots. by eapply reaches_end.
    + by apply Hconn, conn_root.
    + intros r' Hr'%elem_of_elements%elem_of_roots (r0 & Hx0 & Hr0)%Hconn.
      rewrite (reaches_from_root _ _ _ Hr' Hr0) in Hx0. by eapply reaches_det.
Qed.

Lemma classes_le n ps ps' reps reps' :
  (∀ x y, joined n ps x y ↔ joined n ps' x y) →
  NoDup reps → Forall (valid n) reps →
  (∀ x, valid n x → ∃ r, r ∈ reps ∧ joined n ps x r ∧
                         ∀ r', r' ∈ reps → joined n ps x r' → r' = r) →
  (∀ x, valid n x → ∃ r, r ∈ reps' ∧ joined n ps' x r) →
  (length reps ≤ length reps')%nat.
Proof.
  intros Hsame Hnd Hvalid Huniq Hcover.
  assert (∀ r1 r2, r1 ∈ reps → r2 ∈ reps → joined n ps r1 r2 → r1 = r2) as Hsep.
  { intros r1 r2 H1 H2 H12. rewrite Forall_forall in Hvalid.
    destruct (Huniq r1 (Hvalid _ H1)) as (r0 & _ & _ & Hu).
    rewrite (Hu r1 H1), (Hu r2 H2); [done..|]. constructor. by apply Hvalid. }
  assert (∃ img, Forall2 (λ r r', r' ∈ reps' ∧ joined n ps r r') reps img) as [img Himg].
  { clear Hnd Hsep Huniq. induction Hvalid as [|r reps Hr _ [img IH]].
    - by exists [].
    - destruct (Hcover r Hr) as (r' & Hin & Hj). exists (r' :: img).
      constructor; [|done]. split; [done|]. by apply Hsame. }
  rewrite (Forall2_length _ _ _ Himg). apply submseteq_length, NoDup_submseteq.
  - clear Hvalid Huniq Hcover. induction Himg as [|r r' reps img [Hr' Hj] Himg IH].
    + constructor.
    + apply NoDup_cons in Hnd as [Hnin Hnd]. apply NoDup_cons. split.
      * intros Hin. apply Hnin.
        apply list_elem_of_lookup in Hin as [i Hi].
        destruct (Forall2_lookup_r _ _ _ _ _ Himg Hi) as (r2 & Hr2 & _ & Hj2).
        assert (r2 ∈ reps) as Hin2 by (apply list_elem_of_lookup; eauto).
        replace r with r2; [done|]. symmetry. apply Hsep.
        -- apply list_elem_of_here.
        -- by apply list_elem_of_further.
        -- eapply joined_trans; [done|by apply joined_sym].
      * apply IH; [done|].
        intros r1 r2 H1 H2. apply Hsep; by apply list_elem_of_further.
  - intros r' Hin. apply list_elem_of_lookup in Hin as [i Hi].
    by destruct (Forall2_lookup_r _ _ _ _ _ Himg Hi) as (r2 & _ & Hr' & _).
Qed.

(** The number of classes is a property of the equivalence alone. *)
Lemma classes_unique n ps ps' k k' :
  (∀ x y, joined n ps x y ↔ joined n ps' x y) →
  classes n ps k → classes n ps' k' → k = k'.
Proof.
  intros Hsame (reps & Hnd & <- & Hvalid & Hrep) (reps' & Hnd' & <- & Hvalid' & Hrep').
  assert (length reps ≤ length reps')%nat.
  { apply (classes_le n ps ps'); try done.
    intros x Hx. destruct (Hrep' x Hx) as (r & ? & ? & _). eauto. }
  assert (length reps' ≤ length reps)%nat.
  { apply (classes_le n ps' ps); try done.
    intros x Hx. destruct (Hrep x Hx) as (r & ? & ? & _). eauto. }
  lia.
Qed.

Lemma classes_bounds n ps k : 0 ≤ n → classes n ps k → 0 ≤ k ≤ n ∧ (0 < n → 0 < k).
Proof.
  intros Hn0 (reps & Hnd & <- & Hvalid & Hrep). split; [split; [lia|]|].
  - assert (length reps ≤ length (seqZ 0 n))%nat as Hle.
    { apply submseteq_length, NoDup_submseteq; [done|].
      intros r Hr. rewrite Forall_forall in Hvalid. apply elem_of_seqZ.
      specialize (Hvalid r Hr). unfold valid in Hvalid. lia. }
    rewrite length_seqZ in Hle. lia.
  - intros Hn. destruct (Hrep 0) as (r & Hr & _); [unfold valid; lia|].
    destruct reps; [by apply elem_of_nil in Hr|simpl; lia].
Qed.




(** * Properties of single calls *)

(** X1. Path compression.  In a reachable state [Find(x)] returns a self-loop
    [r]; afterwards [x] and every element on the pointer chain from [x] point
    directly at [r], every other entry of [parent] is as it was, and [rank]
    and [Count()] are untouched. *)
Theorem Find_compresses_the_path n t uf x :
  trace n t uf → valid n x →
  ∃ r uf', returns (λ f, Find f uf x) (r, uf') ∧
           lookupZ (parent uf') r = Some r ∧
           (∀ z, on_path (parent uf) x z → lookupZ (parent uf') z = Some r) ∧
           (∀ z, ¬ on_path (parent uf) x z →
                 lookupZ (parent uf') z = lookupZ (parent uf) z) ∧
           rank uf' = rank uf ∧ Count uf' = Count uf.
Proof.
  intros Ht Hx. destruct (trace_inv _ _ _ Ht) as (Hwf & _ & _).
  destruct (Find_full n uf x Hwf Hx)
    as (r & uf' & Hret & Hr & _ & _ & Hrank & Hcount & Hon & Hoff).
  exists r, uf'. split; [done|]. split; [by apply Hon, on_path_end|]. done.
Qed.

Lemma Find_compresses_the_path_witness :
  (trace 4 sample_calls sample_state ∧ valid 4 3) ∧
  ∃ r uf', returns (λ f, Find f sample_state 3) (r, uf') ∧
           lookupZ (parent uf') r = Some r ∧
           (∀ z, on_path (parent sample_state) 3 z → lookupZ (parent uf') z = Some r) ∧
           (∀ z, ¬ on_path (parent sample_state) 3 z →
                 lookupZ (parent uf') z = lookupZ (parent sample_state) z) ∧
           rank uf' = rank sample_state ∧ Count uf' = Count sample_state.
Proof.
  assert (valid 4 3) as H3 by (unfold valid; lia).
  split; [split; [apply sample_trace|exact H3]|].
  exact (Find_compresses_the_path 4 sample_calls sample_state 3 sample_trace H3).
Defined.

(** X2. [Find] is idempotent.  Once [Find(x)] has returned [r] and left the
    state [uf'], calling [Find(x)] again returns [r] and leaves [uf'] exactly
    as it is; and the first call changed the result of no [Find] and of no
    [Connected]. *)
Theorem Find_twice_changes_nothing n t uf x r uf' :
  trace n t uf → valid n x → returns (λ f, Find f uf x) (r, uf') →
  returns (λ f, Find f uf' x) (r, uf') ∧
  (∀ y ry, valid n y → finds uf' y ry ↔ finds uf y ry) ∧
  (∀ u v b, valid n u → valid n v → answers uf' u v b ↔ answers uf u v b).
Proof.
  intros Ht Hx Hret. destruct (trace_inv _ _ _ Ht) as (Hwf & _ & _).
  destruct (Find_full n uf x Hwf Hx)
    as (r0 & uf0 & Hret0 & Hr & Hwf' & Hsame & _ & _ & Hon & _).
  pose proof (returns_inj _ _ _ Hret Hret0) as [= <- <-].
  split; [|split].
  - exists 2%nat. intros [|[|f]] Hf; try lia.
    apply Find_flat; [apply Hon, on_path_start|by apply Hon, on_path_end].
  - intros y ry Hy. rewrite !(wf_finds n) by done. symmetry. apply Hsame.
  - intros u v b Hu Hv. rewrite !(wf_answers n) by done.
    by rewrite (same_reps_conn _ _ u v Hsame).
Qed.

Lemma Find_twice_changes_nothing_witness :
  (trace 4 sample_calls sample_state ∧ valid 4 3 ∧
   returns (λ f, Find f sample_state 3) (0, compressed_state)) ∧
  returns (λ f, Find f compressed_state 3) (0, compressed_state) ∧
  (∀ y ry, valid 4 y → finds compressed_state y ry ↔ finds sample_state y ry) ∧
  (∀ u v b, valid 4 u → valid 4 v →
            answers compressed_state u v b ↔ answers sample_state u v b).
Proof.
  assert (valid 4 3) as H3 by (unfold valid; lia).
  assert (returns (λ f, Find f sample_state 3) (0, compressed_state)) as Hret.
  { apply (returns_of_monotone _ 3%nat); [apply Find_monotone|by vm_compute]. }
  split; [by repeat split; try apply sample_trace|].
  exact (Find_twice_changes_nothing 4 sample_calls sample_state 3 0 compressed_state
           sample_trace H3 Hret).
Defined.



(** X4. [GetComponents] groups the elements by root.  In a reachable state
    it returns a map in which every key is a root with a non-empty, strictly
    ascending list of members, [j] is a member under [root] exactly when
    [Find(j)] is [root], and so every element is listed exactly once.  It
    leaves every element pointing directly at its root and changes no
    [Find] result and not [Count()]. *)
Theorem GetComponents_groups_by_root n t uf :
  trace n t uf →
  ∃ components uf',
    returns (λ f, GetComponents f uf) (components, uf') ∧
    (∀ root members, components !! root = Some members →
       members ≠ [] ∧ StronglySorted Z.lt members ∧
       ∀ j, j ∈ members ↔ valid n j ∧ finds uf j root) ∧
    (∀ j root, valid n j → finds uf j root →
       ∃ members, components !! root = Some members ∧ j ∈ members) ∧
    (∀ j, valid n j → ∃ r, lookupZ (parent uf') j = Some r ∧ finds uf j r) ∧
    (∀ j r, valid n j → finds uf' j r ↔ finds uf j r) ∧
    Count uf' = Count uf.
Proof.
  intros Ht. destruct (trace_inv _ _ _ Ht) as (Hwf & _ & _).
  destruct (GetComponents_loop_members n (length (parent uf)) 0 uf ∅ Hwf)
    as (m & uf' & Hret & Hwf' & Hsame & _ & Hcount & Hm & Hflat);
    [done|by rewrite (wf_parent _ _ Hwf)| | |].
  { intros root. rewrite lookup_empty. simpl. split; [constructor|].
    split; [|done]. intros j. split; [by intros ?%elem_of_nil|lia]. }
  { intros j Hj. lia. }
  assert (∀ j root, valid n j ∧ finds uf j root ↔ 0 ≤ j < n ∧ reaches (parent uf) j root)
    as Hfinds.
  { intros j root. split; intros [Hj Hr]; (split; [done|]); by apply (wf_finds n uf j). }
  exists m, uf'. split; [done|]. split; [|split; [|split; [|split]]].
  - intros root members Hroot. destruct (Hm root) as (Hsort & Hmem & Hne).
    rewrite Hroot in Hsort, Hmem, Hne. simpl in *.
    split; [congruence|]. split; [done|]. intros j. by rewrite Hmem, Hfinds.
  - intros j root Hj Hr. destruct (Hm root) as (_ & Hmem & _).
    assert (j ∈ default [] (m !! root)) as Hin by by apply Hmem, Hfinds.
    destruct (m !! root) as [members|]; [by exists members|by apply elem_of_nil in Hin].
  - intros j Hj. destruct (Hflat j Hj) as (r & Hjr & Hrr). exists r. split; [done|].
    apply (wf_finds n); [done..|]. apply Hsame.
    destruct (decide (r = j)) as [->|Hne]; [by constructor|].
    eapply reaches_step; [done..|by constructor].
  - intros j r Hj. rewrite !(wf_finds n) by done. symmetry. apply Hsame.
  - done.
Qed.

Lemma GetComponents_groups_by_root_witness :
  trace 4 sample_calls sample_state ∧
  ∃ components uf',
    returns (λ f, GetComponents f sample_state) (components, uf') ∧
    (∀ root members, components !! root = Some members →
       members ≠ [] ∧ StronglySorted Z.lt members ∧
       ∀ j, j ∈ members ↔ valid 4 j ∧ finds sample_state j root) ∧
    (∀ j root, valid 4 j → finds sample_state j root →
       ∃ members, components !! root = Some members ∧ j ∈ members) ∧
    (∀ j, valid 4 j → ∃ r, lookupZ (parent uf') j = Some r ∧ finds sample_state j r) ∧
    (∀ j r, valid 4 j → finds uf' j r ↔ finds sample_state j r) ∧
    Count uf' = Count sample_state.
Proof.
  split; [apply sample_trace|].
  exact (GetComponents_groups_by_root 4 sample_calls sample_state sample_trace).
Defined.

(** X5. [Count()] is the number of sets.  Along any sequence of valid calls
    from [NewUnionFind(n)], [Count()] is the number of classes of the
    equivalence that the pairs handed to [Union] generate on [0..n-1]; so it
    lies between 1 and [n] when [n] is positive. *)
Theorem Count_is_number_of_classes n t uf :
  trace n t uf →
  classes n (union_pairs t) (Count uf) ∧
  0 ≤ Count uf ≤ n ∧ (0 < n → 0 < Count uf).
Proof.
  intros Ht. destruct (trace_inv _ _ _ Ht) as (Hwf & _ & Hconn).
  pose proof (wf_classes n uf _ Hwf Hconn) as Hcl. split; [done|].
  apply (classes_bounds n (union_pairs t)); [|done]. by destruct (wf_n _ _ Hwf).
Qed.

Lemma Count_is_number_of_classes_witness :
  trace 4 sample_calls sample_state ∧
  classes 4 (union_pairs sample_calls) (Count sample_state) ∧
  0 ≤ Count sample_state ≤ 4 ∧ (0 < 4 → 0 < Count sample_state).
Proof.
  split; [apply sample_trace|].
  exact (Count_is_number_of_classes 4 sample_calls sample_state sample_trace).
Defined.

(** X6. A fresh structure.  [NewUnionFind(n)] panics on a negative [n];
    otherwise it returns [n] singletons: [Count()] is [n], every element is
    its own root, and [Connected(x, y)] is true only for [x = y]. *)
Theorem NewUnionFind_singletons :
  (∀ n, n < 0 → NewUnionFind n = Panic) ∧
  (∀ n, 0 ≤ n ≤ max_int →
        ∃ uf, NewUnionFind n = Ok uf ∧ Count uf = n ∧
              ∀ x y, valid n x → valid n y →
                     finds uf x x ∧ answers uf x y (bool_decide (x = y))).
Proof.
  split.
  - intros n Hn. apply NewUnionFind_Panic. lia.
  - intros n Hn. eexists. split; [by apply NewUnionFind_Ok|]. split; [done|].
    pose proof (NewUnionFind_wf n _ (NewUnionFind_Ok n Hn)) as Hwf.
    intros x y Hx Hy. split.
    + apply (wf_finds n); [done..|]. simpl. by apply reaches_seqZ.
    + apply (wf_answers n); [done..|]. simpl.
      rewrite bool_decide_eq_true, conn_seqZ. tauto.
Qed.

Lemma NewUnionFind_singletons_witness :
  0 ≤ 3 ≤ max_int ∧
  ∃ uf, NewUnionFind 3 = Ok uf ∧ Count uf = 3 ∧
        ∀ x y, valid 3 x → valid 3 y →
               finds uf x x ∧ answers uf x y (bool_decide (x = y)).
Proof.
  assert (0 ≤ 3 ≤ max_int) as Hn by (unfold max_int; lia).
  split; [exact Hn|]. exact (proj2 NewUnionFind_singletons 3 Hn).
Defined.

(** ** Pairs that close a cycle *)

Lemma joined_valid n ps x y :
  Forall (valid_pair n) ps → joined n ps x y → valid n x ∧ valid n y.
Proof.
  intros Hps. induction 1 as [x Hx|x y Hin|x y _ [IHx IHy]|x y z _ [IHx _] _ [_ IHz]];
    [done| |done..].
  rewrite Forall_forall in Hps. apply (Hps _ Hin).
Qed.

Lemma joined_snoc_congr n ps ps' p x y :
  (∀ u v, joined n ps u v → joined n ps' u v) →
  joined n (ps ++ [p]) x y → joined n (ps' ++ [p]) x y.
Proof.
  intros Hsub. induction 1 as [x Hx|x y Hin|x y _ IH|x y z _ IH1 _ IH2].
  - by constructor.
  - apply elem_of_app in Hin as [Hin|Hin].
    + eapply joined_mono; [|apply Hsub; by constructor]. set_solver.
    + constructor. set_solver.
  - by apply joined_sym.
  - by eapply joined_trans.
Qed.

Lemma closes_snoc n ps p :
  closes n (ps ++ [p]) ↔ closes n ps ∨ joined n ps p.1 p.2.
Proof.
  split.
  - intros (before & q & after & Heq & Hj).
    destruct after as [|a after _] using rev_ind.
    + apply app_inj_tail in Heq as [-> ->]. by right.
    + rewrite app_comm_cons, app_assoc in Heq.
      apply app_inj_tail in Heq as [-> _]. left. by exists before, q, after.
  - intros [(before & q & after & -> & Hj)|Hj].
    + exists before, q, (after ++ [p]). split; [|done].
      by rewrite <- app_assoc.
    + by exists ps, p, [].
Qed.

Lemma closes_cycle_closes n edges :
  closes_cycle n edges ↔ closes n (edge_pair <$> edges).
Proof.
  split.
  - intros (before & e & after & -> & Hj).
    exists (edge_pair <$> before), (edge_pair e), (edge_pair <$> after).
    split; [|done]. by rewrite fmap_app.
  - intros (before & p & after & Heq & Hj).
    apply fmap_app_inv in Heq as (l1 & l2 & -> & Heq & ->).
    symmetry in Heq. apply fmap_cons_inv in Heq as (e & l3 & -> & -> & ->).
    by exists l1, e, l3.
Qed.

(** Running one [Union] per pair: the unions that return false are the
    pairs that close a cycle. *)
Lemma unions_run n ps :
  0 ≤ n ≤ max_int → Forall (valid_pair n) ps →
  ∃ t uf, t.*1 = (λ p, CallUnion p.1 p.2) <$> ps ∧ trace n t uf ∧
          successful_unions t ≤ Z.of_nat (length ps) ∧
          (successful_unions t = Z.of_nat (length ps) → ¬ closes n ps) ∧
          (successful_unions t < Z.of_nat (length ps) → closes n ps).
Proof.
  intros Hn. induction ps as [|[x y] ps IH] using rev_ind; intros Hps.
  - eexists [], _. split; [done|]. split; [constructor; by apply NewUnionFind_Ok|].
    unfold successful_unions. simpl. split; [lia|]. split; [|lia].
    intros _ (before & p & after & Heq & _). by destruct before.
  - apply Forall_app in Hps as [Hps Hxy]. rewrite Forall_singleton in Hxy.
    destruct Hxy as [Hx Hy]. simpl in Hx, Hy.
    destruct (IH Hps) as (t & uf & Ht & Htrace & Hle & Heq & Hlt).
    destruct (trace_inv _ _ _ Htrace) as (Hwf & _ & Hconn).
    rewrite (applied_union_pairs _ _ Ht) in Hconn.
    destruct (Union_spec n uf x y Hwf Hx Hy) as (b & uf' & [f Hf] & Hb & _).
    exists (t ++ [(CallUnion x y, RetBool b)]), uf'.
    split; [by rewrite !fmap_app, Ht|]. split.
    { eapply (trace_call n t uf (CallUnion x y) f); [done|done|].
      simpl. by rewrite (Hf f). }
    rewrite successful_unions_snoc, length_app, Nat2Z.inj_add. simpl.
    rewrite closes_snoc. simpl. destruct b.
    + split; [lia|]. split.
      * intros Hs [Hc|Hj]; [apply Heq; [lia|done]|].
        apply Hconn, Hb in Hj. done.
      * intros Hs. left. apply Hlt. lia.
    + split; [lia|]. split; [lia|]. intros _. right. apply Hconn. by apply Hb.
Qed.

(** A list of pairs closes no cycle exactly when every pair removes one
    class. *)
Lemma closes_classes n ps k :
  0 ≤ n ≤ max_int → Forall (valid_pair n) ps → classes n ps k →
  n - Z.of_nat (length ps) ≤ k ∧
  (closes n ps ↔ n - Z.of_nat (length ps) < k).
Proof.
  intros Hn Hps Hk.
  destruct (unions_run n ps Hn Hps) as (t & uf & Ht & Htrace & Hle & Heq & Hlt).
  destruct (trace_inv _ _ _ Htrace) as (Hwf & Hcount & Hconn).
  rewrite (applied_union_pairs _ _ Ht) in Hconn.
  pose proof (wf_classes n uf ps Hwf Hconn) as Hk'.
  assert (k = count uf) as -> by by apply (classes_unique n ps ps).
  split; [lia|]. split.
  - intros Hc. destruct (decide (successful_unions t = Z.of_nat (length ps))) as [Hs|Hs].
    + by apply Heq in Hs.
    + lia.
  - intros Hs. apply Hlt. lia.
Qed.

Lemma classes_perm n ps ps' k : ps ≡ₚ ps' → classes n ps k → classes n ps' k.
Proof.
  intros Hp (reps & Hnd & Hlen & Hvalid & Hrep). exists reps.
  split; [done|]. split; [done|]. split; [done|].
  intros x Hx. destruct (Hrep x Hx) as (r & Hin & Hj & Hu). exists r.
  split; [done|]. split; [by apply (joined_perm n ps ps')|].
  intros r' Hr' Hj'. apply Hu; [done|]. by apply (joined_perm n ps ps').
Qed.

Lemma classes_exist n ps :
  0 ≤ n ≤ max_int → Forall (valid_pair n) ps → ∃ k, classes n ps k.
Proof.
  intros Hn Hps.
  destruct (unions_run n ps Hn Hps) as (t & uf & Ht & Htrace & _).
  destruct (trace_inv _ _ _ Htrace) as (Hwf & _ & Hconn).
  rewrite (applied_union_pairs _ _ Ht) in Hconn.
  exists (count uf). by apply wf_classes.
Qed.

Lemma DetectCycle_returns n edges :
  0 ≤ n ≤ max_int → Forall (valid_edge n) edges →
  ∃ b, returns (λ f, DetectCycle f n edges) b ∧ (b = true ↔ closes_cycle n edges).
Proof.
  intros Hn Hedges. unfold DetectCycle. rewrite NewUnionFind_Ok by done.
  pose proof (NewUnionFind_wf n _ (NewUnionFind_Ok n Hn)) as Hwf.
  destruct (DetectCycle_loop_spec n _ [] edges Hwf) as (b & Hret & Hb); [|done|].
  { intros u v. simpl. by rewrite conn_seqZ, joined_nil. }
  by exists b.
Qed.

Lemma valid_edge_pairs n edges :
  Forall (valid_edge n) edges → Forall (valid_pair n) (edge_pair <$> edges).
Proof. intros H. by apply Forall_fmap. Qed.

(** ** The loop of [KruskalMST] *)

Lemma wf_count_one n uf u v :
  wf n uf → count uf = 1 → valid n u → valid n v → conn (parent uf) u v.
Proof.
  intros Hwf Hc Hu Hv.
  destruct (wf_total _ _ Hwf u Hu) as [ru Hru].
  destruct (wf_total _ _ Hwf v Hv) as [rv Hrv].
  assert (size (roots (parent uf)) = 1%nat) as Hsize.
  { pose proof (wf_count _ _ Hwf). lia. }
  assert (ru = rv) as ->.
  { apply (size_singleton_inv _ _ _ Hsize); apply elem_of_roots; by eapply reaches_end. }
  by exists rv.
Qed.

Lemma KruskalMST_loop_spec n uf done rest acc w :
  wf n uf → Forall (valid_edge n) done → Forall (valid_edge n) rest →
  (∀ u v, conn (parent uf) u v ↔ joined n (edge_pair <$> done) u v) →
  (∀ u v, joined n (edge_pair <$> acc) u v ↔ joined n (edge_pair <$> done) u v) →
  ¬ closes n (edge_pair <$> acc) →
  acc `sublist_of` done →
  w = total_weight acc →
  count uf = n - Z.of_nat (length acc) →
  ∃ mst w', returns (λ f, KruskalMST_loop f n uf rest acc w) (mst, w') ∧
            mst `sublist_of` (done ++ rest) ∧
            ¬ closes n (edge_pair <$> mst) ∧
            (∀ u v, joined n (edge_pair <$> mst) u v ↔
                    joined n (edge_pair <$> (done ++ rest)) u v) ∧
            w' = total_weight mst.
Proof.
  intros Hwf Hdone Hrest. revert uf done acc w Hwf Hdone.
  induction Hrest as [|e rest [Hx Hy] Hrest IH];
    intros uf done acc w Hwf Hdone Hconn Hacc Hforest Hsub Hw Hcount.
  - exists acc, w. rewrite app_nil_r. split; [by exists O|]. done.
  - destruct (Union_spec n uf _ _ Hwf Hx Hy)
      as (b & uf' & Hret & Hb & Hwf' & Hcount' & Hsame & Hchar).
    assert (∀ u v, conn (parent uf') u v ↔
                   joined n (edge_pair <$> (done ++ [e])) u v) as Hconn'.
    { rewrite fmap_app. simpl.
      by apply (joined_extend n _ _ _ (conn (parent uf))). }
    assert (Forall (valid_edge n) (done ++ [e])) as Hdone'.
    { apply Forall_app. split; [done|]. by apply Forall_singleton. }
    assert (∀ mst, mst `sublist_of` ((done ++ [e]) ++ rest) →
                   mst `sublist_of` (done ++ e :: rest)) as Hlist.
    { intros mst. by rewrite <- app_assoc. }
    assert (∀ u v mst,
              joined n (edge_pair <$> mst) u v ↔
                joined n (edge_pair <$> ((done ++ [e]) ++ rest)) u v →
              joined n (edge_pair <$> mst) u v ↔
                joined n (edge_pair <$> (done ++ e :: rest)) u v) as Hjoin.
    { intros u v mst. by rewrite <- app_assoc. }
    destruct b.
    + assert (¬ conn (parent uf) (From e) (To e)) as Hnot.
      { intros Hc. by apply Hb in Hc. }
      assert (∀ u v, joined n (edge_pair <$> (acc ++ [e])) u v ↔
                     joined n (edge_pair <$> (done ++ [e])) u v) as Hacc'.
      { intros u v. rewrite !fmap_app. simpl.
        split; apply joined_snoc_congr; intros u' v'; apply Hacc. }
      assert (¬ closes n (edge_pair <$> (acc ++ [e]))) as Hforest'.
      { rewrite fmap_app. simpl. rewrite closes_snoc. intros [Hc|Hj]; [done|].
        apply Hnot, Hconn, Hacc. exact Hj. }
      assert (acc ++ [e] `sublist_of` done ++ [e]) as Hsub'.
      { by apply sublist_app. }
      assert (wrap64 (w + Weight e) = total_weight (acc ++ [e])) as Hw'.
      { unfold total_weight. rewrite foldl_snoc. by rewrite Hw. }
      assert (count uf' = n - Z.of_nat (length (acc ++ [e]))) as Hcount''.
      { rewrite length_app. simpl. lia. }
      destruct (decide (Z.of_nat (length (acc ++ [e])) = wrap64 (n - 1))) as [Hfull|Hmore].
      * exists (acc ++ [e]), (wrap64 (w + Weight e)). split.
        { simpl. apply (returns_bind (λ f, Union f uf _ _) _ _ _ Hret).
          exists O. intros f _. simpl. by rewrite decide_True. }
        split; [|split; [done|split; [|done]]].
        { apply Hlist. by apply sublist_inserts_r. }
        intros u v. split.
        -- intros Hj. apply Hacc' in Hj. eapply joined_mono; [|exact Hj].
           intros p. rewrite !fmap_app, fmap_cons. set_solver.
        -- intros Hj. apply Hacc', Hconn'.
           assert (Forall (valid_edge n) (done ++ e :: rest)) as Hall.
           { apply Forall_app. split; [done|]. by constructor. }
           destruct (joined_valid n _ u v (valid_edge_pairs _ _ Hall) Hj) as [Hu Hv].
           apply (wf_count_one n); [done| |done..].
           rewrite wrap64_small in Hfull; [lia|].
           pose proof (wf_n _ _ Hwf). unfold max_int in *. lia.
      * destruct (IH uf' (done ++ [e]) (acc ++ [e]) (wrap64 (w + Weight e)))
          as (mst & w' & Hret' & Hsub'' & Hforest'' & Hsame'' & Hw''); try done.
        exists mst, w'. split.
        { simpl. apply (returns_bind (λ f, Union f uf _ _) _ _ _ Hret).
          destruct Hret' as [f0 Hf0]. exists f0. intros f Hf. simpl.
          rewrite decide_False by done. by apply Hf0. }
        split; [by apply Hlist|]. split; [done|]. split; [|done].
        intros u v. by apply Hjoin.
    + assert (same_reps (parent uf) (parent uf')) as Hreps by by apply Hsame.
      destruct (IH uf' (done ++ [e]) acc w)
        as (mst & w' & Hret' & Hsub'' & Hforest'' & Hsame'' & Hw''); try done.
      * intros u v. rewrite Hacc, <- Hconn, <- Hconn'.
        apply (same_reps_conn _ _ u v Hreps).
      * by apply sublist_inserts_r.
      * lia.
      * exists mst, w'. split.
        { simpl. by apply (returns_bind (λ f, Union f uf _ _) _ _ _ Hret). }
        split; [by apply Hlist|]. split; [done|]. split; [|done].
        intros u v. by apply Hjoin.
Qed.

(** [KruskalMST] on valid edges: what it returns. *)
Lemma KruskalMST_spec sort_Slice n edges :
  sort_contract sort_Slice → 0 ≤ n ≤ max_int → Forall (valid_edge n) edges →
  ∃ mst w,
    (∀ f, (KruskalMST sort_Slice f n edges).1 = sort_Slice edges less_weight) ∧
    returns (λ f, (KruskalMST sort_Slice f n edges).2) (mst, w) ∧
    mst `sublist_of` sort_Slice edges less_weight ∧
    Forall (valid_edge n) mst ∧
    ¬ closes n (edge_pair <$> mst) ∧
    (∀ u v, joined n (edge_pair <$> mst) u v ↔ joined n (edge_pair <$> edges) u v) ∧
    w = total_weight mst.
Proof.
  intros Hsort Hn Hedges.
  destruct (Hsort edges less_weight less_weight_ordering) as [Hperm _].
  assert (Forall (valid_edge n) (sort_Slice edges less_weight)) as Hvalid
    by by rewrite Hperm.
  pose proof (NewUnionFind_wf n _ (NewUnionFind_Ok n Hn)) as Hwf.
  destruct (KruskalMST_loop_spec n _ [] (sort_Slice edges less_weight) [] 0 Hwf)
    as (mst & w & Hret & Hsub & Hforest & Hsame & Hw); try done.
  - intros u v. simpl. by rewrite conn_seqZ, joined_nil.
  - intros (before & p & after & Heq & _). by destruct before.
  - simpl. lia.
  - exists mst, w. split; [done|]. split.
    { unfold KruskalMST. simpl. by rewrite NewUnionFind_Ok. }
    split; [done|]. split.
    { rewrite Forall_forall in Hvalid. apply Forall_forall. intros e He.
      apply Hvalid. by eapply elem_of_sublist. }
    split; [done|]. split; [|done].
    intros u v. rewrite Hsame. simpl. apply joined_perm. by rewrite Hperm.
Qed.

Lemma classes_congr n ps ps' k :
  (∀ x y, joined n ps x y ↔ joined n ps' x y) → classes n ps k → classes n ps' k.
Proof.
  intros Hsame (reps & Hnd & Hlen & Hvalid & Hrep). exists reps.
  split; [done|]. split; [done|]. split; [done|].
  intros x Hx. destruct (Hrep x Hx) as (r & Hin & Hj & Hu). exists r.
  split; [done|]. split; [by apply Hsame|].
  intros r' Hr' Hj'. apply Hu; [done|]. by apply Hsame.
Qed.

(** Once the loop has left through its [break], what follows in the slice
    is never looked at. *)
Lemma KruskalMST_loop_break f n uf l1 l2 acc w mst w' :
  KruskalMST_loop f n uf l1 acc w = Ok (mst, w') →
  Z.of_nat (length mst) = wrap64 (n - 1) → mst ≠ acc →
  KruskalMST_loop f n uf (l1 ++ l2) acc w = Ok (mst, w').
Proof.
  revert uf acc w. induction l1 as [|e l1 IH]; intros uf acc w Hrun Hlen Hne; simpl in *.
  - injection Hrun as <- <-. done.
  - destruct (Union f uf (From e) (To e)) as [[[] uf']| |]; simpl in *; [| |done..].
    + case_decide as Hfull; [done|]. apply IH; [done..|].
      intros ->. done.
    + by apply IH.
Qed.

(** X7. The answer of [DetectCycle] does not depend on the order of the
    edges.  For valid edges it is true exactly when there are more edges than
    [n] minus the number of connected components they form, and a
    rearrangement of the edges gets the same answer. *)
Theorem DetectCycle_order_independent n edges edges' :
  0 ≤ n ≤ max_int → Forall (valid_edge n) edges → edges ≡ₚ edges' →
  ∃ b k, returns (λ f, DetectCycle f n edges) b ∧
         returns (λ f, DetectCycle f n edges') b ∧
         classes n (edge_pair <$> edges) k ∧
         (b = true ↔ n - k < Z.of_nat (length edges)).
Proof.
  intros Hn Hedges Hperm.
  assert (Forall (valid_edge n) edges') as Hedges' by by rewrite <- Hperm.
  destruct (DetectCycle_returns n edges Hn Hedges) as (b & Hret & Hb).
  destruct (DetectCycle_returns n edges' Hn Hedges') as (b' & Hret' & Hb').
  destruct (classes_exist n _ Hn (valid_edge_pairs _ _ Hedges)) as [k Hk].
  assert (classes n (edge_pair <$> edges') k) as Hk'.
  { eapply classes_perm; [|done]. by rewrite Hperm. }
  destruct (closes_classes n _ k Hn (valid_edge_pairs _ _ Hedges) Hk) as [_ Hc].
  destruct (closes_classes n _ k Hn (valid_edge_pairs _ _ Hedges') Hk') as [_ Hc'].
  rewrite length_fmap in Hc, Hc'. rewrite <- (Permutation_length Hperm) in Hc'.
  rewrite closes_cycle_closes in Hb, Hb'.
  exists b, k. split; [done|]. split; [|split; [done|]].
  - replace b with b'; [done|]. apply (bool_agree _ _ _ _ Hb' Hb).
    by rewrite Hc, Hc'.
  - rewrite Hb, Hc. lia.
Qed.

Lemma DetectCycle_order_independent_witness :
  (0 ≤ 4 ≤ max_int ∧ Forall (valid_edge 4) tailedEdges ∧ tailedEdges ≡ₚ tailedEdges') ∧
  ∃ b k, returns (λ f, DetectCycle f 4 tailedEdges) b ∧
         returns (λ f, DetectCycle f 4 tailedEdges') b ∧
         classes 4 (edge_pair <$> tailedEdges) k ∧
         (b = true ↔ 4 - k < Z.of_nat (length tailedEdges)).
Proof.
  assert (0 ≤ 4 ≤ max_int) as Hn by (unfold max_int; lia).
  assert (Forall (valid_edge 4) tailedEdges) as Hedges
    by (repeat constructor; simpl; lia).
  assert (tailedEdges ≡ₚ tailedEdges') as Hperm.
  { symmetry. apply reverse_Permutation. }
  split; [done|].
  exact (DetectCycle_order_independent 4 tailedEdges tailedEdges' Hn Hedges Hperm).
Defined.

(** X8. [KruskalMST] returns a spanning forest.  For valid edges, whatever
    [sort.Slice] does with ties, the returned edges are a subsequence of the
    sorted slice, connect exactly the vertices that the input connects, close
    no cycle, and number [n] minus the number of connected components of the
    input (so [n - 1] exactly when the input is connected); the returned
    weight is their wrapped running sum. *)
Theorem KruskalMST_spanning_forest sort_Slice n edges :
  sort_contract sort_Slice → 0 ≤ n ≤ max_int → Forall (valid_edge n) edges →
  ∃ mst w,
    returns (λ f, (KruskalMST sort_Slice f n edges).2) (mst, w) ∧
    mst `sublist_of` (KruskalMST sort_Slice 0 n edges).1 ∧
    (∀ u v, joined n (edge_pair <$> mst) u v ↔ joined n (edge_pair <$> edges) u v) ∧
    ¬ closes_cycle n mst ∧
    (∀ k, classes n (edge_pair <$> edges) k → Z.of_nat (length mst) = n - k) ∧
    w = total_weight mst.
Proof.
  intros Hsort Hn Hedges.
  destruct (KruskalMST_spec sort_Slice n edges Hsort Hn Hedges)
    as (mst & w & Hfst & Hret & Hsub & Hvalid & Hforest & Hsame & Hw).
  exists mst, w. split; [done|]. split; [by rewrite Hfst|]. split; [done|].
  split; [by rewrite closes_cycle_closes|]. split; [|done].
  intros k Hk.
  assert (classes n (edge_pair <$> mst) k) as Hk'.
  { eapply classes_congr; [|done]. intros x y. by rewrite Hsame. }
  destruct (closes_classes n _ k Hn (valid_edge_pairs _ _ Hvalid) Hk') as [Hle Hc].
  rewrite length_fmap in Hle, Hc.
  destruct (decide (n - Z.of_nat (length mst) < k)) as [Hlt|Hge]; [|lia].
  by apply Hc in Hlt.
Qed.

Lemma KruskalMST_spanning_forest_witness :
  (sort_contract insertion_sort ∧ 0 ≤ 9 ≤ max_int ∧ Forall (valid_edge 9) demoEdges) ∧
  ∃ mst w,
    returns (λ f, (KruskalMST insertion_sort f 9 demoEdges).2) (mst, w) ∧
    mst `sublist_of` (KruskalMST insertion_sort 0 9 demoEdges).1 ∧
    (∀ u v, joined 9 (edge_pair <$> mst) u v ↔ joined 9 (edge_pair <$> demoEdges) u v) ∧
    ¬ closes_cycle 9 mst ∧
    (∀ k, classes 9 (edge_pair <$> demoEdges) k → Z.of_nat (length mst) = 9 - k) ∧
    w = total_weight mst.
Proof.
  assert (0 ≤ 9 ≤ max_int) as Hn by (unfold max_int; lia).
  assert (Forall (valid_edge 9) demoEdges) as Hedges
    by (repeat constructor; simpl; lia).
  split; [split; [exact insertion_sort_contract|by split]|].
  exact (KruskalMST_spanning_forest insertion_sort 9 demoEdges
           insertion_sort_contract Hn Hedges).
Defined.

(** X9. [DetectCycle] finds no cycle in what [KruskalMST] returns: for valid
    edges, [DetectCycle(n, mst)] on the returned tree is false. *)
Theorem DetectCycle_of_KruskalMST sort_Slice n edges :
  sort_contract sort_Slice → 0 ≤ n ≤ max_int → Forall (valid_edge n) edges →
  ∃ mst w, returns (λ f, (KruskalMST sort_Slice f n edges).2) (mst, w) ∧
           returns (λ f, DetectCycle f n mst) false.
Proof.
  intros Hsort Hn Hedges.
  destruct (KruskalMST_spec sort_Slice n edges Hsort Hn Hedges)
    as (mst & w & _ & Hret & _ & Hvalid & Hforest & _).
  exists mst, w. split; [done|].
  destruct (DetectCycle_returns n mst Hn Hvalid) as (b & Hretb & Hb).
  destruct b; [|done]. exfalso. apply Hforest, closes_cycle_closes. by apply Hb.
Qed.

Lemma DetectCycle_of_KruskalMST_witness :
  (sort_contract insertion_sort ∧ 0 ≤ 4 ≤ max_int ∧ Forall (valid_edge 4) tailedEdges) ∧
  ∃ mst w, returns (λ f, (KruskalMST insertion_sort f 4 tailedEdges).2) (mst, w) ∧
           returns (λ f, DetectCycle f 4 mst) false.
Proof.
  assert (0 ≤ 4 ≤ max_int) as Hn by (unfold max_int; lia).
  assert (Forall (valid_edge 4) tailedEdges) as Hedges
    by (repeat constructor; simpl; lia).
  split; [split; [exact insertion_sort_contract|by split]|].
  exact (DetectCycle_of_KruskalMST insertion_sort 4 tailedEdges
           insertion_sort_contract Hn Hedges).
Defined.

(** X10. The early exit of [KruskalMST].  When the sorted slice starts with
    valid edges that already connect all of at least two vertices, the tree is
    built from that part alone, has [n - 1] edges, and whatever follows in
    the slice, even edges on indices out of range, is never looked at. *)
Theorem KruskalMST_stops_at_spanning_tree sort_Slice n edges l1 l2 :
  sort_Slice edges less_weight = l1 ++ l2 →
  2 ≤ n ≤ max_int → Forall (valid_edge n) l1 → classes n (edge_pair <$> l1) 1 →
  ∃ mst w, returns (λ f, (KruskalMST sort_Slice f n edges).2) (mst, w) ∧
           mst `sublist_of` l1 ∧ Z.of_nat (length mst) = n - 1.
Proof.
  intros Hsorted Hn Hvalid Hone.
  assert (0 ≤ n ≤ max_int) as Hn0 by lia.
  pose proof (NewUnionFind_wf n _ (NewUnionFind_Ok n Hn0)) as Hwf.
  destruct (KruskalMST_loop_spec n _ [] l1 [] 0 Hwf)
    as (mst & w & [f0 Hret] & Hsub & Hforest & Hsame & Hw); try done.
  { intros u v. simpl. by rewrite conn_seqZ, joined_nil. }
  { intros (before & p & after & Heq & _). by destruct before. }
  { simpl. lia. }
  simpl in Hsub, Hsame.
  assert (Forall (valid_edge n) mst) as Hvalid'.
  { rewrite Forall_forall in Hvalid. apply Forall_forall. intros e He.
    apply Hvalid. by eapply elem_of_sublist. }
  assert (classes n (edge_pair <$> mst) 1) as Hone'.
  { eapply classes_congr; [|done]. intros x y. by rewrite Hsame. }
  destruct (closes_classes n _ 1 Hn0 (valid_edge_pairs _ _ Hvalid') Hone') as [Hle Hc].
  rewrite length_fmap in Hle, Hc.
  assert (Z.of_nat (length mst) = n - 1) as Hlen.
  { destruct (decide (n - Z.of_nat (length mst) < 1)) as [Hlt|Hge]; [|lia].
    by apply Hc in Hlt. }
  exists mst, w. split; [|done].
  exists f0. intros f Hf. unfold KruskalMST. simpl.
  rewrite NewUnionFind_Ok by done. simpl. rewrite Hsorted.
  apply KruskalMST_loop_break; [by apply Hret| |].
  - rewrite wrap64_small; [done|]. unfold max_int in *. lia.
  - intros ->. simpl in Hlen. lia.
Qed.

Lemma trace_classes n t uf : trace n t uf → classes n (union_pairs t) (count uf).
Proof.
  intros Ht. destruct (trace_inv _ _ _ Ht) as (Hwf & _ & Hconn). by apply wf_classes.
Qed.

Lemma KruskalMST_stops_at_spanning_tree_witness :
  (insertion_sort (spanningEdges ++ strayEdges) less_weight = spanningEdges ++ strayEdges ∧
   2 ≤ 3 ≤ max_int ∧ Forall (valid_edge 3) spanningEdges ∧
   classes 3 (edge_pair <$> spanningEdges) 1) ∧
  ∃ mst w,
    returns (λ f, (KruskalMST insertion_sort f 3 (spanningEdges ++ strayEdges)).2) (mst, w) ∧
    mst `sublist_of` spanningEdges ∧ Z.of_nat (length mst) = 3 - 1.
Proof.
  assert (insertion_sort (spanningEdges ++ strayEdges) less_weight
          = spanningEdges ++ strayEdges) as Hsorted by by vm_compute.
  assert (2 ≤ 3 ≤ max_int) as Hn by (unfold max_int; lia).
  assert (Forall (valid_edge 3) spanningEdges) as Hvalid
    by (repeat constructor; simpl; lia).
  assert (classes 3 (edge_pair <$> spanningEdges) 1) as Hone.
  { apply (trace_classes 3 [(CallUnion 0 1, RetBool true); (CallUnion 1 2, RetBool true)]
             {| parent := [0; 0; 0]; rank := [1; 0; 0]; count := 1 |}).
    apply (run_trace 3 [] {| parent := seqZ 0 3; rank := [0; 0; 0]; count := 3 |}
             3 [CallUnion 0 1; CallUnion 1 2]).
    - by constructor.
    - repeat constructor; unfold valid; lia.
    - by vm_compute. }
  split; [done|].
  exact (KruskalMST_stops_at_spanning_tree insertion_sort 3 (spanningEdges ++ strayEdges)
           spanningEdges strayEdges Hsorted Hn Hvalid Hone).
Defined.

(** ** [FriendCircles] *)

Lemma panics_bind {A B} (m : nat → outcome A) (k : A → nat → outcome B) a :
  returns m a → panics (k a) → panics (λ f, m f ≫= λ a, k a f).
Proof.
  intros [f0 H0] [f1 H1]. exists (f0 `max` f1)%nat. intros f Hf.
  rewrite H0 by lia. simpl. apply H1. lia.
Qed.

Lemma entry_Some friends i j v :
  entry friends i j = Some v ↔
  ∃ row, lookupZ friends i = Some row ∧ lookupZ row j = Some v.
Proof.
  unfold entry. destruct (lookupZ friends i) as [row|]; simpl; naive_solver.
Qed.

Lemma row_pairs_S friends i j k :
  row_pairs friends i j (S k) =
  (if decide (entry friends i j = Some 1) then [(i, j)] else [])
    ++ row_pairs friends i (j + 1) k.
Proof.
  unfold row_pairs. rewrite seqZ_cons by lia. simpl.
  by replace (Z.pred (Z.of_nat (S k))) with (Z.of_nat k) by lia.
Qed.

Lemma rows_pairs_S friends n i k :
  rows_pairs friends n i (S k) =
  row_pairs friends i (i + 1) (Z.to_nat (n - (i + 1))) ++ rows_pairs friends n (i + 1) k.
Proof.
  unfold rows_pairs. rewrite seqZ_cons by lia. simpl.
  by replace (Z.pred (Z.of_nat (S k))) with (Z.of_nat k) by lia.
Qed.

(** One row: it is read from column [j] to the end, or the loop panics at a
    missing entry. *)
Lemma FriendCircles_row_spec n friends i uf ps k j :
  wf n uf → (∀ u v, conn (parent uf) u v ↔ joined n ps u v) →
  0 ≤ i → i < j → j + Z.of_nat k = n →
  (∃ uf', returns (λ f, FriendCircles_row f k friends i j uf) uf' ∧
          wf n uf' ∧
          (∀ u v, conn (parent uf') u v ↔ joined n (ps ++ row_pairs friends i j k) u v) ∧
          ∀ j', j ≤ j' < n → is_Some (entry friends i j')) ∨
  (panics (λ f, FriendCircles_row f k friends i j uf) ∧
   ∃ j', j ≤ j' < n ∧ entry friends i j' = None).
Proof.
  intros Hwf Hconn Hi. revert j uf ps Hwf Hconn.
  induction k as [|k IH]; intros j uf ps Hwf Hconn Hij Hn.
  - left. exists uf. split; [by exists O|]. split; [done|].
    split; [by rewrite app_nil_r|]. intros j' Hj'. lia.
  - simpl. destruct (entry friends i j) as [v|] eqn:He.
    + apply entry_Some in He as (row & Hrow & Hv).
      assert (entry friends i j = Some v) as He
        by (apply entry_Some; by exists row).
      assert (∃ uf1, returns (λ f, if decide (v = 1)
                                   then Union f uf i j ≫= λ '(_, uf), Ok uf
                                   else Ok uf) uf1 ∧ wf n uf1 ∧
                     ∀ u v0, conn (parent uf1) u v0 ↔
                             joined n (ps ++ if decide (entry friends i j = Some 1)
                                             then [(i, j)] else []) u v0)
        as (uf1 & Hret1 & Hwf1 & Hconn1).
      { rewrite He. destruct (decide (v = 1)) as [->|Hv1].
        - rewrite decide_True by done.
          destruct (Union_spec n uf i j Hwf) as (b & uf1 & Hret & _ & Hwf1 & _ & _ & Hchar);
            [unfold valid; lia..|].
          exists uf1. split; [|split; [done|]].
          + apply (returns_bind (λ f, Union f uf i j) _ _ _ Hret). by exists O.
          + apply (joined_extend n ps i j (conn (parent uf))); [unfold valid; lia..|done|done].
        - rewrite decide_False by congruence. exists uf.
          split; [by exists O|]. split; [done|]. by rewrite app_nil_r. }
      destruct (IH (j + 1) uf1 _ Hwf1 Hconn1) as
        [(uf' & Hret' & Hwf' & Hconn' & Hall)|(Hpanic & j' & Hj' & Hnone)]; [lia..| |].
      * left. exists uf'. split; [|split; [done|split]].
        -- rewrite (index_Some _ _ _ Hrow). simpl. rewrite (index_Some _ _ _ Hv). simpl.
           by apply (returns_bind _ (λ uf1 f, FriendCircles_row f k friends i (j + 1) uf1)
                       _ _ Hret1).
        -- intros u v0. by rewrite row_pairs_S, app_assoc.
        -- intros j' Hj'. destruct (decide (j' = j)) as [->|Hne]; [by rewrite He|].
           apply Hall. lia.
      * right. split; [|exists j'; split; [lia|done]].
        rewrite (index_Some _ _ _ Hrow). simpl. rewrite (index_Some _ _ _ Hv). simpl.
        by apply (panics_bind _ (λ uf1 f, FriendCircles_row f k friends i (j + 1) uf1)
                    _ Hret1).
    + right. split; [|exists j; split; [lia|done]].
      exists O. intros f _. unfold entry in He. unfold index.
      destruct (lookupZ friends i) as [row|]; simpl in *; [|done].
      by rewrite He.
Qed.

Lemma FriendCircles_rows_spec n friends uf ps k i :
  wf n uf → (∀ u v, conn (parent uf) u v ↔ joined n ps u v) →
  0 ≤ i → i + Z.of_nat k = n →
  (∃ uf', returns (λ f, FriendCircles_rows f k friends n i uf) uf' ∧
          wf n uf' ∧
          (∀ u v, conn (parent uf') u v ↔ joined n (ps ++ rows_pairs friends n i k) u v) ∧
          ∀ i' j', i ≤ i' → i' < j' → j' < n → is_Some (entry friends i' j')) ∨
  (panics (λ f, FriendCircles_rows f k friends n i uf) ∧
   ∃ i' j', i ≤ i' ∧ i' < j' ∧ j' < n ∧ entry friends i' j' = None).
Proof.
  revert i uf ps. induction k as [|k IH]; intros i uf ps Hwf Hconn Hi Hn.
  - left. exists uf. split; [by exists O|]. split; [done|].
    split; [by rewrite app_nil_r|]. intros i' j' ???. lia.
  - simpl.
    destruct (FriendCircles_row_spec n friends i uf ps (Z.to_nat (n - (i + 1))) (i + 1)
                Hwf Hconn) as
      [(uf1 & Hret1 & Hwf1 & Hconn1 & Hall1)|(Hpanic & j' & Hj' & Hnone)]; [lia..| |].
    + destruct (IH (i + 1) uf1 _ Hwf1 Hconn1) as
        [(uf' & Hret' & Hwf' & Hconn' & Hall)|(Hpanic & i' & j' & Hi' & Hj' & Hlt & Hnone)];
        [lia..| |].
      * left. exists uf'. split; [|split; [done|split]].
        -- by apply (returns_bind _ (λ uf1 f, FriendCircles_rows f k friends n (i + 1) uf1)
                       _ _ Hret1).
        -- intros u v. by rewrite rows_pairs_S, app_assoc.
        -- intros i' j' Hi' Hj' Hlt. destruct (decide (i' = i)) as [->|Hne].
           ++ apply Hall1. lia.
           ++ apply Hall; lia.
      * right. split; [|exists i', j'; repeat split; [lia|done..]].
        by apply (panics_bind _ (λ uf1 f, FriendCircles_rows f k friends n (i + 1) uf1)
                    _ Hret1).
    + right. split; [|exists i, j'; repeat split; [lia..|done]].
      destruct Hpanic as [f0 Hf0]. exists f0. intros f Hf. by rewrite Hf0.
Qed.

Lemma elem_of_row_pairs friends i j0 k a b :
  (a, b) ∈ row_pairs friends i j0 k ↔
  a = i ∧ j0 ≤ b < j0 + Z.of_nat k ∧ entry friends i b = Some 1.
Proof.
  unfold row_pairs. rewrite list_elem_of_bind. split.
  - intros (j & Hin & Hj%elem_of_seqZ). case_decide as He; [|by apply elem_of_nil in Hin].
    apply list_elem_of_singleton in Hin as [= -> ->]. done.
  - intros (-> & Hb & He). exists b. split; [|by apply elem_of_seqZ].
    rewrite decide_True by done. apply list_elem_of_here.
Qed.

Lemma elem_of_rows_pairs friends n i0 k a b :
  (a, b) ∈ rows_pairs friends n i0 k ↔
  i0 ≤ a < i0 + Z.of_nat k ∧ a < b < n ∧ entry friends a b = Some 1.
Proof.
  unfold rows_pairs. rewrite list_elem_of_bind. split.
  - intros (i & (-> & Hb & He)%elem_of_row_pairs & Hi%elem_of_seqZ).
    split; [done|]. split; [lia|done].
  - intros (Ha & Hb & He). exists a. split; [|by apply elem_of_seqZ].
    apply elem_of_row_pairs. split; [done|]. split; [lia|done].
Qed.

Lemma elem_of_friend_pairs friends i j :
  (i, j) ∈ friend_pairs friends ↔
  0 ≤ i ∧ i < j < Z.of_nat (length friends) ∧ entry friends i j = Some 1.
Proof.
  unfold friend_pairs. rewrite elem_of_rows_pairs. split.
  - intros (Hi & Hj & He). split; [lia|done].
  - intros (Hi & Hj & He). split; [lia|done].
Qed.

Lemma FriendCircles_outcome friends :
  Z.of_nat (length friends) ≤ max_int →
  (∃ c, returns (λ f, FriendCircles f friends) c ∧
        classes (Z.of_nat (length friends)) (friend_pairs friends) c ∧
        upper_complete friends) ∨
  (panics (λ f, FriendCircles f friends) ∧
   ∃ i j, 0 ≤ i ∧ i < j ∧ j < Z.of_nat (length friends) ∧ entry friends i j = None).
Proof.
  intros Hlen. set (n := Z.of_nat (length friends)).
  assert (0 ≤ n ≤ max_int) as Hn by lia.
  pose proof (NewUnionFind_wf n _ (NewUnionFind_Ok n Hn)) as Hwf.
  destruct (FriendCircles_rows_spec n friends _ [] (length friends) 0 Hwf) as
    [(uf' & [f0 Hret] & Hwf' & Hconn' & Hall)|([f0 Hpanic] & i & j & Hi & Hj & Hlt & Hnone)];
    [|lia|lia| |].
  - intros u v. simpl. by rewrite conn_seqZ, joined_nil.
  - left. exists (count uf'). split; [|split].
    + exists f0. intros f Hf. unfold FriendCircles. fold n.
      rewrite NewUnionFind_Ok by done. simpl. by rewrite Hret.
    + by apply wf_classes.
    + intros i j Hi Hj Hlt. by apply Hall.
  - right. split; [|by exists i, j].
    exists f0. intros f Hf. unfold FriendCircles. fold n.
    rewrite NewUnionFind_Ok by done. simpl. by rewrite Hpanic.
Qed.

(** X11. [FriendCircles] counts the circles.  On a matrix that has every
    entry above its diagonal, it returns the number of classes of the
    equivalence that the pairs [i < j] with [friends[i][j] == 1] generate
    among the [n] persons; the diagonal and what lies below it are never
    read. *)
Theorem FriendCircles_counts_classes friends ps :
  Z.of_nat (length friends) ≤ max_int → upper_complete friends →
  (∀ i j, (i, j) ∈ ps ↔
          0 ≤ i ∧ i < j < Z.of_nat (length friends) ∧ entry friends i j = Some 1) →
  ∃ c, returns (λ f, FriendCircles f friends) c ∧
       classes (Z.of_nat (length friends)) ps c.
Proof.
  intros Hlen Hupper Hps.
  destruct (FriendCircles_outcome friends Hlen) as
    [(c & Hret & Hc & _)|(_ & i & j & Hi & Hj & Hlt & Hnone)].
  - exists c. split; [done|]. eapply classes_congr; [|done].
    intros x y. split; apply joined_mono; intros [i j];
      by rewrite Hps, elem_of_friend_pairs.
  - destruct (Hupper i j Hi Hj Hlt) as [v Hv]. congruence.
Qed.

Lemma FriendCircles_counts_classes_witness :
  (Z.of_nat (length demoFriends) ≤ max_int ∧ upper_complete demoFriends ∧
   ∀ i j, (i, j) ∈ [(0, 1)] ↔
          0 ≤ i ∧ i < j < Z.of_nat (length demoFriends) ∧ entry demoFriends i j = Some 1) ∧
  ∃ c, returns (λ f, FriendCircles f demoFriends) c ∧
       classes (Z.of_nat (length demoFriends)) [(0, 1)] c.
Proof.
  assert (Z.of_nat (length demoFriends) ≤ max_int) as Hlen by (unfold max_int; simpl; lia).
  assert (∀ i j, 0 ≤ i → i < j → j < 3 → (i = 0 ∧ j = 1) ∨ (i = 0 ∧ j = 2) ∨ (i = 1 ∧ j = 2))
    as Hcases by lia.
  assert (upper_complete demoFriends) as Hupper.
  { intros i j Hi Hj Hlt. assert (j < 3) as Hlt' by (simpl in Hlt; lia).
    destruct (Hcases i j Hi Hj Hlt') as [[-> ->]|[[-> ->]|[-> ->]]];
      vm_compute; by eexists. }
  assert (∀ i j, (i, j) ∈ [(0, 1)] ↔
                 0 ≤ i ∧ i < j < Z.of_nat (length demoFriends) ∧
                 entry demoFriends i j = Some 1) as Hps.
  { intros i j. rewrite list_elem_of_singleton. split.
    - intros [= -> ->]. by vm_compute.
    - intros (Hi & [Hj Hlt] & He). assert (j < 3) as Hlt' by (simpl in Hlt; lia).
      destruct (Hcases i j Hi Hj Hlt') as [[-> ->]|[[-> ->]|[-> ->]]];
        [done|by vm_compute in He..]. }
  split; [done|].
  exact (FriendCircles_counts_classes demoFriends [(0, 1)] Hlen Hupper Hps).
Defined.

(** X12. [FriendCircles] on a ragged matrix.  The call returns only when
    every entry above the diagonal is there: when some [friends[i][j]] with
    [i < j < n] is missing (a row shorter than [n]), it panics. *)
Theorem FriendCircles_ragged_panics friends i j :
  Z.of_nat (length friends) ≤ max_int →
  0 ≤ i → i < j → j < Z.of_nat (length friends) → entry friends i j = None →
  panics (λ f, FriendCircles f friends).
Proof.
  intros Hlen Hi Hj Hlt Hnone.
  destruct (FriendCircles_outcome friends Hlen) as [(c & _ & _ & Hupper)|[Hpanic _]];
    [|done].
  destruct (Hupper i j Hi Hj Hlt) as [v Hv]. congruence.
Qed.

Lemma FriendCircles_ragged_panics_witness :
  (Z.of_nat (length raggedFriends) ≤ max_int ∧ 0 ≤ 0 ∧ 0 < 2 ∧
   2 < Z.of_nat (length raggedFriends) ∧ entry raggedFriends 0 2 = None) ∧
  panics (λ f, FriendCircles f raggedFriends).
Proof.
  assert (Z.of_nat (length raggedFriends) ≤ max_int) as Hlen
    by (unfold max_int; simpl; lia).
  assert (2 < Z.of_nat (length raggedFriends)) as Hlt by (simpl; lia).
  assert (entry raggedFriends 0 2 = None) as Hnone by by vm_compute.
  split; [repeat split; (done || lia)|].
  exact (FriendCircles_ragged_panics raggedFriends 0 2 Hlen (Z.le_refl 0) eq_refl Hlt Hnone).
Defined.

(** ** The structure with sizes *)

Lemma lift_erase wuf : lift (erase wuf) = wuf.
Proof. by destruct wuf. Qed.

Lemma erase_lift uf : erase (lift uf) = uf.
Proof. by destruct uf. Qed.

(** [Find] is the same code on both structures. *)
Lemma Weighted_Find_sim f wuf x :
  Weighted.Find f wuf x = Find f (erase wuf) x ≫= λ '(r, uf), Ok (r, lift uf).
Proof.
  revert x. induction f as [|f IH]; intros x; [done|]. simpl.
  destruct (index (Weighted.parent wuf) x) as [p| |]; simpl; [|done..].
  case_decide; simpl.
  - rewrite IH. destruct (Find f (erase wuf) p) as [[r uf1]| |]; simpl; [|done..].
    destruct (assign (parent uf1) x r) as [parent'| |]; simpl; [|done..].
    by destruct (index parent' x).
  - destruct (index (Weighted.parent wuf) x); simpl; [|done..].
    by rewrite lift_erase.
Qed.

Lemma Weighted_Find_monotone wuf x : monotone (λ f, Weighted.Find f wuf x).
Proof.
  intros f f' o Ho Hs Hle. rewrite Weighted_Find_sim in *.
  revert Ho Hs Hle.
  apply (monotone_bind (λ f, Find f (erase wuf) x) (λ a _, let '(r, uf) := a in Ok (r, lift uf))).
  - apply Find_monotone.
  - intros [r uf]. apply monotone_const.
Qed.

Lemma Weighted_Connected_monotone wuf x y : monotone (λ f, Weighted.Connected f wuf x y).
Proof.
  unfold Weighted.Connected.
  apply (monotone_bind (λ f, Weighted.Find f wuf x)); [apply Weighted_Find_monotone|].
  intros [rx wuf1].
  apply (monotone_bind (λ f, Weighted.Find f wuf1 y)); [apply Weighted_Find_monotone|].
  intros [ry wuf2]. apply monotone_const.
Qed.

Lemma Weighted_Union_monotone wuf x y : monotone (λ f, Weighted.Union f wuf x y).
Proof.
  unfold Weighted.Union.
  apply (monotone_bind (λ f, Weighted.Find f wuf x)); [apply Weighted_Find_monotone|].
  intros [rx wuf1].
  apply (monotone_bind (λ f, Weighted.Find f wuf1 y)); [apply Weighted_Find_monotone|].
  intros [ry wuf2]. apply monotone_const.
Qed.

Lemma Weighted_GetSize_monotone wuf x : monotone (λ f, Weighted.GetSize f wuf x).
Proof.
  unfold Weighted.GetSize.
  apply (monotone_bind (λ f, Weighted.Find f wuf x)); [apply Weighted_Find_monotone|].
  intros [rx wuf1]. apply monotone_const.
Qed.

Lemma sizes_ok_same_reps l l' s :
  same_reps l l' → sizes_ok l s → sizes_ok l' s.
Proof.
  intros Hsame Hs r Hr. pose proof Hsame as [_ Hreps].
  destruct (Hs r) as (members & Hnd & Hmem & Hsize).
  { apply reaches_self, Hreps, reaches_self, Hr. }
  exists members. split; [done|]. split; [|done].
  intros x. by rewrite Hmem, Hreps.
Qed.

Lemma Weighted_Find_spec n wuf x :
  weighted_wf n wuf → valid n x →
  ∃ r wuf', returns (λ f, Weighted.Find f wuf x) (r, wuf') ∧
            reaches (Weighted.parent wuf) x r ∧ weighted_wf n wuf' ∧
            same_reps (Weighted.parent wuf) (Weighted.parent wuf') ∧
            Weighted.size wuf' = Weighted.size wuf ∧
            Weighted.count wuf' = Weighted.count wuf.
Proof.
  intros [Hwf Hsizes] Hx.
  destruct (Find_full n (erase wuf) x Hwf Hx)
    as (r & uf' & [f0 Hret] & Hr & Hwf' & Hsame & Hrank & Hcount & _).
  exists r, (lift uf'). split; [|split; [done|split; [|done]]].
  - exists f0. intros f Hf. by rewrite Weighted_Find_sim, Hret.
  - split; [by rewrite erase_lift|]. simpl. rewrite Hrank.
    by eapply sizes_ok_same_reps.
Qed.

Lemma Weighted_init_loop_spec k i (p s : list Z) :
  0 ≤ i → length p = (Z.to_nat i + k)%nat → length s = (Z.to_nat i + k)%nat →
  Weighted.init_loop k i p s =
  Ok (take (Z.to_nat i) p ++ seqZ i (Z.of_nat k), take (Z.to_nat i) s ++ replicate k 1).
Proof.
  revert i p s. induction k as [|k IH]; intros i p s Hi Hp Hs; simpl.
  - rewrite seqZ_nil by lia. rewrite !app_nil_r, !firstn_all2 by lia. done.
  - rewrite !assign_Ok by lia. simpl.
    rewrite IH by (rewrite ?length_insert; lia).
    replace (Z.to_nat (i + 1)) with (S (Z.to_nat i)) by lia.
    rewrite (take_S_r _ _ i), (take_S_r _ _ 1) by (apply list_lookup_insert_eq; lia).
    rewrite !take_insert_ge by lia.
    rewrite (seqZ_cons i) by lia.
    replace (Z.succ i) with (i + 1) by lia.
    replace (Z.pred (Z.of_nat (S k))) with (Z.of_nat k) by lia.
    by rewrite <- !app_assoc.
Qed.

Lemma NewWeightedUnionFind_Ok n :
  0 ≤ n ≤ max_int →
  Weighted.NewWeightedUnionFind n =
  Ok {| Weighted.parent := seqZ 0 n; Weighted.size := replicate (Z.to_nat n) 1;
        Weighted.count := n |}.
Proof.
  intros Hn. unfold Weighted.NewWeightedUnionFind, make. rewrite decide_True by done. simpl.
  rewrite Weighted_init_loop_spec by (rewrite ?length_replicate; simpl; lia). simpl.
  by rewrite Z2Nat.id by lia.
Qed.

Lemma NewWeightedUnionFind_inv n wuf :
  Weighted.NewWeightedUnionFind n = Ok wuf →
  0 ≤ n ≤ max_int ∧
  wuf = {| Weighted.parent := seqZ 0 n; Weighted.size := replicate (Z.to_nat n) 1;
           Weighted.count := n |}.
Proof.
  intros H. destruct (decide (0 ≤ n ≤ max_int)) as [Hn|Hn].
  - rewrite NewWeightedUnionFind_Ok in H by done. by injection H.
  - unfold Weighted.NewWeightedUnionFind, make in H. by rewrite decide_False in H.
Qed.

Lemma NewWeightedUnionFind_wf n wuf :
  Weighted.NewWeightedUnionFind n = Ok wuf → weighted_wf n wuf.
Proof.
  intros [Hn ->]%NewWeightedUnionFind_inv. split.
  - split; simpl.
    + done.
    + rewrite length_seqZ. lia.
    + rewrite length_replicate. lia.
    + intros x Hx. exists x. by apply reaches_seqZ.
    + by rewrite roots_seqZ by lia.
  - intros r Hr. simpl in *. pose proof (lookupZ_Some_range _ _ _ Hr) as Hrange.
    rewrite length_seqZ in Hrange.
    exists [r]. split; [apply NoDup_singleton|]. split.
    + intros x. rewrite list_elem_of_singleton, reaches_seqZ. unfold valid. split.
      * intros ->. split; [lia|done].
      * by intros [_ ->].
    + unfold lookupZ. rewrite decide_True by lia.
      rewrite lookup_replicate_2 by lia. done.
Qed.

Lemma reaches_attach_iff l a b x r' :
  lookupZ l a = Some a → lookupZ l b = Some b → a ≠ b → total l →
  reaches (<[Z.to_nat a := b]> l) x r' ↔
  (reaches l x r' ∧ r' ≠ a) ∨ (reaches l x a ∧ r' = b).
Proof.
  intros Ha Hb Hab Htot. split.
  - intros Hx'. pose proof (reaches_range _ _ _ Hx') as Hrange.
    rewrite length_insert in Hrange. destruct (Htot x Hrange) as [r Hr].
    pose proof (attach_reaches l a b x r Ha Hb Hab Hr) as Hx''.
    rewrite (reaches_det _ _ _ _ Hx' Hx''). case_decide as Hra.
    + subst r. by right.
    + by left.
  - intros [[Hr Hne]|[Hr ->]].
    + pose proof (attach_reaches l a b x r' Ha Hb Hab Hr) as Hx'.
      by rewrite decide_False in Hx'.
    + pose proof (attach_reaches l a b x a Ha Hb Hab Hr) as Hx'.
      by rewrite decide_True in Hx'.
Qed.

Lemma members_length_le l members r :
  NoDup members → (∀ x, x ∈ members → reaches l x r) →
  (length members ≤ length l)%nat.
Proof.
  intros Hnd Hmem.
  assert (length members ≤ length (seqZ 0 (Z.of_nat (length l))))%nat as Hle.
  { apply submseteq_length, NoDup_submseteq; [done|].
    intros x Hx%Hmem%reaches_range. apply elem_of_seqZ. lia. }
  rewrite length_seqZ in Hle. lia.
Qed.

(** Hanging the root [a] under the root [b] and adding its size to [b]'s
    keeps the sizes right. *)
Lemma attach_sizes l s a b sa sb :
  Z.of_nat (length l) ≤ max_int → total l → sizes_ok l s →
  lookupZ l a = Some a → lookupZ l b = Some b → a ≠ b →
  lookupZ s a = Some sa → lookupZ s b = Some sb →
  wrap64 (sb + sa) = sb + sa ∧
  sizes_ok (<[Z.to_nat a := b]> l) (<[Z.to_nat b := wrap64 (sb + sa)]> s).
Proof.
  intros Hlen Htot Hs Ha Hb Hab Hsa Hsb.
  destruct (Hs a Ha) as (ma & Hnda & Hma & Hsa').
  destruct (Hs b Hb) as (mb & Hndb & Hmb & Hsb').
  assert (sa = Z.of_nat (length ma)) as -> by congruence.
  assert (sb = Z.of_nat (length mb)) as -> by congruence.
  assert (NoDup (mb ++ ma)) as Hnd.
  { apply NoDup_app. split; [done|]. split; [|done].
    intros x Hxb%Hmb Hxa%Hma. apply Hab. by eapply reaches_det. }
  assert (∀ x, x ∈ mb ++ ma ↔ reaches (<[Z.to_nat a := b]> l) x b) as Hmem.
  { intros x. rewrite elem_of_app, Hmb, Hma, reaches_attach_iff by done.
    split; [intros [?|?]; [left|right]; done|]. intros [[? _]|[? _]]; tauto. }
  assert (wrap64 (Z.of_nat (length mb) + Z.of_nat (length ma))
          = Z.of_nat (length mb) + Z.of_nat (length ma)) as Hwrap.
  { apply wrap64_small.
    pose proof (members_length_le _ _ _ Hnd (λ x, proj1 (Hmem x))) as Hle.
    rewrite length_insert, length_app in Hle. unfold max_int in *. lia. }
  split; [done|]. intros r Hr.
  pose proof (lookupZ_Some_range _ _ _ Ha) as Hrangea.
  pose proof (lookupZ_Some_range _ _ _ Hsb) as Hrangeb.
  assert (r ≠ a) as Hra.
  { intros ->. rewrite lookupZ_insert_eq in Hr by done. congruence. }
  rewrite lookupZ_insert_ne in Hr by (done || lia).
  destruct (decide (r = b)) as [->|Hrb].
  - exists (mb ++ ma). split; [done|]. split; [done|].
    rewrite lookupZ_insert_eq by done. rewrite Hwrap, length_app. f_equal. lia.
  - destruct (Hs r Hr) as (mr & Hndr & Hmr & Hsr). exists mr.
    split; [done|]. split.
    + intros x. rewrite Hmr, reaches_attach_iff by done. split; [by left|].
      intros [[? _]|[_ ?]]; done.
    + rewrite lookupZ_insert_ne by (done || lia). done.
Qed.

Lemma Weighted_attach_spec n wuf a b :
  weighted_wf n wuf →
  lookupZ (Weighted.parent wuf) a = Some a → lookupZ (Weighted.parent wuf) b = Some b →
  a ≠ b →
  ∃ sa sb,
    lookupZ (Weighted.size wuf) a = Some sa ∧ lookupZ (Weighted.size wuf) b = Some sb ∧
    Weighted.attach wuf a b =
    Ok {| Weighted.parent := <[Z.to_nat a := b]> (Weighted.parent wuf);
          Weighted.size := <[Z.to_nat b := sb + sa]> (Weighted.size wuf);
          Weighted.count := Weighted.count wuf |} ∧
    sizes_ok (<[Z.to_nat a := b]> (Weighted.parent wuf))
             (<[Z.to_nat b := sb + sa]> (Weighted.size wuf)).
Proof.
  intros [Hwf Hsizes] Ha Hb Hab.
  pose proof (wf_parent _ _ Hwf) as Hplen. pose proof (wf_rank _ _ Hwf) as Hslen.
  pose proof (wf_n _ _ Hwf) as Hn. simpl in Hplen, Hslen.
  pose proof (lookupZ_Some_range _ _ _ Ha) as Hrangea.
  pose proof (lookupZ_Some_range _ _ _ Hb) as Hrangeb.
  destruct (lookupZ_in_range (Weighted.size wuf) a) as [sa Hsa]; [lia|].
  destruct (lookupZ_in_range (Weighted.size wuf) b) as [sb Hsb]; [lia|].
  destruct (attach_sizes (Weighted.parent wuf) (Weighted.size wuf) a b sa sb)
    as [Hwrap Hok]; try done; [lia|apply (wf_total' _ _ Hwf)|].
  exists sa, sb. split; [done|]. split; [done|]. rewrite Hwrap in Hok. split; [|done].
  unfold Weighted.attach. rewrite assign_Ok by done. simpl.
  rewrite (index_Some _ _ _ Hsb), (index_Some _ _ _ Hsa). simpl.
  rewrite assign_Ok by lia. simpl. by rewrite Hwrap.
Qed.

Lemma Weighted_Find_twice n wuf x y :
  weighted_wf n wuf → valid n x → valid n y →
  ∃ rx ry wuf1 wuf2,
    returns (λ f, Weighted.Find f wuf x) (rx, wuf1) ∧
    returns (λ f, Weighted.Find f wuf1 y) (ry, wuf2) ∧
    reaches (Weighted.parent wuf) x rx ∧ reaches (Weighted.parent wuf) y ry ∧
    weighted_wf n wuf2 ∧
    same_reps (Weighted.parent wuf) (Weighted.parent wuf2) ∧
    Weighted.size wuf2 = Weighted.size wuf ∧ Weighted.count wuf2 = Weighted.count wuf.
Proof.
  intros Hwf Hx Hy.
  destruct (Weighted_Find_spec n wuf x Hwf Hx)
    as (rx & wuf1 & Hret1 & Hrx & Hwf1 & Hsame1 & Hsize1 & Hcount1).
  destruct (Weighted_Find_spec n wuf1 y Hwf1 Hy)
    as (ry & wuf2 & Hret2 & Hry & Hwf2 & Hsame2 & Hsize2 & Hcount2).
  exists rx, ry, wuf1, wuf2.
  split; [done|]. split; [done|]. split; [done|].
  split; [by apply Hsame1|]. split; [done|].
  split; [apply (same_reps_trans _ _ _ Hsame1 Hsame2)|]. split; congruence.
Qed.

Lemma Weighted_Connected_spec n wuf x y :
  weighted_wf n wuf → valid n x → valid n y →
  ∃ b wuf', returns (λ f, Weighted.Connected f wuf x y) (b, wuf') ∧
            (b = true ↔ conn (Weighted.parent wuf) x y) ∧
            weighted_wf n wuf' ∧
            same_reps (Weighted.parent wuf) (Weighted.parent wuf') ∧
            Weighted.size wuf' = Weighted.size wuf ∧
            Weighted.count wuf' = Weighted.count wuf.
Proof.
  intros Hwf Hx Hy.
  destruct (Weighted_Find_twice n wuf x y Hwf Hx Hy)
    as (rx & ry & wuf1 & wuf2 & Hf1 & Hf2 & Hrx & Hry & Hwf2 & Hsame & Hsize & Hcount).
  exists (bool_decide (rx = ry)), wuf2. split; [|split; [|done]].
  - unfold Weighted.Connected.
    apply (returns_bind (λ f, Weighted.Find f wuf x) _ _ _ Hf1).
    apply (returns_bind (λ f, Weighted.Find f wuf1 y) _ _ _ Hf2).
    by exists O.
  - rewrite bool_decide_eq_true, (conn_reaches _ _ _ _ Hrx). split.
    + by intros ->.
    + intros Hry'. by eapply reaches_det.
Qed.

Lemma Weighted_GetSize_spec n wuf x :
  weighted_wf n wuf → valid n x →
  ∃ members wuf', returns (λ f, Weighted.GetSize f wuf x)
                    (Z.of_nat (length members), wuf') ∧
                  NoDup members ∧
                  (∀ y, y ∈ members ↔ conn (Weighted.parent wuf) x y) ∧
                  weighted_wf n wuf' ∧
                  same_reps (Weighted.parent wuf) (Weighted.parent wuf').
Proof.
  intros Hwf Hx.
  destruct (Weighted_Find_spec n wuf x Hwf Hx)
    as (r & wuf' & Hret & Hr & Hwf' & Hsame & Hsize & _).
  destruct Hwf as [Hwf Hsizes].
  destruct (Hsizes r) as (members & Hnd & Hmem & Hs); [by eapply reaches_end|].
  exists members, wuf'. split; [|split; [done|split; [|done]]].
  - unfold Weighted.GetSize.
    apply (returns_bind (λ f, Weighted.Find f wuf x) _ _ _ Hret).
    exists O. intros f _. rewrite Hsize. by rewrite (index_Some _ _ _ Hs).
  - intros y. by rewrite Hmem, (conn_reaches _ _ _ _ Hr).
Qed.

Lemma Weighted_Union_spec n wuf x y :
  weighted_wf n wuf → valid n x → valid n y →
  ∃ b wuf', returns (λ f, Weighted.Union f wuf x y) (b, wuf') ∧
            (b = false ↔ conn (Weighted.parent wuf) x y) ∧
            weighted_wf n wuf' ∧
            Weighted.count wuf' = Weighted.count wuf - (if b then 1 else 0) ∧
            (∀ u v, conn (Weighted.parent wuf') u v ↔
                    conn (Weighted.parent wuf) u v ∨
                    (conn (Weighted.parent wuf) u x ∧ conn (Weighted.parent wuf) y v) ∨
                    (conn (Weighted.parent wuf) u y ∧ conn (Weighted.parent wuf) x v)) ∧
            (b = true →
             ∃ rx ry sx sy,
               reaches (Weighted.parent wuf) x rx ∧ reaches (Weighted.parent wuf) y ry ∧
               lookupZ (Weighted.size wuf) rx = Some sx ∧
               lookupZ (Weighted.size wuf) ry = Some sy ∧
               reaches (Weighted.parent wuf') x (if decide (sx < sy) then ry else rx) ∧
               lookupZ (Weighted.size wuf') (if decide (sx < sy) then ry else rx)
                 = Some (sx + sy)).
Proof.
  intros Hwf Hx Hy.
  destruct (Weighted_Find_twice n wuf x y Hwf Hx Hy)
    as (rx & ry & wuf1 & wuf2 & Hf1 & Hf2 & Hrx & Hry & Hwf2 & Hsame & Hsize & Hcount).
  assert (conn (Weighted.parent wuf) x y ↔ rx = ry) as Hconn.
  { rewrite (conn_reaches _ _ _ _ Hrx). split.
    - intros Hry'. by eapply reaches_det.
    - by intros ->. }
  destruct (decide (rx = ry)) as [Heq|Hne].
  { exists false, wuf2. split; [|split; [|split; [done|split; [|split; [|done]]]]].
    - unfold Weighted.Union.
      apply (returns_bind (λ f, Weighted.Find f wuf x) _ _ _ Hf1).
      apply (returns_bind (λ f, Weighted.Find f wuf1 y) _ _ _ Hf2).
      exists O. intros f _. by rewrite decide_True.
    - by rewrite Hconn.
    - lia.
    - intros u v. rewrite <- (same_reps_conn _ _ u v Hsame).
      apply Hconn in Heq. split; [by left|].
      intros [H|[[Hu Hv]|[Hu Hv]]]; [done|..].
      + eauto using conn_trans.
      + eauto using conn_trans, conn_sym. }
  pose proof Hwf2 as [Hwfe Hsizes].
  assert (reaches (Weighted.parent wuf2) x rx) as Hrx2 by by apply Hsame.
  assert (reaches (Weighted.parent wuf2) y ry) as Hry2 by by apply Hsame.
  pose proof (reaches_end _ _ _ Hrx2) as Hrootx.
  pose proof (reaches_end _ _ _ Hry2) as Hrooty.
  pose proof (wf_parent _ _ Hwfe) as Hplen. pose proof (wf_rank _ _ Hwfe) as Hslen.
  simpl in Hplen, Hslen.
  pose proof (lookupZ_Some_range _ _ _ Hrootx) as Hrangex.
  pose proof (lookupZ_Some_range _ _ _ Hrooty) as Hrangey.
  destruct (lookupZ_in_range (Weighted.size wuf2) rx) as [sx Hsx]; [lia|].
  destruct (lookupZ_in_range (Weighted.size wuf2) ry) as [sy Hsy]; [lia|].
  set (a := if decide (sx < sy) then rx else ry).
  set (b := if decide (sx < sy) then ry else rx).
  assert (a ≠ b ∧ lookupZ (Weighted.parent wuf2) a = Some a ∧
          lookupZ (Weighted.parent wuf2) b = Some b ∧
          ((a = rx ∧ b = ry) ∨ (a = ry ∧ b = rx))) as (Hab & Ha & Hb & Hcases).
  { unfold a, b. case_decide.
    - split; [done|]. split; [done|]. split; [done|]. by left.
    - split; [by apply not_eq_sym|]. split; [done|]. split; [done|]. by right. }
  destruct (Weighted_attach_spec n wuf2 a b Hwf2 Ha Hb Hab)
    as (sa & sb & Hsa & Hsb & Hattach & Hok).
  set (wuf3 := {| Weighted.parent := <[Z.to_nat a := b]> (Weighted.parent wuf2);
                  Weighted.size := <[Z.to_nat b := sb + sa]> (Weighted.size wuf2);
                  Weighted.count := Weighted.count wuf2 |}) in *.
  assert (sb + sa = sx + sy) as Hsum.
  { destruct Hcases as [[-> ->]|[-> ->]]; simplify_eq; lia. }
  assert (Z.of_nat (size (roots (Weighted.parent wuf3))) = Weighted.count wuf2 - 1) as Hroots.
  { simpl. rewrite roots_attach, size_roots_remove by (done || by apply elem_of_roots).
    pose proof (wf_count _ _ Hwfe) as Hc. simpl in Hc. lia. }
  assert (wrap64 (Weighted.count wuf2 - 1) = Weighted.count wuf2 - 1) as Hwrap.
  { apply wrap64_small. rewrite <- Hroots. pose proof (wf_n _ _ Hwfe) as Hn.
    pose proof (size_roots_le (Weighted.parent wuf3)) as Hle.
    assert (length (Weighted.parent wuf3) = length (Weighted.parent wuf2)) as Hl
      by apply length_insert.
    clearbody wuf3. unfold max_int in *. lia. }
  assert (∀ u v, conn (Weighted.parent wuf3) u v ↔
                 conn (Weighted.parent wuf) u v ∨
                 (conn (Weighted.parent wuf) u x ∧ conn (Weighted.parent wuf) y v) ∨
                 (conn (Weighted.parent wuf) u y ∧ conn (Weighted.parent wuf) x v)) as Hchar.
  { intros u v. simpl.
    rewrite (attach_conn _ a b u v Ha Hb Hab (wf_total' _ _ Hwfe)).
    rewrite <- !(same_reps_conn _ _ _ _ Hsame).
    assert (∀ z, conn (Weighted.parent wuf) z rx ↔ conn (Weighted.parent wuf) z x) as Ex.
    { intros z. split; intros Hz; (eapply conn_trans; [exact Hz|]).
      - by apply conn_sym, conn_root.
      - by apply conn_root. }
    assert (∀ z, conn (Weighted.parent wuf) z ry ↔ conn (Weighted.parent wuf) z y) as Ey.
    { intros z. split; intros Hz; (eapply conn_trans; [exact Hz|]).
      - by apply conn_sym, conn_root.
      - by apply conn_root. }
    assert (∀ z w, conn (Weighted.parent wuf) z w ↔ conn (Weighted.parent wuf) w z) as Es.
    { intros z w. split; apply conn_sym. }
    destruct Hcases as [[-> ->]|[-> ->]].
    - rewrite (Es ry v), (Es rx v), !Ex, !Ey, (Es v y), (Es v x). tauto.
    - rewrite (Es ry v), (Es rx v), !Ex, !Ey, (Es v y), (Es v x). tauto. }
  exists true, (Weighted.with_count wuf3 (wrap64 (Weighted.count wuf3 - 1))).
  split; [|split; [|split; [|split; [|split; [done|]]]]].
  - unfold Weighted.Union.
    apply (returns_bind (λ f, Weighted.Find f wuf x) _ _ _ Hf1).
    apply (returns_bind (λ f, Weighted.Find f wuf1 y) _ _ _ Hf2).
    exists O. intros f _. rewrite decide_False by done.
    rewrite (index_Some _ _ _ Hsx), (index_Some _ _ _ Hsy). simpl.
    fold a b. replace (if decide (sx < sy) then Weighted.attach wuf2 rx ry
                       else Weighted.attach wuf2 ry rx)
      with (Weighted.attach wuf2 a b) by (unfold a, b; by case_decide).
    by rewrite Hattach.
  - by rewrite Hconn.
  - split; [|done]. split; simpl.
    + apply (wf_n _ _ Hwfe).
    + by rewrite length_insert.
    + by rewrite length_insert.
    + intros z Hz. apply attach_total; [done..|apply (wf_total' _ _ Hwfe)|].
      rewrite length_insert. unfold valid in Hz. lia.
    + rewrite Hwrap. simpl in Hroots. lia.
  - simpl. rewrite Hwrap. lia.
  - intros _. exists rx, ry, sx, sy. rewrite <- Hsize.
    split; [done|]. split; [done|]. split; [done|]. split; [done|]. fold b. simpl. split.
    + pose proof (attach_reaches _ a b x rx Ha Hb Hab Hrx2) as Hx'.
      destruct Hcases as [[Ea Eb]|[Ea Eb]].
      * by rewrite decide_True in Hx' by done.
      * rewrite decide_False in Hx' by congruence. clearbody b. by subst b.
    + rewrite lookupZ_insert_eq by lia. f_equal. lia.
Qed.

Lemma Weighted_exec_inv n wuf c f r wuf' :
  weighted_wf n wuf → valid_call n c → Weighted.exec f wuf c = Ok (r, wuf') →
  weighted_wf n wuf' ∧
  ∀ ps, (∀ u v, conn (Weighted.parent wuf) u v ↔ joined n ps u v) →
        ∀ u v, conn (Weighted.parent wuf') u v ↔
               joined n (ps ++ match c with CallUnion x y => [(x, y)] | _ => [] end) u v.
Proof.
  intros Hwf Hc Hrun. destruct c as [x|x y|x y]; simpl in *.
  - destruct (Weighted.Find f wuf x) as [[rx wuf1]| |] eqn:E; [|done..].
    injection Hrun as <- <-.
    destruct (Weighted_Find_spec n wuf x Hwf Hc) as (r0 & wuf0 & Hret & _ & Hwf' & Hsame & _).
    pose proof (returns_of_monotone _ _ _ (Weighted_Find_monotone wuf x) E) as Hret'.
    pose proof (returns_inj _ _ _ Hret Hret') as [= -> ->].
    split; [done|]. intros ps Hps u v.
    by rewrite app_nil_r, <- (same_reps_conn _ _ u v Hsame).
  - destruct Hc as [Hx Hy].
    destruct (Weighted.Union f wuf x y) as [[b wuf1]| |] eqn:E; [|done..].
    injection Hrun as <- <-.
    destruct (Weighted_Union_spec n wuf x y Hwf Hx Hy)
      as (b0 & wuf0 & Hret & _ & Hwf' & _ & Hchar & _).
    pose proof (returns_of_monotone _ _ _ (Weighted_Union_monotone wuf x y) E) as Hret'.
    pose proof (returns_inj _ _ _ Hret Hret') as [= -> ->].
    split; [done|]. intros ps Hps.
    by apply (joined_extend n ps x y (conn (Weighted.parent wuf))).
  - destruct Hc as [Hx Hy].
    destruct (Weighted.Connected f wuf x y) as [[b wuf1]| |] eqn:E; [|done..].
    injection Hrun as <- <-.
    destruct (Weighted_Connected_spec n wuf x y Hwf Hx Hy)
      as (b0 & wuf0 & Hret & _ & Hwf' & Hsame & _).
    pose proof (returns_of_monotone _ _ _ (Weighted_Connected_monotone wuf x y) E) as Hret'.
    pose proof (returns_inj _ _ _ Hret Hret') as [= -> ->].
    split; [done|]. intros ps Hps u v.
    by rewrite app_nil_r, <- (same_reps_conn _ _ u v Hsame).
Qed.

Lemma Weighted_trace_inv n t wuf :
  Weighted.trace n t wuf →
  weighted_wf n wuf ∧
  ∀ u v, conn (Weighted.parent wuf) u v ↔ joined n (union_pairs t) u v.
Proof.
  induction 1 as [wuf Hnew|t wuf c f r wuf' _ (Hwf & Hconn) Hc Hrun].
  - split; [by apply NewWeightedUnionFind_wf|].
    apply NewWeightedUnionFind_inv in Hnew as [Hn ->]. simpl.
    intros u v. by rewrite conn_seqZ, joined_nil.
  - destruct (Weighted_exec_inv _ _ _ _ _ _ Hwf Hc Hrun) as (Hwf' & Hconn').
    split; [done|]. rewrite union_pairs_snoc. by apply Hconn'.
Qed.

Lemma Weighted_answers n wuf x y b :
  weighted_wf n wuf → valid n x → valid n y →
  Weighted.answers wuf x y b ↔ (b = true ↔ conn (Weighted.parent wuf) x y).
Proof.
  intros Hwf Hx Hy.
  destruct (Weighted_Connected_spec n wuf x y Hwf Hx Hy) as (c & wuf' & Hret & Hc & _).
  split.
  - intros (wuf'' & Hret'). by pose proof (returns_inj _ _ _ Hret Hret') as [= <- _].
  - intros Hb. exists wuf'. replace b with c; [done|]. by apply (bool_agree _ _ _ _ Hc Hb).
Qed.

Lemma Weighted_GetSize_lookup n wuf x r s :
  weighted_wf n wuf → valid n x →
  reaches (Weighted.parent wuf) x r → lookupZ (Weighted.size wuf) r = Some s →
  ∃ wuf', returns (λ f, Weighted.GetSize f wuf x) (s, wuf') ∧
          returns (λ f, Weighted.Find f wuf x) (r, wuf').
Proof.
  intros Hwf Hx Hr Hs.
  destruct (Weighted_Find_spec n wuf x Hwf Hx) as (r0 & wuf' & Hret & Hr0 & _ & _ & Hsize & _).
  rewrite <- (reaches_det _ _ _ _ Hr Hr0) in Hret.
  exists wuf'. split; [|done]. unfold Weighted.GetSize.
  apply (returns_bind (λ f, Weighted.Find f wuf x) _ _ _ Hret).
  exists O. intros f _. rewrite Hsize. by rewrite (index_Some _ _ _ Hs).
Qed.

Lemma weighted_trace : Weighted.trace 6 weighted_calls weighted_state.
Proof.
  eapply (Weighted.trace_call 6 [_; _; _] _ (CallUnion 1 3) 3 (RetBool true)).
  - eapply (Weighted.trace_call 6 [_; _] _ (CallUnion 4 2) 3 (RetBool true)).
    + eapply (Weighted.trace_call 6 [_] _ (CallUnion 2 3) 3 (RetBool true)).
      * eapply (Weighted.trace_call 6 [] _ (CallUnion 0 1) 3 (RetBool true)).
        -- constructor. by vm_compute.
        -- unfold valid_call, valid. lia.
        -- by vm_compute.
      * unfold valid_call, valid. lia.
      * by vm_compute.
    + unfold valid_call, valid. lia.
    + by vm_compute.
  - unfold valid_call, valid. lia.
  - by vm_compute.
Qed.

(** X13. [GetSize] is the size of the set.  In every reachable state of the
    structure with sizes, [GetSize(x)] returns the number of elements that
    are connected with [x]. *)
Theorem GetSize_counts_the_set n t wuf x :
  Weighted.trace n t wuf → valid n x →
  ∃ members wuf',
    returns (λ f, Weighted.GetSize f wuf x) (Z.of_nat (length members), wuf') ∧
    NoDup members ∧
    ∀ y, y ∈ members ↔ valid n y ∧ Weighted.answers wuf x y true.
Proof.
  intros Ht Hx. destruct (Weighted_trace_inv _ _ _ Ht) as (Hwf & _).
  destruct (Weighted_GetSize_spec n wuf x Hwf Hx) as (members & wuf' & Hret & Hnd & Hmem & _).
  exists members, wuf'. split; [done|]. split; [done|].
  intros y. rewrite Hmem. split.
  - intros Hc. assert (valid n y) as Hy.
    { destruct Hc as (r & _ & Hy%reaches_range). destruct Hwf as [Hwf _].
      pose proof (wf_parent _ _ Hwf) as Hlen. simpl in Hlen. unfold valid. lia. }
    split; [done|]. by apply (Weighted_answers n).
  - intros [Hy Ha]. by apply (Weighted_answers n wuf x y true Hwf Hx Hy).
Qed.

Lemma GetSize_counts_the_set_witness :
  (Weighted.trace 6 weighted_calls weighted_state ∧ valid 6 1) ∧
  ∃ members wuf',
    returns (λ f, Weighted.GetSize f weighted_state 1)
      (Z.of_nat (length members), wuf') ∧
    NoDup members ∧
    ∀ y, y ∈ members ↔ valid 6 y ∧ Weighted.answers weighted_state 1 y true.
Proof.
  assert (valid 6 1) as H1 by (unfold valid; lia).
  split; [split; [apply weighted_trace|exact H1]|].
  exact (GetSize_counts_the_set 6 weighted_calls weighted_state 1 weighted_trace H1).
Defined.


(** X15. Union by size.  When [Union(x, y)] returns true on the structure
    with sizes, the two sets had sizes [sx] and [sy] by [GetSize]; afterwards
    [GetSize(x)] is [sx + sy], and the root of the merged set is the old root
    of [y] if [sx < sy] and the old root of [x] otherwise. *)
Theorem Union_by_size n t wuf x y wuf' :
  Weighted.trace n t wuf → valid n x → valid n y →
  returns (λ f, Weighted.Union f wuf x y) (true, wuf') →
  ∃ rx ry sx sy wx wy wx',
    returns (λ f, Weighted.Find f wuf x) (rx, wx) ∧
    returns (λ f, Weighted.Find f wuf y) (ry, wy) ∧
    returns (λ f, Weighted.GetSize f wuf x) (sx, wx) ∧
    returns (λ f, Weighted.GetSize f wuf y) (sy, wy) ∧
    returns (λ f, Weighted.GetSize f wuf' x) (sx + sy, wx') ∧
    returns (λ f, Weighted.Find f wuf' x) (if decide (sx < sy) then ry else rx, wx').
Proof.
  intros Ht Hx Hy Hret. destruct (Weighted_trace_inv _ _ _ Ht) as (Hwf & _).
  destruct (Weighted_Union_spec n wuf x y Hwf Hx Hy)
    as (b & wuf0 & Hret0 & _ & Hwf' & _ & _ & Hsizes).
  pose proof (returns_inj _ _ _ Hret Hret0) as [= <- <-].
  destruct (Hsizes eq_refl) as (rx & ry & sx & sy & Hrx & Hry & Hsx & Hsy & Hr' & Hs').
  destruct (Weighted_GetSize_lookup n wuf x rx sx Hwf Hx Hrx Hsx) as (wx & Hgx & Hfx).
  destruct (Weighted_GetSize_lookup n wuf y ry sy Hwf Hy Hry Hsy) as (wy & Hgy & Hfy).
  destruct (Weighted_GetSize_lookup n wuf' x _ _ Hwf' Hx Hr' Hs') as (wx' & Hgx' & Hfx').
  by exists rx, ry, sx, sy, wx, wy, wx'.
Qed.



Lemma Union_by_size_witness :
  (Weighted.trace 6 weighted_calls weighted_state ∧ valid 6 5 ∧ valid 6 0 ∧
   returns (λ f, Weighted.Union f weighted_state 5 0) (true, weighted_state')) ∧
  ∃ rx ry sx sy wx wy wx',
    returns (λ f, Weighted.Find f weighted_state 5) (rx, wx) ∧
    returns (λ f, Weighted.Find f weighted_state 0) (ry, wy) ∧
    returns (λ f, Weighted.GetSize f weighted_state 5) (sx, wx) ∧
    returns (λ f, Weighted.GetSize f weighted_state 0) (sy, wy) ∧
    returns (λ f, Weighted.GetSize f weighted_state' 5) (sx + sy, wx') ∧
    returns (λ f, Weighted.Find f weighted_state' 5)
      (if decide (sx < sy) then ry else rx, wx').
Proof.
  assert (valid 6 5 ∧ valid 6 0) as [H5 H0] by (unfold valid; lia).
  assert (returns (λ f, Weighted.Union f weighted_state 5 0) (true, weighted_state'))
    as Hret.
  { apply (returns_of_monotone _ 3%nat); [apply Weighted_Union_monotone|by vm_compute]. }
  split; [by repeat split; try apply weighted_trace|].
  exact (Union_by_size 6 weighted_calls weighted_state 5 0 weighted_state'
           weighted_trace H5 H0 Hret).
Defined.

(** * [NumberOfIslands] *)

(** ** Cells and their indices *)

Lemma cell_id_valid rows cols c :
  in_grid rows cols c → valid (rows * cols) (cell_id cols c).
Proof.
  destruct c as [i j]. unfold in_grid, valid, cell_id. simpl. intros [Hi Hj].
  assert (0 ≤ i * cols) by (apply Z.mul_nonneg_nonneg; lia).
  assert (i * cols ≤ (rows - 1) * cols) by (apply Z.mul_le_mono_nonneg_r; lia).
  lia.
Qed.

Lemma cell_id_inj rows cols c d :
  in_grid rows cols c → in_grid rows cols d →
  cell_id cols c = cell_id cols d → c = d.
Proof.
  destruct c as [i j], d as [i' j']. unfold in_grid, cell_id. simpl.
  intros [Hi Hj] [Hi' Hj'] Heq.
  assert (i = i') as ->; [|f_equal; lia].
  destruct (Z.lt_trichotomy i i') as [Hlt|[Heq'|Hlt]]; [|done|].
  - assert ((i + 1) * cols ≤ i' * cols) by (apply Z.mul_le_mono_nonneg_r; lia). lia.
  - assert ((i' + 1) * cols ≤ i * cols) by (apply Z.mul_le_mono_nonneg_r; lia). lia.
Qed.

Lemma cell_of_id rows cols x :
  0 < cols → valid (rows * cols) x → ∃ c, in_grid rows cols c ∧ cell_id cols c = x.
Proof.
  unfold valid. intros Hcols Hx.
  exists (x `div` cols, x `mod` cols). unfold in_grid, cell_id. simpl.
  pose proof (Z.mod_pos_bound x cols Hcols) as Hmod.
  pose proof (Z.div_mod x cols ltac:(lia)) as Hdiv.
  split; [|lia]. split; [|done]. split.
  - apply Z.div_pos; lia.
  - apply Z.div_lt_upper_bound; lia.
Qed.

Lemma elem_of_row_cells i j0 k c :
  c ∈ row_cells i j0 k ↔ c.1 = i ∧ j0 ≤ c.2 < j0 + Z.of_nat k.
Proof.
  unfold row_cells. rewrite list_elem_of_fmap. destruct c as [i' j']. simpl. split.
  - intros (j & [= -> ->] & Hj%elem_of_seqZ). done.
  - intros [-> Hj]. exists j'. by rewrite elem_of_seqZ.
Qed.

Lemma elem_of_grid_cells cols i0 k c :
  c ∈ grid_cells cols i0 k ↔ i0 ≤ c.1 < i0 + Z.of_nat k ∧ 0 ≤ c.2 < cols.
Proof.
  unfold grid_cells. rewrite list_elem_of_bind. split.
  - intros (i & [Hi Hj]%elem_of_row_cells & Hi'%elem_of_seqZ). lia.
  - intros [Hi Hj]. exists c.1. rewrite elem_of_row_cells, elem_of_seqZ. lia.
Qed.

Lemma row_cells_S i j0 k :
  row_cells i j0 (S k) = (i, j0) :: row_cells i (j0 + 1) k.
Proof.
  unfold row_cells. rewrite Nat2Z.inj_succ, seqZ_cons by lia. simpl.
  do 3 f_equal; lia.
Qed.

Lemma grid_cells_S cols i0 k :
  grid_cells cols i0 (S k) = row_cells i0 0 (Z.to_nat cols) ++ grid_cells cols (i0 + 1) k.
Proof.
  unfold grid_cells. rewrite Nat2Z.inj_succ, seqZ_cons by lia. simpl.
  do 3 f_equal; lia.
Qed.

Lemma length_row_cells i j0 k : length (row_cells i j0 k) = k.
Proof. unfold row_cells. rewrite length_fmap, length_seqZ. lia. Qed.

Lemma length_grid_cells cols i0 k :
  0 ≤ cols → Z.of_nat (length (grid_cells cols i0 k)) = Z.of_nat k * cols.
Proof.
  intros Hcols. revert i0. induction k as [|k IH]; intros i0; [done|].
  rewrite grid_cells_S, length_app, length_row_cells, Nat2Z.inj_add, IH. lia.
Qed.

Lemma NoDup_row_cells i j0 k : NoDup (row_cells i j0 k).
Proof.
  revert j0. induction k as [|k IH]; intros j0; [constructor|].
  rewrite row_cells_S. constructor; [|done].
  rewrite elem_of_row_cells. simpl. lia.
Qed.

Lemma NoDup_grid_cells cols i0 k : NoDup (grid_cells cols i0 k).
Proof.
  revert i0. induction k as [|k IH]; intros i0; [constructor|].
  rewrite grid_cells_S. apply NoDup_app. split; [apply NoDup_row_cells|]. split; [|done].
  intros c [Hi _]%elem_of_row_cells [Hi' _]%elem_of_grid_cells. lia.
Qed.

Lemma length_filter_complement {A} (P : A → Prop) `{!∀ x, Decision (P x)} (l : list A) :
  (length (filter P l) + length (filter (λ x, ¬ P x) l) = length l)%nat.
Proof.
  induction l as [|a l IH]; [done|].
  rewrite !filter_cons. destruct (decide (P a)).
  - rewrite decide_False by tauto. simpl. lia.
  - rewrite decide_True by done. simpl. lia.
Qed.

(** ** The pairs of the loops are the pairs of neighbouring land cells *)

Lemma elem_of_dirs_pairs grid rows cols c a b :
  (a, b) ∈ dirs_pairs grid rows cols c directions ↔
  a = cell_id cols c ∧
  ∃ d, b = cell_id cols d ∧ in_grid rows cols d ∧ is_land grid d ∧ adjacent c d.
Proof.
  unfold dirs_pairs, directions, adjacent. simpl. rewrite app_nil_r.
  rewrite !elem_of_app. split.
  - intros [H|[H|[H|H]]];
      (case_decide as Hd; [|by apply elem_of_nil in H]);
      apply list_elem_of_singleton in H; injection H as -> ->;
      (split; [done|]); eexists; (split; [done|]);
      (split; [apply Hd|]); (split; [apply Hd|]); simpl; lia.
  - intros (-> & [di dj] & -> & Hin & Hland & Hadj). simpl in Hadj.
    destruct Hadj as [[-> ->]|[[-> ->]|[[-> ->]|[-> ->]]]].
    + left. rewrite decide_True; [apply list_elem_of_singleton; do 3 f_equal; lia|].
      replace (c.1 + -1, c.2 + 0) with (c.1 - 1, c.2) by (f_equal; lia). done.
    + right; left. rewrite decide_True; [apply list_elem_of_singleton; do 3 f_equal; lia|].
      replace (c.1 + 1, c.2 + 0) with (c.1 + 1, c.2) by (f_equal; lia). done.
    + right; right; left.
      rewrite decide_True; [apply list_elem_of_singleton; do 3 f_equal; lia|].
      replace (c.1 + 0, c.2 + -1) with (c.1, c.2 - 1) by (f_equal; lia). done.
    + right; right; right.
      rewrite decide_True; [apply list_elem_of_singleton; do 3 f_equal; lia|].
      replace (c.1 + 0, c.2 + 1) with (c.1, c.2 + 1) by (f_equal; lia). done.
Qed.

Lemma elem_of_cells_pairs grid rows cols cells a b :
  (a, b) ∈ cells_pairs grid rows cols cells ↔
  ∃ c d, a = cell_id cols c ∧ b = cell_id cols d ∧ c ∈ cells ∧ is_land grid c ∧
         in_grid rows cols d ∧ is_land grid d ∧ adjacent c d.
Proof.
  unfold cells_pairs. rewrite list_elem_of_bind. split.
  - intros (c & Hab & Hc). case_decide as Hland; [|by apply elem_of_nil in Hab].
    apply elem_of_dirs_pairs in Hab as (-> & d & -> & Hd).
    exists c, d. tauto.
  - intros (c & d & -> & -> & Hc & Hland & Hd). exists c. split; [|done].
    rewrite decide_True by done. apply elem_of_dirs_pairs. split; [done|].
    exists d. tauto.
Qed.

(** ** Islands are the classes of land cells *)

Section islands.
Variables (grid : list (list Z)) (rows cols : Z).
Hypothesis Hcols : 0 < cols.

Let n := rows * cols.
Let cells := grid_cells cols 0 (Z.to_nat rows).
Let ps := cells_pairs grid rows cols cells.

Lemma elem_of_cells c : 0 ≤ rows → c ∈ cells ↔ in_grid rows cols c.
Proof.
  intros Hrows. unfold cells, in_grid. rewrite elem_of_grid_cells. lia.
Qed.

Lemma linked_land c d :
  linked grid rows cols c d →
  (in_grid rows cols c ∧ is_land grid c) ∧ (in_grid rows cols d ∧ is_land grid d).
Proof. induction 1; tauto. Qed.

Lemma adjacent_sym c d : adjacent c d → adjacent d c.
Proof. unfold adjacent. lia. Qed.

Lemma linked_joined c d :
  0 ≤ rows → linked grid rows cols c d → joined n ps (cell_id cols c) (cell_id cols d).
Proof.
  intros Hrows. induction 1 as [c Hc Hland|c d Hc Hd Hlc Hld Hadj|c d _ IH|c d e _ IH1 _ IH2].
  - apply joined_refl. by apply cell_id_valid.
  - apply joined_pair. apply elem_of_cells_pairs. exists c, d.
    rewrite elem_of_cells by done. tauto.
  - by apply joined_sym.
  - by eapply joined_trans.
Qed.

Lemma joined_linked x y :
  0 ≤ rows → joined n ps x y →
  (x = y ∧ valid n x) ∨
  ∃ c d, x = cell_id cols c ∧ y = cell_id cols d ∧ linked grid rows cols c d.
Proof.
  intros Hrows. induction 1 as [x Hx|x y Hxy|x y _ IH|x y z _ IH1 _ IH2].
  - by left.
  - right. apply elem_of_cells_pairs in Hxy as (c & d & -> & -> & Hc & Hlc & Hd & Hld & Hadj).
    apply elem_of_cells in Hc; [|done]. exists c, d. split; [done|]. split; [done|].
    by apply linked_step.
  - destruct IH as [[-> Hx]|(c & d & -> & -> & Hl)]; [by left|].
    right. exists d, c. split; [done|]. split; [done|]. by apply linked_sym.
  - destruct IH1 as [[-> Hx]|(c & d & -> & -> & Hl)]; [done|].
    destruct IH2 as [[<- Hy]|(d' & e & Heq & -> & Hl')].
    + right. by exists c, d.
    + right. exists c, e. split; [done|]. split; [done|].
      apply (cell_id_inj rows) in Heq as <-;
        [|apply (linked_land _ _ Hl)|apply (linked_land _ _ Hl')].
      by eapply linked_trans.
Qed.

(** A cell that is not land is joined to nothing else. *)
Lemma joined_water c y :
  0 ≤ rows → in_grid rows cols c → ¬ is_land grid c →
  joined n ps (cell_id cols c) y → y = cell_id cols c.
Proof.
  intros Hrows Hc Hwater Hj.
  destruct (joined_linked _ _ Hrows Hj) as [[<- _]|(c' & d & Heq & -> & Hl)]; [done|].
  apply (cell_id_inj rows) in Heq as <-; [|done|apply (linked_land _ _ Hl)].
  destruct Hwater. apply (linked_land _ _ Hl).
Qed.

Lemma joined_land c d :
  0 ≤ rows → in_grid rows cols c → is_land grid c → in_grid rows cols d →
  joined n ps (cell_id cols c) (cell_id cols d) → linked grid rows cols c d.
Proof.
  intros Hrows Hc Hland Hd Hj.
  destruct (joined_linked _ _ Hrows Hj) as [[Heq _]|(c' & d' & Heq & Heq' & Hl)].
  - apply (cell_id_inj rows) in Heq as <-; [|done..]. by apply linked_refl.
  - apply (cell_id_inj rows) in Heq as <-; [|done|apply (linked_land _ _ Hl)].
    apply (cell_id_inj rows) in Heq' as <-; [|done|apply (linked_land _ _ Hl)]. done.
Qed.

Lemma classes_islands k :
  0 ≤ rows → classes n ps k →
  islands grid rows cols
    (k - Z.of_nat (length (filter (λ c, ¬ is_land grid c) cells))).
Proof.
  intros Hrows (reps & Hnodup & Hlen & Hvalid & Hreps).
  set (R := filter (λ c, cell_id cols c ∈ reps) (filter (is_land grid) cells)).
  set (W := filter (λ c, ¬ is_land grid c) cells).
  assert (NoDup cells) as Hcells by apply NoDup_grid_cells.
  assert (∀ c, c ∈ R ↔ in_grid rows cols c ∧ is_land grid c ∧ cell_id cols c ∈ reps) as HR.
  { intros c. unfold R. rewrite !list_elem_of_filter, elem_of_cells by done. tauto. }
  assert (∀ c, c ∈ W ↔ in_grid rows cols c ∧ ¬ is_land grid c) as HW.
  { intros c. unfold W. rewrite list_elem_of_filter, elem_of_cells by done. tauto. }
  assert (reps ≡ₚ (cell_id cols <$> R) ++ (cell_id cols <$> W)) as Hperm.
  { apply NoDup_Permutation; [done| |].
    - apply NoDup_app. split; [|split].
      + apply NoDup_fmap_2_strong; [|by do 2 apply NoDup_filter].
        intros c d Hc%HR Hd%HR. apply (cell_id_inj rows); tauto.
      + intros x (c & -> & Hc%HR)%list_elem_of_fmap (d & Heq & Hd%HW)%list_elem_of_fmap.
        apply (cell_id_inj rows) in Heq as ->; tauto.
      + apply NoDup_fmap_2_strong; [|by apply NoDup_filter].
        intros c d Hc%HW Hd%HW. apply (cell_id_inj rows); tauto.
    - intros x. rewrite elem_of_app, !list_elem_of_fmap. split.
      + intros Hx. pose proof Hx as Hv. rewrite Forall_forall in Hvalid.
        apply Hvalid, (cell_of_id rows cols x Hcols) in Hv as (c & Hc & <-).
        destruct (decide (is_land grid c)) as [Hland|Hwater].
        * left. exists c. split; [done|]. by apply HR.
        * right. exists c. split; [done|]. by apply HW.
      + intros [(c & -> & Hc%HR)|(c & -> & [Hc Hwater]%HW)]; [tauto|].
        destruct (Hreps (cell_id cols c)) as (r & Hr & Hj & _);
          [by apply cell_id_valid|].
        by apply joined_water in Hj as ->. }
  exists R. split; [by do 2 apply NoDup_filter|]. split; [|split].
  - apply Permutation_length in Hperm.
    rewrite length_app, !length_fmap in Hperm. fold W. lia.
  - apply Forall_forall. intros c Hc%HR. tauto.
  - intros c Hc Hland.
    destruct (Hreps (cell_id cols c)) as (r & Hr & Hj & Huniq); [by apply cell_id_valid|].
    pose proof Hr as Hv. rewrite Forall_forall in Hvalid.
    apply Hvalid, (cell_of_id rows cols r Hcols) in Hv as (d & Hd & <-).
    pose proof (joined_land c d Hrows Hc Hland Hd Hj) as Hl.
    exists d. split; [|split; [done|]].
    + apply HR. split; [done|]. split; [apply (linked_land _ _ Hl)|done].
    + intros d' Hd'%HR Hl'. apply (cell_id_inj rows cols); [tauto|done|].
      apply Huniq; [tauto|]. by apply linked_joined.
Qed.
Lemma islands_classes k :
  0 ≤ rows → islands grid rows cols k →
  classes n ps (k + Z.of_nat (length (filter (λ c, ¬ is_land grid c) cells))).
Proof.
  intros Hrows (R & Hnodup & Hlen & HR & Hreps).
  set (W := filter (λ c, ¬ is_land grid c) cells).
  rewrite Forall_forall in HR.
  assert (∀ c, c ∈ W ↔ in_grid rows cols c ∧ ¬ is_land grid c) as HW.
  { intros c. unfold W. rewrite list_elem_of_filter, elem_of_cells by done. tauto. }
  exists ((cell_id cols <$> R) ++ (cell_id cols <$> W)). split; [|split; [|split]].
  - apply NoDup_app. split; [|split].
    + apply NoDup_fmap_2_strong; [|done].
      intros c d Hc%HR Hd%HR. apply (cell_id_inj rows); tauto.
    + intros x (c & -> & Hc%HR)%list_elem_of_fmap (d & Heq & Hd%HW)%list_elem_of_fmap.
      apply (cell_id_inj rows) in Heq as ->; tauto.
    + apply NoDup_fmap_2_strong; [|apply NoDup_filter, NoDup_grid_cells].
      intros c d Hc%HW Hd%HW. apply (cell_id_inj rows); tauto.
  - rewrite length_app, !length_fmap. lia.
  - apply Forall_app. split; apply Forall_fmap, Forall_forall; intros c Hc; simpl;
      apply cell_id_valid; [by apply HR|by apply HW].
  - intros x Hx. destruct (cell_of_id rows cols x Hcols Hx) as (c & Hc & <-).
    destruct (decide (is_land grid c)) as [Hland|Hwater].
    + destruct (Hreps c Hc Hland) as (r & Hr & Hl & Huniq).
      exists (cell_id cols r). split; [|split].
      * apply elem_of_app. left. apply list_elem_of_fmap. by exists r.
      * by apply linked_joined.
      * intros r' [Hin|Hin]%elem_of_app Hj.
        -- apply list_elem_of_fmap in Hin as (d & -> & Hd).
           f_equal. apply Huniq; [done|].
           apply joined_land; [done..|by apply HR|done].
        -- apply list_elem_of_fmap in Hin as (d & -> & [Hd Hwater]%HW).
           apply joined_sym, joined_water in Hj; [|done..].
           apply (cell_id_inj rows) in Hj as ->; [done|done..].
    + exists (cell_id cols c). split; [|split].
      * apply elem_of_app. right. apply list_elem_of_fmap. exists c.
        split; [done|]. by apply HW.
      * apply joined_refl. by apply cell_id_valid.
      * intros r' _ Hj. by apply joined_water in Hj.
Qed.

(** The number of islands is a property of the grid alone. *)
Lemma islands_unique k k' :
  0 ≤ rows → islands grid rows cols k → islands grid rows cols k' → k = k'.
Proof.
  intros Hrows Hk%islands_classes Hk'%islands_classes; [|done..].
  pose proof (classes_unique n ps ps _ _ ltac:(done) Hk Hk'). lia.
Qed.
End islands.

(** ** The loops of [NumberOfIslands] *)

Lemma cell_is_land_Some grid i j v :
  entry grid i j = Some v → cell_is_land grid i j = Ok (bool_decide (v = land_byte)).
Proof.
  intros (row & Hrow & Hv)%entry_Some. unfold cell_is_land.
  rewrite (index_Some _ _ _ Hrow). simpl. by rewrite (index_Some _ _ _ Hv).
Qed.

Lemma cell_is_land_None grid i j :
  entry grid i j = None → cell_is_land grid i j = Panic.
Proof.
  unfold entry, cell_is_land, index.
  destruct (lookupZ grid i) as [row|]; simpl; [|done]. by intros ->.
Qed.

Lemma NumberOfIslands_count_row_settled k grid i j isl :
  NumberOfIslands_count_row k grid i j isl = Panic ∨
  ∃ v, NumberOfIslands_count_row k grid i j isl = Ok v.
Proof.
  revert j isl. induction k as [|k IH]; intros j isl; simpl; [right; by eexists|].
  destruct (entry grid i j) as [v|] eqn:E.
  - rewrite (cell_is_land_Some _ _ _ _ E). simpl. apply IH.
  - rewrite cell_is_land_None by done. by left.
Qed.

Lemma NumberOfIslands_count_row_panics k grid i j isl j' :
  j ≤ j' < j + Z.of_nat k → entry grid i j' = None →
  NumberOfIslands_count_row k grid i j isl = Panic.
Proof.
  revert j isl. induction k as [|k IH]; intros j isl Hj' Hnone; [lia|]. simpl.
  destruct (entry grid i j) as [v|] eqn:E.
  - rewrite (cell_is_land_Some _ _ _ _ E). simpl. apply IH; [|done].
    assert (j' ≠ j) by congruence. lia.
  - by rewrite cell_is_land_None.
Qed.

Lemma NumberOfIslands_count_row_value k grid i j isl :
  (∀ j', j ≤ j' < j + Z.of_nat k → is_Some (entry grid i j')) →
  0 ≤ isl → isl + Z.of_nat k ≤ max_int →
  NumberOfIslands_count_row k grid i j isl =
  Ok (isl + Z.of_nat (length (filter (is_land grid) (row_cells i j k)))).
Proof.
  revert j isl. induction k as [|k IH]; intros j isl Hall Hisl Hmax.
  - simpl. f_equal. lia.
  - destruct (Hall j) as [v Hv]; [lia|]. simpl.
    rewrite (cell_is_land_Some _ _ _ _ Hv). simpl.
    rewrite row_cells_S, filter_cons. case_bool_decide as Hland.
    + rewrite decide_True by (unfold is_land; simpl; congruence).
      rewrite wrap64_small by (unfold max_int in *; lia).
      rewrite IH by (try (intros; apply Hall); lia). f_equal. simpl length. lia.
    + rewrite decide_False by (unfold is_land; simpl; congruence).
      rewrite IH by (try (intros; apply Hall); lia). done.
Qed.

Lemma NumberOfIslands_count_panics k grid cols i isl i' j' :
  i ≤ i' < i + Z.of_nat k → 0 ≤ j' < cols → entry grid i' j' = None →
  NumberOfIslands_count k grid cols i isl = Panic.
Proof.
  revert i isl. induction k as [|k IH]; intros i isl Hi' Hj' Hnone; [lia|]. simpl.
  destruct (NumberOfIslands_count_row_settled (Z.to_nat cols) grid i 0 isl)
    as [->|[v Hv]]; [done|].
  rewrite Hv. simpl. apply IH; [|done..].
  destruct (decide (i' = i)) as [->|]; [|lia].
  rewrite (NumberOfIslands_count_row_panics _ _ _ _ _ j') in Hv; [done|lia|done].
Qed.

Lemma NumberOfIslands_count_value k grid cols i isl :
  0 ≤ cols →
  (∀ i' j', i ≤ i' < i + Z.of_nat k → 0 ≤ j' < cols → is_Some (entry grid i' j')) →
  0 ≤ isl → isl + Z.of_nat k * cols ≤ max_int →
  NumberOfIslands_count k grid cols i isl =
  Ok (isl + Z.of_nat (length (filter (is_land grid) (grid_cells cols i k)))).
Proof.
  intros Hcols. revert i isl. induction k as [|k IH]; intros i isl Hall Hisl Hmax.
  - simpl. f_equal. lia.
  - simpl. rewrite NumberOfIslands_count_row_value; [|intros; apply Hall; lia|lia|lia].
    simpl. rewrite grid_cells_S, filter_app, length_app.
    pose proof (length_filter (is_land grid) (row_cells i 0 (Z.to_nat cols))) as Hle.
    rewrite length_row_cells in Hle.
    rewrite IH; [f_equal; lia|intros; apply Hall; lia|lia|lia].
Qed.

Section merging.
Variables (grid : list (list Z)) (rows cols lands : Z).
Hypothesis Hcomplete : grid_complete grid rows cols.
Hypothesis Hcols : 0 < cols.
Hypothesis Hmax : rows * cols ≤ max_int.
Hypothesis Hlands : 0 ≤ lands ≤ rows * cols.

Lemma dirs_pairs_cons c dir dirs :
  dirs_pairs grid rows cols c (dir :: dirs) =
  dirs_pairs grid rows cols c [dir] ++ dirs_pairs grid rows cols c dirs.
Proof. unfold dirs_pairs. simpl. by rewrite app_nil_r. Qed.

Lemma cell_id_wrap c :
  in_grid rows cols c → wrap64 (wrap64 (c.1 * cols) + c.2) = cell_id cols c.
Proof.
  intros Hc. pose proof (cell_id_valid _ _ _ Hc) as Hv.
  destruct c as [i j]. unfold in_grid, valid, cell_id in *. simpl in *.
  assert (0 ≤ i * cols) by (apply Z.mul_nonneg_nonneg; lia).
  rewrite (wrap64_small (i * cols)) by (unfold max_int in *; lia).
  apply wrap64_small. unfold max_int in *. lia.
Qed.

Lemma NumberOfIslands_dirs_spec dirs c uf isl ps :
  Forall (λ dir, ∃ d0 d1, dir = [d0; d1] ∧ -1 ≤ d0 ≤ 1 ∧ -1 ≤ d1 ≤ 1) dirs →
  in_grid rows cols c →
  islands_inv (rows * cols) lands ps (uf, isl) →
  ∃ st, returns (λ f, NumberOfIslands_dirs f dirs grid rows cols c.1 c.2 uf isl) st ∧
        islands_inv (rows * cols) lands (ps ++ dirs_pairs grid rows cols c dirs) st.
Proof.
  intros Hdirs Hc. revert uf isl ps.
  induction Hdirs as [|dir dirs (d0 & d1 & -> & Hd0 & Hd1) _ IH]; intros uf isl ps Hinv.
  - exists (uf, isl). split; [by exists O|]. by rewrite app_nil_r.
  - assert (rows ≤ max_int ∧ cols ≤ max_int) as [Hr Hc'].
    { destruct Hc as [Hi Hj].
      assert (1 * cols ≤ rows * cols) by (apply Z.mul_le_mono_nonneg_r; lia).
      assert (rows * 1 ≤ rows * cols) by (apply Z.mul_le_mono_nonneg_l; lia). lia. }
    set (d := (c.1 + d0, c.2 + d1)).
    assert (∃ st1,
      returns (λ f,
        if decide (0 ≤ d.1 ∧ d.1 < rows ∧ 0 ≤ d.2 ∧ d.2 < cols) then
          cell_is_land grid d.1 d.2 ≫= λ b : bool,
            if b then
              Union f uf (wrap64 (wrap64 (c.1 * cols) + c.2))
                         (wrap64 (wrap64 (d.1 * cols) + d.2)) ≫= λ '(merged, uf),
                Ok (uf, if merged : bool then wrap64 (isl - 1) else isl)
            else Ok (uf, isl)
        else Ok (uf, isl)) st1 ∧
      islands_inv (rows * cols) lands (ps ++ dirs_pairs grid rows cols c [[d0; d1]]) st1)
      as ([uf1 isl1] & Hret1 & Hinv1).
    { assert (dirs_pairs grid rows cols c [[d0; d1]] =
              if decide (in_grid rows cols d ∧ is_land grid d)
              then [(cell_id cols c, cell_id cols d)] else []) as ->
        by (unfold dirs_pairs; simpl; by rewrite app_nil_r).
      destruct (decide (0 ≤ d.1 ∧ d.1 < rows ∧ 0 ≤ d.2 ∧ d.2 < cols)) as [Hd|Hd].
      - assert (in_grid rows cols d) as Hin by (unfold in_grid; lia).
        destruct (Hcomplete d Hin) as [v Hv].
        rewrite (cell_is_land_Some _ _ _ _ Hv). simpl.
        case_bool_decide as Hland.
        + rewrite decide_True by (unfold is_land; split; [done|congruence]).
          rewrite (cell_id_wrap c Hc).
          change (wrap64 (wrap64 ((c.1 + d0) * cols) + (c.2 + d1)))
            with (wrap64 (wrap64 (d.1 * cols) + d.2)).
          rewrite (cell_id_wrap d Hin).
          destruct Hinv as (Hwf & Hconn & Hcount & Hle). simpl in *.
          destruct (Union_spec _ uf (cell_id cols c) (cell_id cols d) Hwf)
            as (b & uf1 & Hret & _ & Hwf1 & Hcount1 & _ & Hchar);
            [by apply cell_id_valid..|].
          exists (uf1, if b then wrap64 (isl - 1) else isl). split; [|split; [done|split]].
          * apply (returns_bind _ (λ r f, let '(merged, uf) := r in
                     Ok (uf, if merged : bool then wrap64 (isl - 1) else isl)) _ _ Hret).
            by exists O.
          * apply (joined_extend _ ps _ _ (conn (parent uf)));
              [by apply cell_id_valid..|done|done].
          * simpl. pose proof (wf_count _ _ Hwf1) as Hsize.
            destruct b; [|split; lia].
            rewrite wrap64_small by (unfold max_int in *; lia). split; lia.
        + rewrite decide_False by (unfold is_land; intros [_ ?]; congruence).
          exists (uf, isl). split; [by exists O|]. by rewrite app_nil_r.
      - rewrite decide_False by (unfold in_grid; intros [? _]; lia).
        exists (uf, isl). split; [by exists O|]. by rewrite app_nil_r. }
    destruct (IH uf1 isl1 _ Hinv1) as (st & Hret & Hinv').
    exists st. split.
    + simpl. change (index [d0; d1] 0) with (Ok (A := Z) d0).
      change (index [d0; d1] 1) with (Ok (A := Z) d1). simpl.
      destruct Hc as [Hi Hj].
      rewrite !(wrap64_small (_ + _)) by (unfold max_int in *; lia).
      by apply (returns_bind _ (λ st1 f, let '(uf, isl) := st1 in
                  NumberOfIslands_dirs f dirs grid rows cols c.1 c.2 uf isl) _ _ Hret1).
    + by rewrite dirs_pairs_cons, app_assoc.
Qed.

Lemma directions_small :
  Forall (λ dir, ∃ d0 d1, dir = [d0; d1] ∧ -1 ≤ d0 ≤ 1 ∧ -1 ≤ d1 ≤ 1) directions.
Proof. unfold directions. repeat constructor; do 2 eexists; (split; [done|lia]). Qed.

Lemma NumberOfIslands_merge_row_spec k i j uf isl ps :
  0 ≤ i < rows → 0 ≤ j → j + Z.of_nat k ≤ cols →
  islands_inv (rows * cols) lands ps (uf, isl) →
  ∃ st, returns (λ f, NumberOfIslands_merge_row f k grid rows cols i j uf isl) st ∧
        islands_inv (rows * cols) lands
          (ps ++ cells_pairs grid rows cols (row_cells i j k)) st.
Proof.
  intros Hi. revert j uf isl ps.
  induction k as [|k IH]; intros j uf isl ps Hj Hk Hinv.
  - exists (uf, isl). split; [by exists O|]. by rewrite app_nil_r.
  - assert (in_grid rows cols (i, j)) as Hc by (unfold in_grid; simpl; lia).
    destruct (Hcomplete _ Hc) as [v Hv]. simpl in Hv.
    assert (∃ st1,
      returns (λ f, if bool_decide (v = land_byte)
                    then NumberOfIslands_dirs f directions grid rows cols i j uf isl
                    else Ok (uf, isl)) st1 ∧
      islands_inv (rows * cols) lands
        (ps ++ if decide (is_land grid (i, j))
               then dirs_pairs grid rows cols (i, j) directions else []) st1)
      as ([uf1 isl1] & Hret1 & Hinv1).
    { case_bool_decide as Hland.
      - rewrite decide_True by (unfold is_land; simpl; congruence).
        apply (NumberOfIslands_dirs_spec directions (i, j)); [apply directions_small|done..].
      - rewrite decide_False by (unfold is_land; simpl; congruence).
        exists (uf, isl). split; [by exists O|]. by rewrite app_nil_r. }
    destruct (IH (j + 1) uf1 isl1 _ ltac:(lia) ltac:(lia) Hinv1) as (st & Hret & Hinv').
    exists st. split.
    + simpl. rewrite (cell_is_land_Some _ _ _ _ Hv). simpl.
      by apply (returns_bind _ (λ st1 f, let '(uf, isl) := st1 in
                  NumberOfIslands_merge_row f k grid rows cols i (j + 1) uf isl) _ _ Hret1).
    + rewrite row_cells_S. unfold cells_pairs in *. simpl. by rewrite app_assoc.
Qed.

Lemma NumberOfIslands_merge_spec k i uf isl ps :
  0 ≤ i → i + Z.of_nat k ≤ rows →
  islands_inv (rows * cols) lands ps (uf, isl) →
  ∃ st, returns (λ f, NumberOfIslands_merge f k grid rows cols i uf isl) st ∧
        islands_inv (rows * cols) lands
          (ps ++ cells_pairs grid rows cols (grid_cells cols i k)) st.
Proof.
  revert i uf isl ps. induction k as [|k IH]; intros i uf isl ps Hi Hk Hinv.
  - exists (uf, isl). split; [by exists O|]. by rewrite app_nil_r.
  - destruct (NumberOfIslands_merge_row_spec (Z.to_nat cols) i 0 uf isl ps)
      as ([uf1 isl1] & Hret1 & Hinv1); [lia..|done|].
    destruct (IH (i + 1) uf1 isl1 _ ltac:(lia) ltac:(lia) Hinv1) as (st & Hret & Hinv').
    exists st. split.
    + simpl.
      by apply (returns_bind _ (λ st1 f, let '(uf, isl) := st1 in
                  NumberOfIslands_merge f k grid rows cols (i + 1) uf isl) _ _ Hret1).
    + rewrite grid_cells_S. unfold cells_pairs in *. by rewrite bind_app, app_assoc.
Qed.
End merging.

Lemma NumberOfIslands_nonempty grid f :
  0 < grid_rows grid → 0 < grid_cols grid →
  NumberOfIslands f grid =
  NewUnionFind (wrap64 (grid_rows grid * grid_cols grid)) ≫= λ uf,
    NumberOfIslands_count (length grid) grid (grid_cols grid) 0 0 ≫= λ isl,
      NumberOfIslands_merge f (length grid) grid (grid_rows grid) (grid_cols grid) 0 uf isl
      ≫= λ '(_, isl), Ok isl.
Proof.
  unfold grid_rows, grid_cols, NumberOfIslands. intros Hrows Hcols.
  destruct grid as [|row0 grid]; [simpl in Hrows; lia|].
  rewrite decide_False by lia.
  change (index (row0 :: grid) 0) with (Ok (A := list Z) row0). simpl in *.
  by rewrite decide_False by lia.
Qed.

(** X16. [NumberOfIslands] counts the islands.  With [rows] the number of
    rows and [cols] the length of the first row, on a grid that has every
    cell of the [rows] by [cols] rectangle and not more than [max_int] of
    them, it returns the number of islands among these cells: the number of
    groups of ['1'] cells linked through neighbours up, down, left and right,
    and no other number fits.  An empty grid and a grid with an empty first
    row give 0. *)
Theorem NumberOfIslands_counts_islands grid :
  grid_complete grid (grid_rows grid) (grid_cols grid) →
  grid_rows grid * grid_cols grid ≤ max_int →
  ∃ k, returns (λ f, NumberOfIslands f grid) k ∧
       islands grid (grid_rows grid) (grid_cols grid) k ∧
       ∀ k', islands grid (grid_rows grid) (grid_cols grid) k' → k' = k.
Proof.
  intros Hcomplete Hmax.
  cut (∃ k, returns (λ f, NumberOfIslands f grid) k ∧
            islands grid (grid_rows grid) (grid_cols grid) k).
  { intros (k & Hret & Hk). exists k. split; [done|]. split; [done|].
    intros k' Hk'. destruct (decide (0 < grid_cols grid)) as [Hcols|Hcols].
    - apply (islands_unique grid (grid_rows grid) (grid_cols grid) Hcols); [|done..].
      unfold grid_rows. lia.
    - destruct Hk as (reps & _ & <- & Hreps & _), Hk' as (reps' & _ & <- & Hreps' & _).
      destruct reps as [|c ?]; [|apply Forall_cons in Hreps as [[[_ ?] _] _]; lia].
      destruct reps' as [|c ?]; [done|apply Forall_cons in Hreps' as [[[_ ?] _] _]; lia]. }
  assert (0 ≤ grid_rows grid ∧ 0 ≤ grid_cols grid) as [Hrows Hcols]
    by (unfold grid_rows, grid_cols; lia).
  destruct (decide (grid_rows grid = 0 ∨ grid_cols grid = 0)) as [Hzero|Hpos].
  { exists 0. split.
    - exists O. intros f _. unfold NumberOfIslands, grid_rows, grid_cols in *.
      destruct grid as [|row0 grid]; [done|].
      rewrite decide_False by (simpl; lia).
      change (index (row0 :: grid) 0) with (Ok (A := list Z) row0). simpl in *.
      by rewrite decide_True by lia.
    - exists []. split; [constructor|]. split; [done|]. split; [constructor|].
      intros c [Hi Hj]. lia. }
  assert (0 < grid_rows grid ∧ 0 < grid_cols grid) as [Hrows' Hcols'] by lia.
  set (rows := grid_rows grid) in *. set (cols := grid_cols grid) in *.
  set (cells := grid_cells cols 0 (length grid)).
  set (lands := Z.of_nat (length (filter (is_land grid) cells))).
  assert (Z.of_nat (length grid) = rows) as Hlen by done.
  assert (0 ≤ rows * cols) as Hn by (apply Z.mul_nonneg_nonneg; lia).
  assert (Z.of_nat (length cells) = rows * cols) as Hcells.
  { unfold cells. rewrite length_grid_cells by lia. by rewrite Hlen. }
  pose proof (length_filter_complement (is_land grid) cells) as Hsplit.
  assert (0 ≤ lands ≤ rows * cols) as Hlands by (unfold lands; lia).
  pose proof (NewUnionFind_Ok (rows * cols) ltac:(lia)) as Hnew.
  pose proof (NewUnionFind_wf _ _ Hnew) as Hwf.
  set (uf0 := {| parent := seqZ 0 (rows * cols);
                 rank := replicate (Z.to_nat (rows * cols)) 0;
                 count := rows * cols |}) in *.
  assert (NumberOfIslands_count (length grid) grid cols 0 0 = Ok lands) as Hcount.
  { rewrite NumberOfIslands_count_value; [done|lia| |lia|lia].
    intros i j Hi Hj. apply (Hcomplete (i, j)). unfold in_grid. simpl. lia. }
  destruct (NumberOfIslands_merge_spec grid rows cols lands Hcomplete Hcols' Hmax Hlands
              (length grid) 0 uf0 lands []) as ([uf isl] & [f0 Hret] & Hinv); [lia|lia| |].
  { split; [done|]. split; [|simpl; lia].
    intros u v. simpl. by rewrite conn_seqZ, joined_nil. }
  destruct Hinv as (Hwf' & Hconn & Hisl & _). simpl in *.
  exists isl. split.
  - exists f0. intros f Hf. rewrite NumberOfIslands_nonempty by done. fold rows cols.
    rewrite wrap64_small by (unfold max_int in *; lia).
    rewrite Hnew. simpl. rewrite Hcount. simpl. by rewrite Hret.
  - pose proof (wf_classes _ _ _ Hwf' Hconn) as Hclasses.
    assert (Z.to_nat rows = length grid) as Hnat by (rewrite <- Hlen; apply Nat2Z.id).
    pose proof (classes_islands grid rows cols Hcols' (count uf) Hrows) as Hcl.
    rewrite Hnat in Hcl. apply Hcl in Hclasses. fold cells in Hclasses.
    replace isl with (count uf - Z.of_nat (length (filter (λ c, ¬ is_land grid c) cells)));
      [done|]. unfold lands in *. lia.
Qed.

Lemma demoGrid_complete : grid_complete demoGrid (grid_rows demoGrid) (grid_cols demoGrid).
Proof.
  intros [i j] [Hi Hj]. unfold grid_rows, grid_cols in *. simpl in *.
  assert (i = 0 ∨ i = 1 ∨ i = 2 ∨ i = 3) as Hi' by lia.
  assert (j = 0 ∨ j = 1 ∨ j = 2 ∨ j = 3 ∨ j = 4) as Hj' by lia.
  destruct_or!; subst; vm_compute; by eexists.
Qed.

Lemma NumberOfIslands_counts_islands_witness :
  (grid_complete demoGrid (grid_rows demoGrid) (grid_cols demoGrid) ∧
   grid_rows demoGrid * grid_cols demoGrid ≤ max_int) ∧
  ∃ k, returns (λ f, NumberOfIslands f demoGrid) k ∧
       islands demoGrid (grid_rows demoGrid) (grid_cols demoGrid) k ∧
       ∀ k', islands demoGrid (grid_rows demoGrid) (grid_cols demoGrid) k' → k' = k.
Proof.
  assert (grid_rows demoGrid * grid_cols demoGrid ≤ max_int) as Hmax by (vm_compute; congruence).
  split; [split; [apply demoGrid_complete|done]|].
  apply (NumberOfIslands_counts_islands demoGrid demoGrid_complete Hmax).
Defined.

(** X17. A row shorter than the first one makes [NumberOfIslands] panic: if
    some cell of the [rows] by [cols] rectangle is missing, the call ends in
    the index-out-of-range panic, whatever the other cells hold. *)
Theorem NumberOfIslands_short_row_panics grid c :
  in_grid (grid_rows grid) (grid_cols grid) c → entry grid c.1 c.2 = None →
  panics (λ f, NumberOfIslands f grid).
Proof.
  intros [Hi Hj] Hnone. exists O. intros f _.
  rewrite NumberOfIslands_nonempty by lia.
  destruct (decide (0 ≤ wrap64 (grid_rows grid * grid_cols grid) ≤ max_int)) as [Hn|Hn].
  - rewrite NewUnionFind_Ok by done. simpl.
    rewrite (NumberOfIslands_count_panics _ _ _ _ _ c.1 c.2); [done| |done..].
    unfold grid_rows in Hi. lia.
  - by rewrite NewUnionFind_Panic.
Qed.

Lemma NumberOfIslands_short_row_panics_witness :
  (in_grid (grid_rows raggedGrid) (grid_cols raggedGrid) (1, 1) ∧
   entry raggedGrid 1 1 = None) ∧
  panics (λ f, NumberOfIslands f raggedGrid).
Proof.
  assert (in_grid (grid_rows raggedGrid) (grid_cols raggedGrid) (1, 1)) as Hin
    by (vm_compute; intuition congruence).
  split; [split; [done|reflexivity]|].
  apply (NumberOfIslands_short_row_panics raggedGrid (1, 1) Hin). reflexivity.
Defined.

(** * [AccountsMerge] *)

(** ** The first loop: numbering the addresses *)

Lemma lookupZ_app_l {A} (s t : list A) i :
  i < Z.of_nat (length s) → lookupZ (s ++ t) i = lookupZ s i.
Proof.
  intros Hi. unfold lookupZ. case_decide; [|done]. apply lookup_app_l. lia.
Qed.

Lemma lookupZ_middle {A} (s t : list A) a :
  lookupZ (s ++ a :: t) (Z.of_nat (length s)) = Some a.
Proof.
  unfold lookupZ. rewrite decide_True by lia. rewrite Nat2Z.id.
  by rewrite list_lookup_middle.
Qed.

Lemma lookupZ_snoc {A} (s : list A) a i b :
  lookupZ (s ++ [a]) i = Some b ↔
  lookupZ s i = Some b ∨ (i = Z.of_nat (length s) ∧ b = a).
Proof.
  split.
  - intros H. pose proof (lookupZ_Some_range _ _ _ H) as Hi.
    rewrite length_app in Hi. simpl in Hi.
    destruct (decide (i < Z.of_nat (length s))) as [Hlt|Hge].
    + left. by rewrite lookupZ_app_l in H.
    + right. assert (i = Z.of_nat (length s)) as -> by lia.
      rewrite lookupZ_middle in H. by injection H as <-.
  - intros [H|[-> ->]]; [|apply lookupZ_middle].
    pose proof (lookupZ_Some_range _ _ _ H). by rewrite lookupZ_app_l by lia.
Qed.

Lemma elem_of_lookupZ {A} (s : list A) a : a ∈ s ↔ ∃ i, lookupZ s i = Some a.
Proof.
  rewrite list_elem_of_lookup. split.
  - intros [k Hk]. exists (Z.of_nat k). unfold lookupZ.
    rewrite decide_True by lia. by rewrite Nat2Z.id.
  - intros [i Hi]. unfold lookupZ in Hi. case_decide; [|done]. by eexists.
Qed.

Lemma lookupZ_inj {A} (s : list A) i j a :
  NoDup s → lookupZ s i = Some a → lookupZ s j = Some a → i = j.
Proof.
  intros Hnd Hi Hj. unfold lookupZ in *. repeat case_decide; try done.
  pose proof (NoDup_lookup _ _ _ _ Hnd Hi Hj). lia.
Qed.

Lemma numbered_elem_of es st e :
  numbered es st → e ∈ es ↔ is_Some (emailToIndex st !! e).
Proof.
  intros (_ & _ & Hm & _). rewrite elem_of_lookupZ. unfold is_Some.
  by setoid_rewrite Hm.
Qed.

Lemma AccountsMerge_assign_Ok pre rest name st :
  ∃ st', AccountsMerge_assign (length rest) (pre ++ rest) name
           (Z.of_nat (length pre)) st = Ok st'.
Proof.
  revert pre st. induction rest as [|email rest IH]; intros pre st; [by eexists|].
  simpl. rewrite (index_Some _ _ _ (lookupZ_middle pre rest email)). simpl.
  specialize (IH (pre ++ [email])). rewrite length_app, <- app_assoc in IH. simpl in IH.
  replace (Z.of_nat (length pre) + 1) with (Z.of_nat (length pre + 1)) by lia.
  apply IH.
Qed.

Lemma AccountsMerge_assign_spec pre rest name st es :
  numbered es st →
  Z.of_nat (length es) + Z.of_nat (length rest) ≤ max_int →
  ∃ st' es',
    AccountsMerge_assign (length rest) (pre ++ rest) name (Z.of_nat (length pre)) st = Ok st' ∧
    numbered es' st' ∧
    (∀ e, e ∈ es' ↔ e ∈ es ∨ e ∈ rest) ∧
    (length es' ≤ length es + length rest)%nat ∧
    ∀ e, emailToName st' !! e =
         match emailToName st !! e with
         | Some n => Some n
         | None => if decide (e ∈ rest) then Some name else None
         end.
Proof.
  revert pre st es. induction rest as [|email rest IH]; intros pre st es Hnum Hmax.
  - exists st, es. split; [done|]. split; [done|]. split; [set_solver|]. split; [lia|].
    intros e. by destruct (emailToName st !! e).
  - simpl. rewrite (index_Some _ _ _ (lookupZ_middle pre rest email)). simpl.
    specialize (IH (pre ++ [email])). rewrite length_app, <- app_assoc in IH. simpl in IH.
    replace (Z.of_nat (length pre) + 1) with (Z.of_nat (length pre + 1)) by lia.
    simpl in Hmax.
    destruct (decide (is_Some (emailToIndex st !! email))) as [Hin|Hnin].
    + apply (numbered_elem_of es) in Hin; [|done].
      destruct (IH st es Hnum) as (st' & es' & Hrun & Hnum' & Hes' & Hlen & Hnames); [lia|].
      exists st', es'. split; [done|]. split; [done|]. split; [|split; [lia|]].
      * intros e. rewrite Hes'. set_solver.
      * intros e. rewrite Hnames. destruct (emailToName st !! e) eqn:E; [done|].
        assert (e ∉ es) as Hne.
        { destruct Hnum as (_ & _ & _ & Hdom). rewrite <- Hdom, E. by intros [? ?]. }
        assert (e ≠ email) by congruence.
        destruct (decide (e ∈ rest)).
        -- rewrite decide_True; [done|set_solver].
        -- rewrite decide_False; [done|set_solver].
    + assert (email ∉ es) as Hne by (by rewrite (numbered_elem_of es st)).
      destruct Hnum as (Hnd & Hnext & Hm & Hdom).
      set (st1 := {| emailToIndex := <[email := nextIndex st]> (emailToIndex st);
                     emailToName := <[email := name]> (emailToName st);
                     nextIndex := wrap64 (nextIndex st + 1) |}).
      assert (numbered (es ++ [email]) st1) as Hnum1.
      { split; [|split; [|split]].
        - apply NoDup_app. split; [done|]. split; [|apply NoDup_singleton].
          intros e He ->%list_elem_of_singleton. done.
        - simpl. rewrite wrap64_small by (unfold max_int in *; lia).
          rewrite length_app. simpl. lia.
        - intros e i. simpl. rewrite lookupZ_snoc, <- Hm.
          destruct (decide (e = email)) as [->|Hneq].
          + rewrite lookup_insert_eq. split.
            * intros [= <-]. right. by rewrite Hnext.
            * intros [Hi|[-> _]]; [|by rewrite Hnext].
              destruct Hnin. by rewrite Hi.
          + rewrite lookup_insert_ne by done. split; [by left|]. by intros [?|[_ ?]].
        - intros e. simpl. rewrite elem_of_app, list_elem_of_singleton, <- Hdom.
          destruct (decide (e = email)) as [->|Hneq].
          + rewrite lookup_insert_eq. split; [by right|by eexists].
          + rewrite lookup_insert_ne by done. split; [by left|]. by intros [?|?]. }
      destruct (IH st1 _ Hnum1) as (st' & es' & Hrun & Hnum' & Hes' & Hlen & Hnames).
      { rewrite length_app. simpl. lia. }
      exists st', es'. split; [done|]. split; [done|]. split; [|split].
      * intros e. rewrite Hes'. set_solver.
      * rewrite length_app in Hlen. simpl in *. lia.
      * intros e. rewrite Hnames. simpl.
        destruct (decide (e = email)) as [->|Hneq].
        -- rewrite lookup_insert_eq.
           assert (emailToName st !! email = None) as ->.
           { apply eq_None_not_Some. by rewrite Hdom. }
           rewrite decide_True; [done|set_solver].
        -- rewrite lookup_insert_ne by done.
           destruct (emailToName st !! e); [done|].
           destruct (decide (e ∈ rest)).
           ++ rewrite decide_True; [done|set_solver].
           ++ rewrite decide_False; [done|set_solver].
Qed.

Lemma listed_snoc accounts account e :
  listed (accounts ++ [account]) e ↔ listed accounts e ∨ e ∈ emails_of account.
Proof.
  unfold listed. setoid_rewrite elem_of_app. setoid_rewrite list_elem_of_singleton.
  naive_solver.
Qed.

Lemma listed_nil e : ¬ listed [] e.
Proof. intros (account & Hin & _). by apply elem_of_nil in Hin. Qed.

Lemma owner_snoc accounts account e :
  owner (accounts ++ [account]) e =
  match owner accounts e with
  | Some n => Some n
  | None => if decide (e ∈ emails_of account) then head account else None
  end.
Proof.
  induction accounts as [|a accounts IH]; simpl.
  - by destruct (decide (e ∈ emails_of account)).
  - destruct (decide (e ∈ emails_of a)); [|done].
    destruct a as [|n a]; [by apply elem_of_nil in e0|done].
Qed.

Lemma owner_listed accounts e : listed accounts e → is_Some (owner accounts e).
Proof.
  intros (account & Hin & He). induction accounts as [|a accounts IH].
  - by apply elem_of_nil in Hin.
  - simpl. destruct (decide (e ∈ emails_of a)) as [Ha|Ha].
    + destruct a as [|n a]; [by apply elem_of_nil in Ha|by eexists].
    + apply IH. apply elem_of_cons in Hin as [->|Hin]; done.
Qed.

Lemma AccountsMerge_number_spec done rest st es :
  Forall (λ account, account ≠ []) rest →
  numbered es st →
  (∀ e, e ∈ es ↔ listed done e) →
  (∀ e, emailToName st !! e = owner done e) →
  Z.of_nat (length es) + Z.of_nat (length (rest ≫= emails_of)) ≤ max_int →
  ∃ st' es',
    AccountsMerge_number rest st = Ok st' ∧ numbered es' st' ∧
    (∀ e, e ∈ es' ↔ listed (done ++ rest) e) ∧
    (∀ e, emailToName st' !! e = owner (done ++ rest) e).
Proof.
  intros Hrest. revert done st es.
  induction Hrest as [|account rest Hne _ IH]; intros done st es Hnum Hes Hnames Hmax.
  - exists st, es. by rewrite app_nil_r.
  - destruct account as [|name emails]; [done|].
    rewrite bind_cons, length_app in Hmax. change (emails_of (name :: emails)) with emails in Hmax.
    destruct (AccountsMerge_assign_spec [name] emails name st es Hnum)
      as (st1 & es1 & Hrun1 & Hnum1 & Hes1 & Hlen1 & Hnames1); [lia|].
    destruct (IH (done ++ [name :: emails]) st1 es1 Hnum1)
      as (st' & es' & Hrun & Hnum' & Hes' & Hnames'); [| |lia|].
    + intros e. rewrite Hes1, listed_snoc, Hes. done.
    + intros e. rewrite Hnames1, owner_snoc, Hnames. done.
    + exists st', es'. rewrite <- app_assoc in Hes', Hnames'.
      split; [|done].
      simpl. change (index (name :: emails) 0) with (Ok (A := string) name). simpl.
      rewrite Nat.sub_0_r.
      change (AccountsMerge_assign (length emails) (name :: emails) name 1 st = Ok st1)
        in Hrun1.
      by rewrite Hrun1.
Qed.

Lemma AccountsMerge_number_panics accounts st :
  [] ∈ accounts → AccountsMerge_number accounts st = Panic.
Proof.
  revert st. induction accounts as [|account accounts IH]; intros st Hin.
  - by apply elem_of_nil in Hin.
  - destruct account as [|name emails]; [done|].
    apply elem_of_cons in Hin as [?|Hin]; [done|]. simpl.
    change (index (name :: emails) 0) with (Ok (A := string) name). simpl.
    rewrite Nat.sub_0_r.
    destruct (AccountsMerge_assign_Ok [name] emails name st) as [st' Hrun].
    change (AccountsMerge_assign (length emails) (name :: emails) name 1 st = Ok st')
      in Hrun.
    rewrite Hrun. simpl. by apply IH.
Qed.

(** ** The second loop: one [Union] per further address of an account *)

Section linking.
Variables (es : list string) (m : gmap string Z).
Hypothesis Hm : ∀ e i, m !! e = Some i ↔ lookupZ es i = Some e.

Let n := Z.of_nat (length es).

Lemma index_of_lookup e : e ∈ es → lookupZ es (index_of m e) = Some e.
Proof.
  intros [i Hi]%elem_of_lookupZ. unfold index_of.
  apply Hm in Hi as Hi'. by rewrite Hi'.
Qed.

Lemma index_of_valid e : e ∈ es → valid n (index_of m e).
Proof. intros He%index_of_lookup. by apply lookupZ_Some_range in He. Qed.

Lemma lookup_index_of i e : lookupZ es i = Some e → index_of m e = i.
Proof. intros Hi%Hm. unfold index_of. by rewrite Hi. Qed.

Lemma AccountsMerge_unions_spec pre rest first uf ps :
  wf n uf → (∀ u v, conn (parent uf) u v ↔ joined n ps u v) →
  valid n first → Forall (λ e, e ∈ es) rest →
  ∃ uf', returns (λ f, AccountsMerge_unions f (length rest) (pre ++ rest) m first
                         (Z.of_nat (length pre)) uf) uf' ∧
         wf n uf' ∧
         ∀ u v, conn (parent uf') u v ↔
                joined n (ps ++ ((λ e, (first, index_of m e)) <$> rest)) u v.
Proof.
  intros Hwf Hconn Hfirst Hrest. revert pre uf ps Hwf Hconn.
  induction Hrest as [|email rest Hemail _ IH]; intros pre uf ps Hwf Hconn.
  - exists uf. split; [by exists O|]. split; [done|]. by rewrite app_nil_r.
  - destruct (Union_spec n uf first (index_of m email) Hwf Hfirst)
      as (b & uf1 & Hret1 & _ & Hwf1 & _ & _ & Hchar); [by apply index_of_valid|].
    pose proof (joined_extend n ps first (index_of m email) _ _ Hfirst
                  (index_of_valid _ Hemail) Hconn Hchar) as Hconn1.
    destruct (IH (pre ++ [email]) uf1 _ Hwf1 Hconn1) as (uf' & Hret & Hwf' & Hconn').
    rewrite length_app, <- app_assoc in Hret. simpl in Hret.
    replace (Z.of_nat (length pre + 1)) with (Z.of_nat (length pre) + 1) in Hret by lia.
    exists uf'. split; [|split; [done|]].
    + simpl. rewrite (index_Some _ _ _ (lookupZ_middle pre rest email)). simpl.
      apply (returns_bind (λ f, Union f uf first (index_of m email))
               (λ r f, let '(_, uf) := r in
                  AccountsMerge_unions f (length rest) (pre ++ email :: rest) m first
                    (Z.of_nat (length pre) + 1) uf) _ _ Hret1 Hret).
    + intros u v. by rewrite Hconn', fmap_cons, <- app_assoc.
Qed.

Lemma link_pairs_cons account accounts :
  link_pairs m (account :: accounts) =
  match emails_of account with
  | [] => []
  | first :: more => (λ e, (index_of m first, index_of m e)) <$> more
  end ++ link_pairs m accounts.
Proof. done. Qed.

Lemma AccountsMerge_link_spec accounts uf ps :
  wf n uf → (∀ u v, conn (parent uf) u v ↔ joined n ps u v) →
  Forall (λ account, Forall (λ e, e ∈ es) (emails_of account)) accounts →
  ∃ uf', returns (λ f, AccountsMerge_link f accounts m uf) uf' ∧
         wf n uf' ∧
         ∀ u v, conn (parent uf') u v ↔ joined n (ps ++ link_pairs m accounts) u v.
Proof.
  intros Hwf Hconn Haccounts. revert uf ps Hwf Hconn.
  induction Haccounts as [|account accounts Haccount _ IH]; intros uf ps Hwf Hconn.
  - exists uf. split; [by exists O|]. split; [done|]. by rewrite app_nil_r.
  - assert (∃ uf1,
      returns (λ f, if decide (1 < Z.of_nat (length account)) then
                      index account 1 ≫= λ first,
                        AccountsMerge_unions f (length account - 2) account m
                          (index_of m first) 2 uf
                    else Ok uf) uf1 ∧
      wf n uf1 ∧
      ∀ u v, conn (parent uf1) u v ↔
             joined n (ps ++ match emails_of account with
                             | [] => []
                             | first :: more =>
                                 (λ e, (index_of m first, index_of m e)) <$> more
                             end) u v) as (uf1 & Hret1 & Hwf1 & Hconn1).
    { destruct account as [|name [|first more]].
      - exists uf. split; [by exists O|]. split; [done|]. by rewrite app_nil_r.
      - exists uf. split; [by exists O|]. split; [done|]. by rewrite app_nil_r.
      - apply Forall_cons in Haccount as [Hfirst Hmore].
        destruct (AccountsMerge_unions_spec [name; first] more (index_of m first) uf ps
                    Hwf Hconn (index_of_valid _ Hfirst) Hmore)
          as (uf1 & [f0 Hret1] & Hrest).
        exists uf1. split; [|done]. exists f0. intros f Hf.
        rewrite decide_True by (simpl; lia).
        change (index (name :: first :: more) 1) with (Ok (A := string) first).
        simpl. rewrite Nat.sub_0_r. by apply Hret1. }
    destruct (IH uf1 _ Hwf1 Hconn1) as (uf' & Hret & Hwf' & Hconn').
    exists uf'. split; [|split; [done|]].
    + apply (returns_bind _ (λ uf1 f, AccountsMerge_link f accounts m uf1) _ _ Hret1 Hret).
    + intros u v. by rewrite Hconn', link_pairs_cons, app_assoc.
Qed.

(** ** Joined indices are addresses of one person *)

Variable accounts : list (list string).
Hypothesis Hes : ∀ e, e ∈ es ↔ listed accounts e.

Lemma elem_of_link_pairs x y :
  (x, y) ∈ link_pairs m accounts →
  ∃ account e e', account ∈ accounts ∧ e ∈ emails_of account ∧ e' ∈ emails_of account ∧
                  x = index_of m e ∧ y = index_of m e'.
Proof.
  unfold link_pairs. rewrite list_elem_of_bind. intros (account & Hxy & Hin).
  destruct (emails_of account) as [|first more] eqn:E; [by apply elem_of_nil in Hxy|].
  apply list_elem_of_fmap in Hxy as (e & [= -> ->] & He).
  exists account, first, e. rewrite E. set_solver.
Qed.

Lemma joined_same_person x y :
  joined n (link_pairs m accounts) x y →
  ∃ e e', lookupZ es x = Some e ∧ lookupZ es y = Some e' ∧ same_person accounts e e'.
Proof.
  induction 1 as [x Hx|x y Hxy|x y _ IH|x y z _ IH1 _ IH2].
  - destruct (lookupZ_in_range es x Hx) as [e He]. exists e, e.
    split; [done|]. split; [done|]. apply same_person_refl, Hes, elem_of_lookupZ. eauto.
  - apply elem_of_link_pairs in Hxy as (account & e & e' & Hin & He & He' & -> & ->).
    exists e, e'. split; [|split].
    + apply index_of_lookup, Hes. by exists account.
    + apply index_of_lookup, Hes. by exists account.
    + by apply (same_person_shared _ account).
  - destruct IH as (e & e' & He & He' & Hs). exists e', e.
    split; [done|]. split; [done|]. by apply same_person_sym.
  - destruct IH1 as (e & e' & He & He' & Hs), IH2 as (e1 & e2 & He1 & He2 & Hs').
    exists e, e2. split; [done|]. split; [done|].
    assert (e' = e1) as -> by congruence. by eapply same_person_trans.
Qed.

Lemma same_person_listed e e' :
  same_person accounts e e' → listed accounts e ∧ listed accounts e'.
Proof.
  induction 1 as [e He|account e e' Hin He He'|e e' _ IH|e e' e'' _ IH1 _ IH2].
  - done.
  - split; by exists account.
  - tauto.
  - tauto.
Qed.

Lemma same_person_joined e e' :
  same_person accounts e e' →
  joined n (link_pairs m accounts) (index_of m e) (index_of m e').
Proof.
  induction 1 as [e He|account e e' Hin He He'|e e' _ IH|e e' e'' _ IH1 _ IH2].
  - apply joined_refl, index_of_valid, Hes, He.
  - assert (∀ e first more, emails_of account = first :: more → e ∈ emails_of account →
            joined n (link_pairs m accounts) (index_of m first) (index_of m e)) as Hfirst.
    { intros e0 first more E He0. rewrite E in He0.
      apply elem_of_cons in He0 as [->|He0].
      - apply joined_refl, index_of_valid, Hes. exists account. rewrite E. set_solver.
      - apply joined_pair. unfold link_pairs. apply list_elem_of_bind.
        exists account. split; [|done]. rewrite E. apply list_elem_of_fmap. by exists e0. }
    destruct (emails_of account) as [|first more] eqn:E; [by apply elem_of_nil in He|].
    eapply joined_trans; [apply joined_sym|]; by eapply Hfirst.
  - by apply joined_sym.
  - by eapply joined_trans.
Qed.
End linking.

(** ** The third and the fourth loop: grouping by root, building the result *)

Lemma AccountsMerge_group_spec n l0 entries uf g P :
  wf n uf → same_reps l0 (parent uf) →
  Forall (λ p, valid n p.2) entries →
  NoDup ((P ++ entries).*1) →
  grouped l0 P g →
  ∃ uf' g', returns (λ f, AccountsMerge_group f entries uf g) (uf', g') ∧
            grouped l0 (P ++ entries) g'.
Proof.
  intros Hwf Hsame Hvalid. revert uf g P Hwf Hsame.
  induction Hvalid as [|[email idx] entries Hidx _ IH]; intros uf g P Hwf Hsame Hnd Hg.
  - exists uf, g. split; [by exists O|]. by rewrite app_nil_r.
  - simpl in Hidx.
    destruct (wf_total n uf Hwf idx Hidx) as [root Hroot].
    destruct (Find_spec uf idx root Hroot) as (uf1 & Hret1 & Hsame1 & Hrank1 & Hcount1).
    pose proof (wf_same_reps n uf uf1 Hwf Hsame1 Hrank1 Hcount1) as Hwf1.
    pose proof (same_reps_trans _ _ _ Hsame Hsame1) as Hsame'.
    assert (reaches l0 idx root) as Hroot0 by (by apply Hsame).
    set (g1 := <[root := default [] (g !! root) ++ [email]]> g).
    rewrite cons_middle, app_assoc in Hnd.
    assert (email ∉ P.*1) as Hfresh.
    { rewrite !fmap_app in Hnd. apply NoDup_app in Hnd as [Hnd _].
      apply NoDup_app in Hnd as (_ & Hnd & _). intros Hin. apply (Hnd _ Hin).
      simpl. apply list_elem_of_here. }
    assert (grouped l0 (P ++ [(email, idx)]) g1) as Hg1.
    { destruct Hg as [Hg1 Hg2]. split.
      - intros r l Hl. unfold g1 in Hl. destruct (decide (r = root)) as [->|Hne].
        + rewrite lookup_insert_eq in Hl. injection Hl as <-.
          assert (NoDup (default [] (g !! root)) ∧
                  ∀ e, e ∈ default [] (g !! root) → ∃ i, (e, i) ∈ P ∧ reaches l0 i root)
            as [Hnd' Hmem].
          { destruct (g !! root) as [l'|] eqn:E; simpl.
            - destruct (Hg1 _ _ E) as (_ & ? & ?). done.
            - split; [constructor|]. intros e He. by apply elem_of_nil in He. }
          split; [by intros [_ ?]%app_eq_nil|]. split.
          * apply NoDup_app. split; [done|]. split; [|apply NoDup_singleton].
            intros e He ->%list_elem_of_singleton.
            destruct (Hmem _ He) as (i & Hi & _). apply Hfresh.
            apply list_elem_of_fmap. by exists (email, i).
          * intros e [He| ->%list_elem_of_singleton]%elem_of_app.
            -- destruct (Hmem _ He) as (i & Hi & Hr). exists i. split; [|done].
               apply elem_of_app. by left.
            -- exists idx. split; [|done]. apply elem_of_app. right.
               apply list_elem_of_here.
        + rewrite lookup_insert_ne in Hl by done.
          destruct (Hg1 _ _ Hl) as (Hnil & Hnd' & Hmem). split; [done|]. split; [done|].
          intros e He. destruct (Hmem _ He) as (i & Hi & Hr). exists i. split; [|done].
          apply elem_of_app. by left.
      - intros e i r [Hin|Hin%list_elem_of_singleton]%elem_of_app Hr.
        + destruct (Hg2 _ _ _ Hin Hr) as (l & Hl & He). unfold g1.
          destruct (decide (r = root)) as [->|Hne].
          * rewrite lookup_insert_eq, Hl. simpl. eexists. split; [done|].
            apply elem_of_app. by left.
          * rewrite lookup_insert_ne by done. by exists l.
        + injection Hin as -> ->. pose proof (reaches_det _ _ _ _ Hr Hroot0) as ->.
          unfold g1. rewrite lookup_insert_eq. eexists. split; [done|].
          apply elem_of_app. right. apply list_elem_of_here. }
    destruct (IH uf1 g1 _ Hwf1 Hsame' Hnd Hg1) as (uf' & g' & Hret & Hg').
    exists uf', g'. split.
    + simpl.
      apply (returns_bind (λ f, Find f uf idx)
               (λ r f, let '(root, uf) := r in
                  AccountsMerge_group f entries uf
                    (<[root := default [] (g !! root) ++ [email]]> g)) _ _ Hret1 Hret).
    + by rewrite cons_middle, app_assoc.
Qed.

Lemma AccountsMerge_build_spec sort_Strings groups names result :
  (∀ l, sort_Strings l ≡ₚ l) →
  Forall (λ p, p.2 ≠ []) groups →
  AccountsMerge_build sort_Strings groups names result =
  Ok (result ++ ((λ p, merged_account sort_Strings names p.2) <$> groups)).
Proof.
  intros Hsort Hgroups. revert result.
  induction Hgroups as [|[r l] groups Hl _ IH]; intros result.
  - simpl. by rewrite app_nil_r.
  - simpl in *. pose proof (Hsort l) as Hperm.
    destruct (sort_Strings l) as [|first rest] eqn:E.
    { by apply Permutation_nil_l in Hperm. }
    change (index (first :: rest) 0) with (Ok (A := string) first). simpl.
    rewrite IH. unfold merged_account. rewrite E. simpl.
    by rewrite <- app_assoc.
Qed.

(** ** The result *)

Lemma emails_of_merged_account sort_Strings names l :
  emails_of (merged_account sort_Strings names l) = sort_Strings l.
Proof. done. Qed.

Lemma merged_of_groups sort_Strings accounts es st uf entries g groups :
  sort_Strings_contract sort_Strings →
  numbered es st →
  (∀ e, e ∈ es ↔ listed accounts e) →
  (∀ e, emailToName st !! e = owner accounts e) →
  wf (Z.of_nat (length es)) uf →
  (∀ u v, conn (parent uf) u v ↔
          joined (Z.of_nat (length es)) (link_pairs (emailToIndex st) accounts) u v) →
  entries ≡ₚ map_to_list (emailToIndex st) →
  grouped (parent uf) entries g →
  groups ≡ₚ map_to_list g →
  merged accounts ((λ p, merged_account sort_Strings (emailToName st) p.2) <$> groups).
Proof.
  intros Hsort (Hnd & Hnext & Hm & Hdom) Hes Hnames Hwf Hconn Hentries [Hg1 Hg2] Hgroups.
  set (m := emailToIndex st) in *.
  assert (∀ e i, (e, i) ∈ entries ↔ m !! e = Some i) as Hentry.
  { intros e i. by rewrite Hentries, elem_of_map_to_list. }
  assert (∀ r l, (r, l) ∈ groups ↔ g !! r = Some l) as Hgroup.
  { intros r l. by rewrite Hgroups, elem_of_map_to_list. }
  assert (NoDup groups.*1) as Hroots.
  { rewrite Hgroups. apply NoDup_fst_map_to_list. }
  assert (∀ e l r, g !! r = Some l → e ∈ l →
                   e ∈ es ∧ reaches (parent uf) (index_of m e) r) as Hmember.
  { intros e l r Hl He. destruct (Hg1 _ _ Hl) as (_ & _ & Hmem).
    destruct (Hmem _ He) as (i & Hi%Hentry & Hr). split.
    - apply elem_of_lookupZ. exists i. by apply Hm.
    - unfold index_of. by rewrite Hi. }
  assert (∀ e, e ∈ es → ∃ r l, g !! r = Some l ∧ e ∈ l) as Hcover.
  { intros e He. pose proof (index_of_lookup es m Hm e He) as Hi.
    pose proof (index_of_valid es m Hm e He) as Hv.
    destruct (wf_total _ _ Hwf _ Hv) as [r Hr].
    destruct (Hg2 e (index_of m e) r) as (l & Hl & Hel); [|done|by exists r, l].
    by apply Hentry, Hm. }
  assert (∀ l e, e ∈ sort_Strings l ↔ e ∈ l) as Hsorted.
  { intros l e. by rewrite (proj1 (Hsort l)). }
  split; [|split].
  - apply Forall_fmap, Forall_forall. intros [r l] Hl%Hgroup. simpl.
    destruct (Hg1 _ _ Hl) as (Hnil & Hndl & _).
    unfold merged_account. destruct (Hsort l) as [Hperm Hasc].
    destruct (sort_Strings l) as [|first rest] eqn:E.
    { by apply Permutation_nil_l in Hperm. }
    simpl. eexists _, first, rest. split; [done|]. split; [done|]. split.
    + by rewrite Hperm.
    + assert (first ∈ l) as Hfirst by (rewrite <- Hperm; apply list_elem_of_here).
      destruct (Hmember _ _ _ Hl Hfirst) as [Hin%Hes _].
      rewrite Hnames. destruct (owner_listed _ _ Hin) as [name ->]. done.
  - intros e. rewrite <- Hes. split.
    + intros (r & l & Hl & He)%Hcover.
      exists (merged_account sort_Strings (emailToName st) l). split.
      * apply list_elem_of_fmap. exists (r, l). split; [done|]. by apply Hgroup.
      * rewrite emails_of_merged_account. by apply Hsorted.
    + intros (account & ([r l] & -> & Hl%Hgroup)%list_elem_of_fmap & He).
      rewrite emails_of_merged_account in He. simpl in He. rewrite Hsorted in He.
      by destruct (Hmember _ _ _ Hl He).
  - intros i j account account' e e' Hi Hj He He'.
    rewrite list_lookup_fmap in Hi, Hj.
    destruct (groups !! i) as [[r l]|] eqn:Ei; [|done].
    destruct (groups !! j) as [[r' l']|] eqn:Ej; [|done].
    simpl in Hi, Hj. injection Hi as <-. injection Hj as <-.
    rewrite emails_of_merged_account in He, He'. simpl in He, He'.
    rewrite Hsorted in He, He'.
    assert (g !! r = Some l) as Hl by (eapply Hgroup, list_elem_of_lookup_2, Ei).
    assert (g !! r' = Some l') as Hl' by (eapply Hgroup, list_elem_of_lookup_2, Ej).
    destruct (Hmember _ _ _ Hl He) as [Hin Hr].
    destruct (Hmember _ _ _ Hl' He') as [Hin' Hr'].
    split.
    + intros Hsame%(same_person_joined es m Hm accounts Hes).
      apply Hconn in Hsame as (r0 & H0 & H0').
      pose proof (reaches_det _ _ _ _ H0 Hr) as E1.
      pose proof (reaches_det _ _ _ _ H0' Hr') as E2.
      assert (r' = r) as -> by congruence.
      apply (NoDup_lookup _ _ _ r Hroots); rewrite list_lookup_fmap.
      * by rewrite Ei.
      * by rewrite Ej.
    + intros <-. assert (r' = r ∧ l' = l) as [-> ->] by (split; congruence).
      assert (conn (parent uf) (index_of m e) (index_of m e')) as Hc by (by exists r).
      apply Hconn, (joined_same_person es m Hm accounts Hes) in Hc
        as (e1 & e2 & H1 & H2 & Hsame).
      rewrite (index_of_lookup es m Hm e Hin) in H1.
      rewrite (index_of_lookup es m Hm e' Hin') in H2. congruence.
Qed.

Lemma numbered_empty :
  numbered [] {| emailToIndex := ∅; emailToName := ∅; nextIndex := 0 |}.
Proof.
  split; [constructor|]. split; [done|]. split.
  - intros e i. simpl. rewrite lookup_empty. split; [done|].
    unfold lookupZ. by case_decide.
  - intros e. simpl. rewrite lookup_empty. split; [by intros [? ?]|].
    by intros ?%elem_of_nil.
Qed.

Lemma AccountsMerge_outcome sort_Strings range_emailToIndex range_indexToEmails accounts :
  sort_Strings_contract sort_Strings →
  range_contract range_emailToIndex →
  range_contract range_indexToEmails →
  Forall (λ account, account ≠ []) accounts →
  Z.of_nat (length (accounts ≫= emails_of)) ≤ max_int →
  ∃ result,
    returns (λ f, AccountsMerge sort_Strings range_emailToIndex range_indexToEmails
                    f accounts) result ∧
    merged accounts result.
Proof.
  intros Hsort Hrange1 Hrange2 Hnames Hmax.
  destruct (AccountsMerge_number_spec [] accounts _ [] Hnames numbered_empty)
    as (st & es & Hrun & Hnum & Hes & Howner).
  { intros e. split; [by intros ?%elem_of_nil|by intros ?%listed_nil]. }
  { intros e. simpl. by rewrite lookup_empty. }
  { simpl. lia. }
  simpl in Hes, Howner.
  pose proof Hnum as (Hnd & Hnext & Hm & Hdom).
  assert (length es ≤ length (accounts ≫= emails_of))%nat as Hlen.
  { apply submseteq_length, NoDup_submseteq; [done|].
    intros e (account & Hin & He)%Hes. apply list_elem_of_bind. by exists account. }
  set (n := Z.of_nat (length es)) in *.
  pose proof (NewUnionFind_Ok n ltac:(lia)) as Hnew.
  pose proof (NewUnionFind_wf _ _ Hnew) as Hwf.
  set (uf0 := {| parent := seqZ 0 n; rank := replicate (Z.to_nat n) 0; count := n |}) in *.
  destruct (AccountsMerge_link_spec es (emailToIndex st) Hm accounts uf0 [] Hwf)
    as (uf1 & [f1 Hret1] & Hwf1 & Hconn1).
  { intros u v. simpl. by rewrite conn_seqZ, joined_nil. }
  { apply Forall_forall. intros account Hin. apply Forall_forall. intros e He.
    apply Hes. by exists account. }
  simpl in Hconn1.
  set (entries := range_emailToIndex (emailToIndex st)).
  assert (entries ≡ₚ map_to_list (emailToIndex st)) as Hentries by apply Hrange1.
  destruct (AccountsMerge_group_spec n (parent uf1) entries uf1 ∅ [] Hwf1)
    as (uf2 & g & [f2 Hret2] & Hg).
  { apply same_reps_refl. }
  { apply Forall_forall. intros [e i] Hin. simpl.
    rewrite Hentries, elem_of_map_to_list, Hm in Hin.
    by apply lookupZ_Some_range in Hin. }
  { simpl. rewrite Hentries. apply NoDup_fst_map_to_list. }
  { split.
    - intros r l Hl. by rewrite lookup_empty in Hl.
    - intros e i r Hin. by apply elem_of_nil in Hin. }
  simpl in Hg.
  set (groups := range_indexToEmails g).
  assert (groups ≡ₚ map_to_list g) as Hgroups by apply Hrange2.
  exists ((λ p, merged_account sort_Strings (emailToName st) p.2) <$> groups). split.
  - exists (f1 `max` f2)%nat. intros f Hf. unfold AccountsMerge.
    rewrite Hrun. simpl. rewrite Hnext, Hnew. simpl.
    rewrite Hret1 by lia. simpl. fold entries. rewrite Hret2 by lia. simpl.
    fold groups. rewrite AccountsMerge_build_spec; [done|apply Hsort|].
    apply Forall_forall. intros [r l] Hin. simpl.
    rewrite Hgroups, elem_of_map_to_list in Hin.
    destruct Hg as [Hg1 _]. by destruct (Hg1 _ _ Hin).
  - by apply (merged_of_groups sort_Strings accounts es st uf1 entries g groups).
Qed.

Lemma merge_sort_contract : sort_Strings_contract (merge_sort String.le).
Proof.
  intros l. split; [apply merge_sort_Permutation|apply Sorted_merge_sort, _].
Qed.

Lemma map_to_list_contract {K} `{Countable K} {V} :
  range_contract (map_to_list : gmap K V → list (K * V)).
Proof. by intros m. Qed.

Lemma reverse_map_to_list_contract {K} `{Countable K} {V} :
  range_contract (λ m : gmap K V, reverse (map_to_list m)).
Proof. intros m. apply reverse_Permutation. Qed.

Lemma demoAccounts_named : Forall (λ account : list string, account ≠ []) demoAccounts.
Proof. unfold demoAccounts. by repeat constructor. Qed.

Lemma demoAccounts_small : Z.of_nat (length (demoAccounts ≫= emails_of)) ≤ max_int.
Proof. by vm_compute. Qed.

(** X18. [AccountsMerge] merges the accounts of one person.  For accounts
    that each have a name, with not more than [max_int] addresses in all,
    whatever order the two [range]s over maps take and for any [sort.Strings]
    within its contract, the call returns, and the result is the merge of
    the accounts: each account of the result is a name followed by one or
    more addresses in ascending order without repetition, the name being that
    of the first input account listing the smallest address; the addresses of
    the result are those of the input; and two of them are in the same
    account exactly when a chain of input accounts sharing addresses links
    them.  Accounts without an address leave no trace. *)
Theorem AccountsMerge_merges sort_Strings range_emailToIndex range_indexToEmails accounts :
  sort_Strings_contract sort_Strings →
  range_contract range_emailToIndex →
  range_contract range_indexToEmails →
  Forall (λ account, account ≠ []) accounts →
  Z.of_nat (length (accounts ≫= emails_of)) ≤ max_int →
  ∃ result,
    returns (λ f, AccountsMerge sort_Strings range_emailToIndex range_indexToEmails
                    f accounts) result ∧
    merged accounts result.
Proof.
  intros Hsort Hrange1 Hrange2 Hnames Hmax.
  destruct (AccountsMerge_outcome sort_Strings range_emailToIndex range_indexToEmails
              accounts Hsort Hrange1 Hrange2 Hnames Hmax) as (result & Hret & Hmerged).
  by exists result.
Qed.

Lemma AccountsMerge_merges_witness :
  (sort_Strings_contract (merge_sort String.le) ∧
   range_contract (map_to_list : gmap string Z → _) ∧
   range_contract (map_to_list : gmap Z (list string) → _) ∧
   Forall (λ account : list string, account ≠ []) demoAccounts ∧
   Z.of_nat (length (demoAccounts ≫= emails_of)) ≤ max_int) ∧
  ∃ result,
    returns (λ f, AccountsMerge (merge_sort String.le) map_to_list map_to_list
                    f demoAccounts) result ∧
    merged demoAccounts result.
Proof.
  split.
  - split; [apply merge_sort_contract|]. split; [apply map_to_list_contract|].
    split; [apply map_to_list_contract|].
    split; [apply demoAccounts_named|apply demoAccounts_small].
  - apply (AccountsMerge_merges (merge_sort String.le) map_to_list map_to_list demoAccounts
             merge_sort_contract map_to_list_contract map_to_list_contract
             demoAccounts_named demoAccounts_small).
Defined.

(** X19. An account without a name makes [AccountsMerge] panic: if some
    account of the input is empty, reading [account[0]] in the first loop
    ends the call in the index-out-of-range panic, whatever the other
    accounts hold. *)
Theorem AccountsMerge_empty_account_panics
    sort_Strings range_emailToIndex range_indexToEmails accounts :
  [] ∈ accounts →
  panics (λ f, AccountsMerge sort_Strings range_emailToIndex range_indexToEmails
                 f accounts).
Proof.
  intros Hin. exists O. intros f _. unfold AccountsMerge.
  by rewrite AccountsMerge_number_panics.
Qed.

Lemma AccountsMerge_empty_account_panics_witness :
  [] ∈ emptyAccounts ∧
  panics (λ f, AccountsMerge (merge_sort String.le) map_to_list map_to_list
                 f emptyAccounts).
Proof.
  assert ([] ∈ emptyAccounts) as Hin
    by (unfold emptyAccounts; apply list_elem_of_further, list_elem_of_here).
  split; [done|].
  apply (AccountsMerge_empty_account_panics (merge_sort String.le) map_to_list map_to_list
           emptyAccounts Hin).
Defined.

(** ** The merge is determined up to the order of its accounts *)

Lemma merged_members accounts result i account first e :
  merged accounts result → result !! i = Some account → first ∈ emails_of account →
  e ∈ emails_of account ↔ same_person accounts first e.
Proof.
  intros (_ & Hlisted & Hsame) Hi Hfirst. split.
  - intros He. by apply (Hsame i i account account first e).
  - intros Hp. destruct (same_person_listed _ _ _ Hp) as [_ He].
    apply Hlisted in He as (account' & [k Hk]%list_elem_of_lookup & He).
    pose proof (proj1 (Hsame i k account account' first e Hi Hk Hfirst He) Hp) as ->.
    congruence.
Qed.

Lemma merged_NoDup accounts result : merged accounts result → NoDup result.
Proof.
  intros Hmerged. pose proof Hmerged as (Hshape & Hlisted & Hsame).
  apply NoDup_alt. intros i j account Hi Hj.
  rewrite Forall_forall in Hshape.
  destruct (Hshape account) as (name & first & rest & -> & _);
    [by eapply list_elem_of_lookup_2|].
  assert (first ∈ emails_of (name :: first :: rest)) as Hfirst by apply list_elem_of_here.
  apply (Hsame i j _ _ first first Hi Hj Hfirst Hfirst).
  apply same_person_refl, Hlisted. eexists. split; [by eapply list_elem_of_lookup_2|done].
Qed.

Lemma merged_subseteq accounts result result' account :
  merged accounts result → merged accounts result' → account ∈ result → account ∈ result'.
Proof.
  intros Hmerged Hmerged' [i Hi]%list_elem_of_lookup.
  pose proof Hmerged as (Hshape & Hlisted & _).
  pose proof Hmerged' as (Hshape' & Hlisted' & _).
  rewrite Forall_forall in Hshape, Hshape'.
  destruct (Hshape account) as (name & first & rest & -> & Hasc & Hnd & Hname);
    [by eapply list_elem_of_lookup_2|].
  assert (first ∈ emails_of (name :: first :: rest)) as Hfirst by apply list_elem_of_here.
  assert (listed accounts first) as Hl.
  { apply Hlisted. eexists. split; [by eapply list_elem_of_lookup_2|done]. }
  apply Hlisted' in Hl as (account' & Hin' & Hfirst').
  pose proof Hin' as [j Hj]%list_elem_of_lookup.
  destruct (Hshape' account' Hin') as (name' & first' & rest' & -> & Hasc' & Hnd' & Hname').
  assert (first :: rest = first' :: rest') as Heq.
  { apply (Sorted_unique String.le); [done..|].
    apply NoDup_Permutation; [done..|]. intros e.
    change (e ∈ emails_of (name :: first :: rest) ↔ e ∈ emails_of (name' :: first' :: rest')).
    by rewrite (merged_members _ _ _ _ first e Hmerged Hi Hfirst),
               (merged_members _ _ _ _ first e Hmerged' Hj Hfirst'). }
  injection Heq as <- <-. by replace name with name' by congruence.
Qed.

Lemma merged_unique accounts result result' :
  merged accounts result → merged accounts result' → result ≡ₚ result'.
Proof.
  intros Hmerged Hmerged'.
  apply NoDup_Permutation; [by eapply merged_NoDup..|].
  intros account. split; by apply (merged_subseteq accounts).
Qed.

(** X20. The order in which Go walks through the two maps shows only in the
    order of the merged accounts.  Two runs of [AccountsMerge] on the same
    accounts (each with a name, not more than [max_int] addresses in all),
    with whatever orders of the [range]s and whatever [sort.Strings] within
    its contract, both return, and the two results are the same accounts in
    possibly different order. *)
Theorem AccountsMerge_order_independent
    sort_Strings range_emailToIndex range_indexToEmails
    sort_Strings' range_emailToIndex' range_indexToEmails' accounts :
  sort_Strings_contract sort_Strings →
  range_contract range_emailToIndex →
  range_contract range_indexToEmails →
  sort_Strings_contract sort_Strings' →
  range_contract range_emailToIndex' →
  range_contract range_indexToEmails' →
  Forall (λ account, account ≠ []) accounts →
  Z.of_nat (length (accounts ≫= emails_of)) ≤ max_int →
  ∃ result result',
    returns (λ f, AccountsMerge sort_Strings range_emailToIndex range_indexToEmails
                    f accounts) result ∧
    returns (λ f, AccountsMerge sort_Strings' range_emailToIndex' range_indexToEmails'
                    f accounts) result' ∧
    result ≡ₚ result'.
Proof.
  intros Hsort Hr1 Hr2 Hsort' Hr1' Hr2' Hnames Hmax.
  destruct (AccountsMerge_outcome _ _ _ accounts Hsort Hr1 Hr2 Hnames Hmax)
    as (result & Hret & Hmerged).
  destruct (AccountsMerge_outcome _ _ _ accounts Hsort' Hr1' Hr2' Hnames Hmax)
    as (result' & Hret' & Hmerged').
  exists result, result'. split; [done|]. split; [done|]. by eapply merged_unique.
Qed.

Lemma AccountsMerge_order_independent_witness :
  (sort_Strings_contract (merge_sort String.le) ∧
   range_contract (map_to_list : gmap string Z → _) ∧
   range_contract (map_to_list : gmap Z (list string) → _) ∧
   sort_Strings_contract (merge_sort String.le) ∧
   range_contract (λ m : gmap string Z, reverse (map_to_list m)) ∧
   range_contract (λ m : gmap Z (list string), reverse (map_to_list m)) ∧
   Forall (λ account : list string, account ≠ []) demoAccounts ∧
   Z.of_nat (length (demoAccounts ≫= emails_of)) ≤ max_int) ∧
  ∃ result result',
    returns (λ f, AccountsMerge (merge_sort String.le) map_to_list map_to_list
                    f demoAccounts) result ∧
    returns (λ f, AccountsMerge (merge_sort String.le)
                    (λ m, reverse (map_to_list m)) (λ m, reverse (map_to_list m))
                    f demoAccounts) result' ∧
    result ≡ₚ result'.
Proof.
  split.
  - split; [apply merge_sort_contract|]. split; [apply map_to_list_contract|].
    split; [apply map_to_list_contract|]. split; [apply merge_sort_contract|].
    split; [apply reverse_map_to_list_contract|].
    split; [apply reverse_map_to_list_contract|].
    split; [apply demoAccounts_named|apply demoAccounts_small].
  - apply (AccountsMerge_order_independent
             (merge_sort String.le) map_to_list map_to_list
             (merge_sort String.le) (λ m, reverse (map_to_list m))
             (λ m, reverse (map_to_list m)) demoAccounts
             merge_sort_contract map_to_list_contract map_to_list_contract
             merge_sort_contract reverse_map_to_list_contract reverse_map_to_list_contract
             demoAccounts_named demoAccounts_small).
Defined.

(** * [KruskalMST] on edges of pairwise distinct weights *)

Lemma insertion_sort_backwards_contract : sort_contract insertion_sort_backwards.
Proof.
  intros s less Hless. unfold insertion_sort_backwards.
  destruct (insertion_sort_contract (reverse s) less Hless) as [Hperm Hord].
  split; [|done]. by rewrite Hperm, reverse_Permutation.
Qed.

Lemma distinct_weights_inj edges e e' :
  NoDup (Weight <$> edges) → e ∈ edges → e' ∈ edges → Weight e = Weight e' → e = e'.
Proof.
  induction edges as [|x edges IH]; intros Hnd He He' Hw.
  - by apply elem_of_nil in He.
  - rewrite fmap_cons in Hnd. apply NoDup_cons in Hnd as [Hx Hnd].
    apply elem_of_cons in He as [->|He]; apply elem_of_cons in He' as [->|He'].
    + done.
    + destruct Hx. rewrite Hw. by apply list_elem_of_fmap_2.
    + destruct Hx. rewrite <- Hw. by apply list_elem_of_fmap_2.
    + by apply IH.
Qed.

(** With pairwise distinct weights there is one ascending arrangement. *)
Lemma ascending_unique edges l l' :
  NoDup (Weight <$> edges) → l ≡ₚ edges → l' ≡ₚ edges →
  ascending l → ascending l' → l = l'.
Proof.
  intros Hnd Hl Hl' Ha Ha'.
  assert (Weight <$> l = Weight <$> l') as Hw.
  { apply (StronglySorted_unique Z.le).
    - by apply (StronglySorted_fmap _ (λ a b, Weight a ≤ Weight b)).
    - by apply (StronglySorted_fmap _ (λ a b, Weight a ≤ Weight b)).
    - by rewrite Hl, Hl'. }
  assert (∀ e, e ∈ l → e ∈ edges) as Hin by (intros e; by rewrite Hl).
  assert (∀ e, e ∈ l' → e ∈ edges) as Hin' by (intros e; by rewrite Hl').
  clear Hl Hl' Ha Ha'. revert l' Hw Hin'.
  induction l as [|e l IH]; intros [|e' l'] Hw Hin'; try done.
  rewrite !fmap_cons in Hw. injection Hw as Hw Hws. f_equal.
  - apply (distinct_weights_inj edges); [done| | |done].
    + apply Hin, list_elem_of_here.
    + apply Hin', list_elem_of_here.
  - apply IH; [|done|].
    + intros x Hx. by apply Hin, list_elem_of_further.
    + intros x Hx. by apply Hin', list_elem_of_further.
Qed.

(** X21. When no two edges have the same weight, what [KruskalMST] does is
    fixed by the input alone: every [sort.Slice] within its contract leaves
    the same sequence, ascending and with each edge where a stable sort puts
    it, so the slice the caller sees afterwards and the outcome of the call
    are the same whichever sorting procedure is behind [sort.Slice]. *)
Theorem KruskalMST_distinct_weights_determined sort_Slice sort_Slice' f n edges :
  sort_contract sort_Slice → sort_contract sort_Slice' →
  NoDup (Weight <$> edges) →
  KruskalMST sort_Slice f n edges = KruskalMST sort_Slice' f n edges ∧
  ascending (KruskalMST sort_Slice f n edges).1 ∧
  stable edges (KruskalMST sort_Slice f n edges).1.
Proof.
  intros Hsort Hsort' Hnd.
  destruct (Hsort edges less_weight less_weight_ordering) as [Hperm Hord].
  destruct (Hsort' edges less_weight less_weight_ordering) as [Hperm' Hord'].
  apply ordered_less_weight in Hord, Hord'.
  pose proof (ascending_unique edges _ _ Hnd Hperm Hperm' Hord Hord') as Heq.
  unfold KruskalMST. rewrite <- Heq. split; [done|]. split; [done|].
  by apply stable_of_distinct_weights.
Qed.

Lemma KruskalMST_distinct_weights_determined_witness :
  (sort_contract insertion_sort ∧ sort_contract insertion_sort_backwards ∧
   NoDup (Weight <$> triangleEdges)) ∧
  KruskalMST insertion_sort 3 3 triangleEdges =
    KruskalMST insertion_sort_backwards 3 3 triangleEdges ∧
  ascending (KruskalMST insertion_sort 3 3 triangleEdges).1 ∧
  stable triangleEdges (KruskalMST insertion_sort 3 3 triangleEdges).1.
Proof.
  assert (NoDup (Weight <$> triangleEdges)) as Hnd.
  { unfold triangleEdges. simpl. repeat constructor; set_solver. }
  split.
  - split; [exact insertion_sort_contract|].
    split; [exact insertion_sort_backwards_contract|done].
  - exact (KruskalMST_distinct_weights_determined insertion_sort insertion_sort_backwards
             3 3 triangleEdges insertion_sort_contract insertion_sort_backwards_contract
             Hnd).
Defined.
